(** * Algorthmia backend: a shallow embedding of the execution path

    The development follows the Go packages of the repository:
    - [types]      (internal/types): values, steps, executions, envelopes;
    - [sorting]    (internal/algorithms/sorting);
    - [searching]  (internal/algorithms/searching);
    - [algorithms] (internal/algorithms/registry.go);
    - [api]        (internal/api/handlers.go);
    - [config]     (internal/config): the settings read from the environment;
    - [main]       (main.go): the address the server listens on.

    Conventions of the embedding.
    - A Go [int] is a 64-bit two's complement integer, carried by [Z].
      Counters that the code increments without bound ([comparisons],
      [swaps], [stepNumber]) wrap around through [wrap]; index
      arithmetic that stays between -1 and the length of a slice is exact.
    - A Go [interface{}] is the tagged variant [Value]; a type assertion
      [v.(int)] is a match on the tag.
    - A [map[string]interface{}] is a [gmap string Value].
    - [stepCallback] is an output action of the monad [Run]: an algorithm
      never observes what the callback does, so a run is the list of the
      steps it emitted, in emission order, with its outcome.
    - Wall-clock time stamps placed in steps, executions and envelopes are
      left out; the clock reading from which an execution id is built is
      an input of the handler.
    - A field keeps its Go name unless the name is taken: [Type_] and
      [Value_] stand for [Type] and [Value], [AlgName] for
      [Algorithm.Name], [AlgParameters] for [Algorithm.Parameters],
      [ExecID] and [ExecParameters] for the [ID] and [Parameters] of an
      execution, [MsgType] and [MsgData] for the [Type] and [Data] of an
      envelope. *)

From Stdlib Require Import ZArith String List Lia DecimalString DecimalZ DecimalPos.
From stdpp Require Import gmap strings list fin_maps sorting.

#[local] Set Warnings "-register-all".
#[local] Open Scope Z_scope.

(** ** Go integers *)

Definition wrap (x : Z) : Z := (x + 2 ^ 63) mod 2 ^ 64 - 2 ^ 63.

Definition incr (x : Z) : Z := wrap (x + 1).

(** [fmt.Sprintf("%d", n)] *)
Definition itoa (n : Z) : string := NilZero.string_of_int (Z.to_int n).

(** [fmt.Sprintf("%v", l)] for a [[]int]: the elements in brackets,
    separated by spaces. *)
Definition fmtInts (l : list Z) : string :=
  "[" +:+ String.concat " " (itoa <$> l) +:+ "]".

(** ** Package types *)

Module types.

(** [searching.HashEntry], declared here because step payloads carry it. *)
Record HashEntry : Type := {
  Key : string;
  Value_ : string
}.

(** The dynamic values an [interface{}] holds on this code path, one tag
    per Go type. [VFloat] carries the IEEE-754 bit pattern of a [float64];
    [VInts] is a [[]int], [VBools] a [[]bool], [VIntss] a [[][]int],
    [VList] a [[]interface{}], [VMap] a [map[string]interface{}],
    [VEntries] a [[]HashEntry] and [VTable] a [map[int][]HashEntry]. *)
Inductive Value : Type :=
  | VNil
  | VBool (b : bool)
  | VInt (n : Z)
  | VFloat (bits : Z)
  | VString (s : string)
  | VInts (l : list Z)
  | VBools (l : list bool)
  | VIntss (l : list (list Z))
  | VList (l : list Value)
  | VMap (m : gmap string Value)
  | VEntry (e : HashEntry)
  | VEntries (l : list HashEntry)
  | VTable (m : gmap Z (list HashEntry)).

(** A Go map literal. *)
Definition object (l : list (string * Value)) : gmap string Value :=
  list_to_map l.

Inductive AlgorithmCategory : Type :=
  | CategorySorting
  | CategorySearching
  | CategoryGraphsTrees
  | CategoryPathfinding
  | CategoryDynamicProgramming
  | CategoryGreedy
  | CategoryStrings
  | CategoryNumberTheory
  | CategoryRandomized
  | CategoryOptimization.

(** [types.Parameter]; the name is a reserved word here. *)
Record ParameterSpec : Type := {
  Name : string;
  Type_ : string;
  Default : Value;
  Min : option Z;
  Max : option Z;
  Required : bool
}.

Record Algorithm : Type := {
  ID : string;
  AlgName : string;
  Category : AlgorithmCategory;
  Description : string;
  BigO : string;
  AlgParameters : list ParameterSpec
}.

Record ExecutionStep : Type := {
  StepNumber : Z;
  Action : string;
  Data : gmap string Value;
  Message : string
}.

Inductive ExecutionStatus : Type :=
  | StatusPending
  | StatusRunning
  | StatusPaused
  | StatusCompleted
  | StatusError
  | StatusCancelled.

Inductive WebSocketMessageType : Type :=
  | MessageTypeExecutionStep
  | MessageTypeExecutionComplete
  | MessageTypeExecutionError
  | MessageTypeExecutionPause
  | MessageTypeExecutionResume
  | MessageTypeExecutionCancel.

(** The payload of an envelope is either a step or a map. *)
Inductive MessageData : Type :=
  | DataStep (step : ExecutionStep)
  | DataMap (m : gmap string Value).

Record WebSocketMessage : Type := {
  MsgType : WebSocketMessageType;
  MsgData : MessageData
}.

(** *** Runs of an algorithm body *)

Inductive Outcome (A : Type) : Type :=
  | Returned (a : A)
  | Panicked (reason : string)
  | OutOfFuel.
Arguments Returned {A} a.
Arguments Panicked {A} reason.
Arguments OutOfFuel {A}.

Definition Run (A : Type) : Type := (list ExecutionStep * Outcome A)%type.

Definition ret {A} (a : A) : Run A := ([], Returned a).

Definition bind {A B} (m : Run A) (f : A → Run B) : Run B :=
  match m with
  | (t, Returned a) => let '(t', o) := f a in (t ++ t', o)
  | (t, Panicked r) => (t, Panicked r)
  | (t, OutOfFuel) => (t, OutOfFuel)
  end.

#[export] Instance Run_ret : MRet Run := @ret.
#[export] Instance Run_bind : MBind Run := λ A B f m, bind m f.

Definition stepCallback (step : ExecutionStep) : Run unit := ([step], Returned tt).

Definition panic {A} (reason : string) : Run A := ([], Panicked reason).

Definition steps {A} (m : Run A) : list ExecutionStep := m.1.

Definition outcome {A} (m : Run A) : Outcome A := m.2.

(** [arr[i]] on a slice: a run-time panic outside [0, len(arr)). *)
Definition index {A} (arr : list A) (i : Z) : Run A :=
  match (if 0 <=? i then arr !! Z.to_nat i else None) with
  | Some x => ret x
  | None => panic "index out of range"
  end.

Definition len {A} (arr : list A) : Z := Z.of_nat (length arr).

(** [arr[i] = x] on a slice. *)
Definition store {A} (arr : list A) (i : Z) (x : A) : Run (list A) :=
  if (0 <=? i) && (i <? Z.of_nat (length arr))
  then ret (<[Z.to_nat i := x]> arr)
  else panic "index out of range".

(** The result of one iteration of a loop body. *)
Inductive Ctl (S : Type) : Type :=
  | Continue (s : S)
  | Break (s : S).
Arguments Continue {S} s.
Arguments Break {S} s.

Fixpoint iterate {S} (k : nat) (i : Z) (body : Z → S → Run (Ctl S)) (s : S) : Run S :=
  match k with
  | O => ret s
  | S k' =>
      c ← body i s;
      match c with
      | Continue s' => iterate k' (i + 1) body s'
      | Break s' => ret s'
      end
  end.

(** [for i := lo; i < hi; i++ { body }], for a body that assigns neither
    [i] nor the bound. *)
Definition for_range {S} (lo hi : Z) (body : Z → S → Run (Ctl S)) (s : S) : Run S :=
  iterate (Z.to_nat (hi - lo)) lo body s.

(** [for i := hi; i > lo; i-- { body }], for a body without [break]. *)
Fixpoint iterate_down {S} (k : nat) (i : Z) (body : Z → S → Run S) (s : S) : Run S :=
  match k with
  | O => ret s
  | S k' => s' ← body i s; iterate_down k' (i - 1) body s'
  end.

Definition for_down {S} (hi lo : Z) (body : Z → S → Run S) (s : S) : Run S :=
  iterate_down (Z.to_nat (hi - lo)) hi body s.

(** [for cond { body }]: the fuel bounds the number of iterations. *)
Fixpoint while {S} (fuel : nat) (cond : S → bool) (body : S → Run (Ctl S)) (s : S) : Run S :=
  match fuel with
  | O => ([], OutOfFuel)
  | S fuel' =>
      if cond s then
        c ← body s;
        match c with
        | Continue s' => while fuel' cond body s'
        | Break s' => ret s'
        end
      else ret s
  end.

(** [arr[lo:hi]] on a slice whose capacity is its length. *)
Definition slice {A} (arr : list A) (lo hi : Z) : Run (list A) :=
  if (0 <=? lo) && (lo <=? hi) && (hi <=? Z.of_nat (length arr))
  then ret (take (Z.to_nat (hi - lo)) (drop (Z.to_nat lo) arr))
  else panic "slice bounds out of range".

(** The result pair [(interface{}, error)] of [Execute]. *)
Definition Result : Type := (Value * option string)%type.

Record AlgorithmExecutor : Type := {
  GetMetadata : Algorithm;
  Execute : Value → gmap string Value → Run Result;
  ValidateParameters : gmap string Value → option string
}.

Record AlgorithmExecution : Type := {
  ExecID : string;
  AlgorithmID : string;
  ExecParameters : gmap string Value;
  Input : Value;
  Output : Value;
  Steps : list ExecutionStep;
  Status : ExecutionStatus
}.

End types.
Export types.

(** ** Go built-ins used by both algorithm packages *)

(** [make([]T, size)], filled with the zero value of [T]: a run-time
    panic for a negative length. The limits of the allocator are not
    modelled. *)
Definition make {A} (zero : A) (size : Z) : Run (list A) :=
  if size <? 0 then panic "makeslice: len out of range"
  else ret (replicate (Z.to_nat size) zero).

(** [a % b]: the remainder of the division truncated toward zero, a
    run-time panic for a zero divisor. *)
Definition modulo (a b : Z) : Run Z :=
  if b =? 0 then panic "integer divide by zero" else ret (Z.rem a b).

(** [arr[i], arr[j] = arr[j], arr[i]]: both operands are read, then both
    elements are assigned. *)
Definition swap {A} (arr : list A) (i j : Z) : Run (list A) :=
  x ← index arr j;
  y ← index arr i;
  arr1 ← store arr i x;
  store arr1 j y.

(** The bytes of a string. *)
Definition bytes (s : string) : list Z :=
  (λ c, Z.of_N (Ascii.N_of_ascii c)) <$> list_ascii_of_string s.

Definition RuneError : Z := 65533.

Definition between (lo hi b : Z) : bool := (lo <=? b) && (b <=? hi).

(** The rune that starts with byte [b0] and continues in [rest], with the
    number of bytes it takes: the UTF-8 decoder of the Go runtime. A byte
    sequence that is not a valid encoding yields [RuneError] and takes
    one byte. *)
Definition decodeRune (b0 : Z) (rest : list Z) : Z * nat :=
  if b0 <? 128 then (b0, 1%nat)
  else
    let '(size, lo, hi) :=
      if between 194 223 b0 then (2, 128, 191)
      else if b0 =? 224 then (3, 160, 191)
      else if between 225 236 b0 then (3, 128, 191)
      else if b0 =? 237 then (3, 128, 159)
      else if between 238 239 b0 then (3, 128, 191)
      else if b0 =? 240 then (4, 144, 191)
      else if between 241 243 b0 then (4, 128, 191)
      else if b0 =? 244 then (4, 128, 143)
      else (0, 0, 0) in
    if size =? 0 then (RuneError, 1%nat)
    else
      match rest with
      | b1 :: rest1 =>
          if negb (between lo hi b1) then (RuneError, 1%nat)
          else if size =? 2 then
            (Z.lor (Z.shiftl (Z.land b0 31) 6) (Z.land b1 63), 2%nat)
          else
            match rest1 with
            | b2 :: rest2 =>
                if negb (between 128 191 b2) then (RuneError, 1%nat)
                else if size =? 3 then
                  (Z.lor (Z.lor (Z.shiftl (Z.land b0 15) 12) (Z.shiftl (Z.land b1 63) 6))
                     (Z.land b2 63), 3%nat)
                else
                  match rest2 with
                  | b3 :: _ =>
                      if negb (between 128 191 b3) then (RuneError, 1%nat)
                      else
                        (Z.lor (Z.lor (Z.lor (Z.shiftl (Z.land b0 7) 18)
                                         (Z.shiftl (Z.land b1 63) 12))
                                  (Z.shiftl (Z.land b2 63) 6))
                           (Z.land b3 63), 4%nat)
                  | [] => (RuneError, 1%nat)
                  end
            | [] => (RuneError, 1%nat)
            end
      | [] => (RuneError, 1%nat)
      end.

(** The runes of a byte sequence; [skip] bytes belong to the rune decoded
    last. *)
Fixpoint runesFrom (skip : nat) (p : list Z) : list Z :=
  match p with
  | [] => []
  | b0 :: rest =>
      match skip with
      | S skip' => runesFrom skip' rest
      | O => let '(r, size) := decodeRune b0 rest in r :: runesFrom (size - 1) rest
      end
  end.

(** [for _, char := range key]: the runes a string ranges over. *)
Definition runes (s : string) : list Z := runesFrom 0 (bytes s).

(** [for _, x := range l { body }] for a body without [break]. *)
Fixpoint for_each {A S} (l : list A) (body : A → S → Run S) (s : S) : Run S :=
  match l with
  | [] => ret s
  | x :: l' => s' ← body x s; for_each l' body s'
  end.

(** [parameters[name].(int)], [.(bool)] and [.(string)] with a default
    taken when the assertion fails. *)
Definition intParam (parameters : gmap string Value) (name : string) (default : Z) : Z :=
  match parameters !! name with
  | Some (VInt n) => n
  | _ => default
  end.

Definition boolParam (parameters : gmap string Value) (name : string) (default : bool) : bool :=
  match parameters !! name with
  | Some (VBool b) => b
  | _ => default
  end.

Definition stringParam (parameters : gmap string Value) (name : string) (default : string) : string :=
  match parameters !! name with
  | Some (VString s) => s
  | _ => default
  end.

(** [if v, ok := parameters[name].(int); ok { if v < lo || v > hi { return
    fmt.Errorf(msg) } }]: the check every [ValidateParameters] is made of.
    [None] is the [nil] error. *)
Definition checkIntRange (parameters : gmap string Value) (name : string)
    (lo hi : Z) (msg : string) : option string :=
  match parameters !! name with
  | Some (VInt v) => if (v <? lo) || (hi <? v) then Some msg else None
  | _ => None
  end.

(** ** Package sorting *)

Module sorting.

Definition generateRandomArray (size : Z) : Run (list Z) :=
  arr ← make 0 size;
  arr ← for_range 0 size
         (λ i arr, arr' ← store arr i (i + 1); mret (Continue arr')) arr;
  (* Shuffle the array *)
  for_down (len arr - 1) 0
    (λ i arr, j ← modulo i (i + 1); (* Simple shuffle for demo *)
              swap arr i j) arr.

Definition intPtr (i : Z) : option Z := Some i.

Module BubbleSort.

Definition metadata : Algorithm := {|
  ID := "bubble_sort";
  AlgName := "Bubble Sort";
  Category := CategorySorting;
  Description := "A simple sorting algorithm that repeatedly steps through the list, compares adjacent elements and swaps them if they are in the wrong order.";
  BigO := "Time: O(n²), Space: O(1)";
  AlgParameters := [
    {| Name := "array_size"; Type_ := "int"; Default := VInt 10;
       Min := intPtr 3; Max := intPtr 100; Required := true |};
    {| Name := "show_comparisons"; Type_ := "bool"; Default := VBool true;
       Min := None; Max := None; Required := false |} ]
|}.

(** The variables the loops of [Execute] assign. *)
Record Vars : Type := mkVars {
  arr : list Z;
  comparisons : Z;
  swaps : Z;
  stepNumber : Z;
  swapped : bool
}.

Definition inner (showComparisons : bool) (i : Z) (j : Z) (v : Vars) : Run (Ctl Vars) :=
  let comparisons := incr (comparisons v) in
  stepNumber ←
    (if showComparisons then
       aj ← index (arr v) j;
       aj1 ← index (arr v) (j + 1);
       stepCallback {|
         StepNumber := stepNumber v;
         Action := "compare";
         Data := object [
           ("array", VInts (arr v));
           ("comparing", VInts [j; j + 1]);
           ("values", VInts [aj; aj1]);
           ("comparisons", VInt comparisons);
           ("swaps", VInt (swaps v));
           ("outer_index", VInt i);
           ("inner_index", VInt j) ];
         Message := "Comparing " +:+ itoa aj +:+ " and " +:+ itoa aj1 |};;
       mret (incr (stepNumber v))
     else mret (stepNumber v));
  aj ← index (arr v) j;
  aj1 ← index (arr v) (j + 1);
  if aj1 <? aj then
    (* Swap elements *)
    arr' ← swap (arr v) j (j + 1);
    let swaps := incr (swaps v) in
    bj1 ← index arr' (j + 1);
    bj ← index arr' j;
    stepCallback {|
      StepNumber := stepNumber;
      Action := "swap";
      Data := object [
        ("array", VInts arr');
        ("swapped", VInts [j; j + 1]);
        ("values", VInts [bj1; bj]);
        ("comparisons", VInt comparisons);
        ("swaps", VInt swaps);
        ("outer_index", VInt i);
        ("inner_index", VInt j) ];
      Message := "Swapped " +:+ itoa bj1 +:+ " and " +:+ itoa bj |};;
    mret (Continue (mkVars arr' comparisons swaps (incr stepNumber) true))
  else
    mret (Continue (mkVars (arr v) comparisons (swaps v) stepNumber (swapped v))).

Definition outer (showComparisons : bool) (n : Z) (i : Z) (v : Vars) : Run (Ctl Vars) :=
  stepCallback {|
    StepNumber := stepNumber v;
    Action := "outer_loop";
    Data := object [
      ("array", VInts (arr v));
      ("outer_index", VInt i);
      ("comparisons", VInt (comparisons v));
      ("swaps", VInt (swaps v)) ];
    Message := "Outer loop iteration " +:+ itoa (i + 1) |};;
  v ← for_range 0 (n - i - 1) (inner showComparisons i)
        (mkVars (arr v) (comparisons v) (swaps v) (incr (stepNumber v)) false);
  (* Check if array is sorted *)
  if negb (swapped v) then
    stepCallback {|
      StepNumber := stepNumber v;
      Action := "early_termination";
      Data := object [
        ("array", VInts (arr v));
        ("comparisons", VInt (comparisons v));
        ("swaps", VInt (swaps v));
        ("outer_index", VInt i) ];
      Message := "Array is sorted, terminating early" |};;
    mret (Break (mkVars (arr v) (comparisons v) (swaps v) (incr (stepNumber v)) (swapped v)))
  else mret (Continue v).

(** [Execute] from the point where [arr] has been chosen. *)
Definition run (arr0 : list Z) (parameters : gmap string Value) : Run Result :=
  let showComparisons := boolParam parameters "show_comparisons" true in
  (* Send initial state *)
  stepCallback {|
    StepNumber := 0;
    Action := "initialize";
    Data := object [
      ("array", VInts arr0);
      ("comparisons", VInt 0);
      ("swaps", VInt 0);
      ("show_comparisons", VBool showComparisons) ];
    Message := "Starting Bubble Sort" |};;
  let n := len arr0 in
  v ← for_range 0 (n - 1) (outer showComparisons n) (mkVars arr0 0 0 1 false);
  (* Send final result *)
  stepCallback {|
    StepNumber := stepNumber v;
    Action := "complete";
    Data := object [
      ("array", VInts (arr v));
      ("comparisons", VInt (comparisons v));
      ("swaps", VInt (swaps v));
      ("sorted", VBool true) ];
    Message := "Bubble Sort completed with " +:+ itoa (comparisons v)
               +:+ " comparisons and " +:+ itoa (swaps v) +:+ " swaps" |};;
  mret (VInts (arr v), None).

Definition Execute (input : Value) (parameters : gmap string Value) : Run Result :=
  match input with
  | VNil =>
      (* Generate random array *)
      let arraySize := intParam parameters "array_size" 10 in
      arr0 ← generateRandomArray arraySize;
      run arr0 parameters
  | VInts inputArr => run inputArr parameters
  | _ => mret (VNil, Some "invalid input type, expected []int")
  end.

Definition ValidateParameters (parameters : gmap string Value) : option string :=
  checkIntRange parameters "array_size" 3 100 "array_size must be between 3 and 100".

Definition New : AlgorithmExecutor :=
  Build_AlgorithmExecutor metadata Execute ValidateParameters.

End BubbleSort.

Module HeapSort.

Definition metadata : Algorithm := {|
  ID := "heap_sort";
  AlgName := "Heap Sort";
  Category := CategorySorting;
  Description := "A comparison-based sorting algorithm that uses a binary heap data structure to sort elements.";
  BigO := "Time: O(n log n), Space: O(1)";
  AlgParameters := [
    {| Name := "array_size"; Type_ := "int"; Default := VInt 10;
       Min := intPtr 3; Max := intPtr 100; Required := true |};
    {| Name := "show_heap_structure"; Type_ := "bool"; Default := VBool true;
       Min := None; Max := None; Required := false |} ]
|}.

(** [heapify] maintains the heap property. The recursion of the source
    descends from [i] to a child of [i]; [fuel] bounds its depth. *)
Fixpoint heapify (fuel : nat) (arr : list Z) (n i : Z) (showHeapStructure : bool)
    (stepNumber : Z) : Run (list Z) :=
  match fuel with
  | O => ([], OutOfFuel)
  | S fuel' =>
      let largest := i in
      let left := wrap (wrap (2 * i) + 1) in
      let right := wrap (wrap (2 * i) + 2) in
      (if showHeapStructure then
         ai ← index arr i;
         stepCallback {|
           StepNumber := stepNumber;
           Action := "heapify_check";
           Data := object [
             ("array", VInts arr);
             ("parent", VInt i);
             ("left_child", VInt left);
             ("right_child", VInt right);
             ("parent_value", VInt ai);
             ("heap_size", VInt n) ];
           Message := "Checking heap property at index " +:+ itoa i |}
       else mret tt);;
      (* If left child is larger than root *)
      largest ←
        (if left <? n then
           al ← index arr left;
           ag ← index arr largest;
           mret (if ag <? al then left else largest)
         else mret largest);
      (* If right child is larger than largest so far *)
      largest ←
        (if right <? n then
           ar ← index arr right;
           ag ← index arr largest;
           mret (if ag <? ar then right else largest)
         else mret largest);
      (* If largest is not root *)
      if negb (largest =? i) then
        arr ← swap arr i largest;
        (if showHeapStructure then
           ag ← index arr largest;
           ai ← index arr i;
           stepCallback {|
             StepNumber := stepNumber;
             Action := "heapify_swap";
             Data := object [
               ("array", VInts arr);
               ("swapped", VInts [i; largest]);
               ("parent", VInt i);
               ("largest", VInt largest);
               ("heap_size", VInt n) ];
             Message := "Swapped " +:+ itoa ag +:+ " and " +:+ itoa ai
                        +:+ " to maintain heap property" |}
         else mret tt);;
        (* Recursively heapify the affected sub-tree *)
        heapify fuel' arr n largest showHeapStructure stepNumber
      else mret arr
  end.

(** [Execute] from the point where [arr] has been chosen. *)
Definition run (arr : list Z) (parameters : gmap string Value) : Run Result :=
  let showHeapStructure := boolParam parameters "show_heap_structure" true in
  (* Send initial state *)
  stepCallback {|
    StepNumber := 0;
    Action := "initialize";
    Data := object [
      ("array", VInts arr);
      ("show_heap_structure", VBool showHeapStructure) ];
    Message := "Starting Heap Sort" |};;
  (* Create a copy to avoid modifying the original *)
  let sortedArr := arr in
  let n := len sortedArr in
  let depth := S (length sortedArr) in
  (* Build max heap *)
  stepCallback {|
    StepNumber := 1;
    Action := "build_heap";
    Data := object [ ("array", VInts sortedArr); ("phase", VString "building") ];
    Message := "Building max heap" |};;
  sortedArr ← for_down (Z.quot n 2 - 1) (-1)
    (λ i sortedArr, heapify depth sortedArr n i showHeapStructure 2) sortedArr;
  (* Extract elements from heap one by one *)
  sortedArr ← for_down (n - 1) 0
    (λ i sortedArr,
       (* Move current root to end *)
       sortedArr ← swap sortedArr 0 i;
       extracted ← index sortedArr i;
       remaining ← slice sortedArr 0 i;
       stepCallback {|
         StepNumber := -1; (* Dynamic step number *)
         Action := "extract_max";
         Data := object [
           ("array", VInts sortedArr);
           ("extracted", VInt extracted);
           ("heap_size", VInt i);
           ("remaining", VInts remaining) ];
         Message := "Extracted max element: " +:+ itoa extracted |};;
       (* Call max heapify on the reduced heap *)
       heapify depth sortedArr i 0 showHeapStructure (-1)) sortedArr;
  (* Send final result *)
  stepCallback {|
    StepNumber := -1; (* Final step *)
    Action := "complete";
    Data := object [ ("array", VInts sortedArr); ("sorted", VBool true) ];
    Message := "Heap Sort completed" |};;
  mret (VInts sortedArr, None).

Definition Execute (input : Value) (parameters : gmap string Value) : Run Result :=
  match input with
  | VNil =>
      (* Generate random array *)
      let arraySize := intParam parameters "array_size" 10 in
      arr ← generateRandomArray arraySize;
      run arr parameters
  | VInts inputArr => run inputArr parameters
  | _ => mret (VNil, Some "invalid input type, expected []int")
  end.

Definition ValidateParameters (parameters : gmap string Value) : option string :=
  checkIntRange parameters "array_size" 3 100 "array_size must be between 3 and 100".

Definition New : AlgorithmExecutor :=
  Build_AlgorithmExecutor metadata Execute ValidateParameters.

End HeapSort.

Module MergeSort.

Definition metadata : Algorithm := {|
  ID := "merge_sort";
  AlgName := "Merge Sort";
  Category := CategorySorting;
  Description := "A divide-and-conquer algorithm that divides the array into two halves, sorts them separately, and then merges them back together.";
  BigO := "Time: O(n log n), Space: O(n)";
  AlgParameters := [
    {| Name := "array_size"; Type_ := "int"; Default := VInt 10;
       Min := intPtr 3; Max := intPtr 100; Required := true |};
    {| Name := "show_divisions"; Type_ := "bool"; Default := VBool true;
       Min := None; Max := None; Required := false |} ]
|}.

(** The variables the loops of [merge] assign. *)
Record Vars : Type := mkVars {
  arr : list Z;
  i : Z;
  j : Z;
  k : Z;
  stepNumber : Z
}.

(** [merge] merges two sorted subarrays; it returns the updated [arr]. *)
Definition merge (arr0 : list Z) (left mid right : Z) (stepNumber0 : Z) : Run (list Z) :=
  (* Create temporary arrays and copy data to them *)
  make 0 (mid - left + 1);;
  make 0 (right - mid);;
  leftArr ← slice arr0 left (mid + 1);
  rightArr ← slice arr0 (mid + 1) (right + 1);
  (* Merge the temporary arrays back into arr[left..right] *)
  v ← while (S (length leftArr + length rightArr))
        (λ v, (i v <? len leftArr) && (j v <? len rightArr))
        (λ v,
           li ← index leftArr (i v);
           rj ← index rightArr (j v);
           stepCallback {|
             StepNumber := stepNumber v;
             Action := "compare_merge";
             Data := object [
               ("array", VInts (arr v));
               ("left_value", VInt li);
               ("right_value", VInt rj);
               ("left_index", VInt (i v));
               ("right_index", VInt (j v));
               ("target_index", VInt (k v)) ];
             Message := "Comparing " +:+ itoa li +:+ " and " +:+ itoa rj +:+ " for merge" |};;
           let stepNumber := incr (stepNumber v) in
           if li <=? rj then
             arr ← store (arr v) (k v) li;
             mret (Continue (mkVars arr (i v + 1) (j v) (k v + 1) stepNumber))
           else
             arr ← store (arr v) (k v) rj;
             mret (Continue (mkVars arr (i v) (j v + 1) (k v + 1) stepNumber)))
        (mkVars arr0 0 0 left stepNumber0);
  (* Copy remaining elements *)
  v ← while (S (length leftArr)) (λ v, i v <? len leftArr)
        (λ v,
           li ← index leftArr (i v);
           arr ← store (arr v) (k v) li;
           mret (Continue (mkVars arr (i v + 1) (j v) (k v + 1) (stepNumber v)))) v;
  v ← while (S (length rightArr)) (λ v, j v <? len rightArr)
        (λ v,
           rj ← index rightArr (j v);
           arr ← store (arr v) (k v) rj;
           mret (Continue (mkVars arr (i v) (j v + 1) (k v + 1) (stepNumber v)))) v;
  mret (arr v).

(** [mergeSort] performs the recursive merge sort; it returns the updated
    [arr] with the step number. [fuel] bounds the depth of the recursion. *)
Fixpoint mergeSort (fuel : nat) (arr : list Z) (left right : Z) (showDivisions : bool)
    (stepNumber : Z) : Run (list Z * Z) :=
  match fuel with
  | O => ([], OutOfFuel)
  | S fuel' =>
      if left <? right then
        let mid := left + Z.quot (right - left) 2 in
        stepNumber ←
          (if showDivisions then
             la ← slice arr left (mid + 1);
             ra ← slice arr (mid + 1) (right + 1);
             stepCallback {|
               StepNumber := stepNumber;
               Action := "divide";
               Data := object [
                 ("array", VInts arr);
                 ("left", VInt left);
                 ("mid", VInt mid);
                 ("right", VInt right);
                 ("left_array", VInts la);
                 ("right_array", VInts ra) ];
               Message := "Dividing array from index " +:+ itoa left +:+ " to " +:+ itoa right |};;
             mret (incr stepNumber)
           else mret stepNumber);
        (* Recursively sort left and right halves *)
        '(arr, stepNumber) ← mergeSort fuel' arr left mid showDivisions stepNumber;
        '(arr, stepNumber) ← mergeSort fuel' arr (mid + 1) right showDivisions stepNumber;
        (* Merge the sorted halves *)
        la ← slice arr left (mid + 1);
        ra ← slice arr (mid + 1) (right + 1);
        stepCallback {|
          StepNumber := stepNumber;
          Action := "merge";
          Data := object [
            ("array", VInts arr);
            ("left", VInt left);
            ("mid", VInt mid);
            ("right", VInt right);
            ("left_array", VInts la);
            ("right_array", VInts ra) ];
          Message := "Merging sorted halves from " +:+ itoa left +:+ " to " +:+ itoa right |};;
        let stepNumber := incr stepNumber in
        arr ← merge arr left mid right stepNumber;
        let stepNumber := incr stepNumber in
        mret (arr, stepNumber)
      else mret (arr, stepNumber)
  end.

(** [Execute] from the point where [arr] has been chosen. *)
Definition run (arr : list Z) (parameters : gmap string Value) : Run Result :=
  let showDivisions := boolParam parameters "show_divisions" true in
  (* Send initial state *)
  stepCallback {|
    StepNumber := 0;
    Action := "initialize";
    Data := object [ ("array", VInts arr); ("show_divisions", VBool showDivisions) ];
    Message := "Starting Merge Sort" |};;
  (* Create a copy to avoid modifying the original *)
  let sortedArr := arr in
  (* Perform merge sort *)
  '(sortedArr, _) ← mergeSort (S (length sortedArr)) sortedArr 0 (len sortedArr - 1)
                      showDivisions 1;
  (* Send final result *)
  stepCallback {|
    StepNumber := -1; (* Final step *)
    Action := "complete";
    Data := object [ ("array", VInts sortedArr); ("sorted", VBool true) ];
    Message := "Merge Sort completed" |};;
  mret (VInts sortedArr, None).

Definition Execute (input : Value) (parameters : gmap string Value) : Run Result :=
  match input with
  | VNil =>
      (* Generate random array *)
      let arraySize := intParam parameters "array_size" 10 in
      arr ← generateRandomArray arraySize;
      run arr parameters
  | VInts inputArr => run inputArr parameters
  | _ => mret (VNil, Some "invalid input type, expected []int")
  end.

Definition ValidateParameters (parameters : gmap string Value) : option string :=
  checkIntRange parameters "array_size" 3 100 "array_size must be between 3 and 100".

Definition New : AlgorithmExecutor :=
  Build_AlgorithmExecutor metadata Execute ValidateParameters.

End MergeSort.

Module QuickSort.

Definition metadata : Algorithm := {|
  ID := "quick_sort";
  AlgName := "Quick Sort";
  Category := CategorySorting;
  Description := "A divide-and-conquer algorithm that picks a pivot element and partitions the array around the pivot.";
  BigO := "Time: O(n log n) average, O(n²) worst case, Space: O(log n)";
  AlgParameters := [
    {| Name := "array_size"; Type_ := "int"; Default := VInt 10;
       Min := intPtr 3; Max := intPtr 100; Required := true |};
    {| Name := "pivot_strategy"; Type_ := "string"; Default := VString "middle";
       Min := None; Max := None; Required := false |} ]
|}.

(** The variables the loop of [partition] assigns. *)
Record Vars : Type := mkVars {
  arr : list Z;
  i : Z;
  stepNumber : Z
}.

(** [partition] partitions the array around a pivot; it returns the
    updated [arr] with the final index of the pivot. *)
Definition partition (arr0 : list Z) (low high : Z) (pivotStrategy : string)
    (stepNumber0 : Z) : Run (list Z * Z) :=
  (* Choose pivot based on strategy *)
  let pivotIndex :=
    if bool_decide (pivotStrategy = "first") then low
    else if bool_decide (pivotStrategy = "last") then high
    else if bool_decide (pivotStrategy = "middle") then low + Z.quot (high - low) 2
    else low + Z.quot (high - low) 2 in
  pivot ← index arr0 pivotIndex;
  stepCallback {|
    StepNumber := stepNumber0;
    Action := "select_pivot";
    Data := object [
      ("array", VInts arr0);
      ("pivot_index", VInt pivotIndex);
      ("pivot_value", VInt pivot);
      ("low", VInt low);
      ("high", VInt high) ];
    Message := "Selected pivot: " +:+ itoa pivot +:+ " at index " +:+ itoa pivotIndex |};;
  let stepNumber1 := incr stepNumber0 in
  (* Move pivot to end *)
  arr1 ← swap arr0 pivotIndex high;
  v ← for_range low high
        (λ j v,
           aj ← index (arr v) j;
           stepCallback {|
             StepNumber := stepNumber v;
             Action := "compare_pivot";
             Data := object [
               ("array", VInts (arr v));
               ("pivot_value", VInt pivot);
               ("current", VInt aj);
               ("j", VInt j);
               ("i", VInt (i v)) ];
             Message := "Comparing " +:+ itoa aj +:+ " with pivot " +:+ itoa pivot |};;
           let stepNumber := incr (stepNumber v) in
           if aj <=? pivot then
             let i := i v + 1 in
             arr ← swap (arr v) i j;
             bj ← index arr j;
             bi ← index arr i;
             stepCallback {|
               StepNumber := stepNumber;
               Action := "swap_partition";
               Data := object [
                 ("array", VInts arr);
                 ("swapped", VInts [i; j]);
                 ("pivot_value", VInt pivot);
                 ("i", VInt i);
                 ("j", VInt j) ];
               Message := "Swapped " +:+ itoa bj +:+ " and " +:+ itoa bi |};;
             mret (Continue (mkVars arr i (incr stepNumber)))
           else mret (Continue (mkVars (arr v) (i v) stepNumber)))
        (mkVars arr1 (low - 1) stepNumber1);
  (* Move pivot to its correct position *)
  arr ← swap (arr v) (i v + 1) high;
  stepCallback {|
    StepNumber := stepNumber v;
    Action := "pivot_positioned";
    Data := object [
      ("array", VInts arr);
      ("pivot_index", VInt (i v + 1));
      ("pivot_value", VInt pivot);
      ("partitioned", VBool true) ];
    Message := "Pivot " +:+ itoa pivot +:+ " positioned at index " +:+ itoa (i v + 1) |};;
  mret (arr, i v + 1).

(** [quickSort] performs the recursive quick sort; it returns the updated
    [arr] with the step number. [fuel] bounds the depth of the recursion. *)
Fixpoint quickSort (fuel : nat) (arr : list Z) (low high : Z) (pivotStrategy : string)
    (stepNumber : Z) : Run (list Z * Z) :=
  match fuel with
  | O => ([], OutOfFuel)
  | S fuel' =>
      if low <? high then
        (* Partition the array and get pivot index *)
        '(arr, pivotIndex) ← partition arr low high pivotStrategy stepNumber;
        let stepNumber := incr stepNumber in
        (* Recursively sort elements before and after partition *)
        '(arr, stepNumber) ← quickSort fuel' arr low (pivotIndex - 1) pivotStrategy stepNumber;
        '(arr, stepNumber) ← quickSort fuel' arr (pivotIndex + 1) high pivotStrategy stepNumber;
        mret (arr, stepNumber)
      else mret (arr, stepNumber)
  end.

(** [Execute] from the point where [arr] has been chosen. *)
Definition run (arr : list Z) (parameters : gmap string Value) : Run Result :=
  let pivotStrategy := stringParam parameters "pivot_strategy" "middle" in
  (* Send initial state *)
  stepCallback {|
    StepNumber := 0;
    Action := "initialize";
    Data := object [ ("array", VInts arr); ("pivot_strategy", VString pivotStrategy) ];
    Message := "Starting Quick Sort" |};;
  (* Create a copy to avoid modifying the original *)
  let sortedArr := arr in
  (* Perform quick sort *)
  '(sortedArr, _) ← quickSort (S (length sortedArr)) sortedArr 0 (len sortedArr - 1)
                      pivotStrategy 1;
  (* Send final result *)
  stepCallback {|
    StepNumber := -1; (* Final step *)
    Action := "complete";
    Data := object [ ("array", VInts sortedArr); ("sorted", VBool true) ];
    Message := "Quick Sort completed" |};;
  mret (VInts sortedArr, None).

Definition Execute (input : Value) (parameters : gmap string Value) : Run Result :=
  match input with
  | VNil =>
      (* Generate random array *)
      let arraySize := intParam parameters "array_size" 10 in
      arr ← generateRandomArray arraySize;
      run arr parameters
  | VInts inputArr => run inputArr parameters
  | _ => mret (VNil, Some "invalid input type, expected []int")
  end.

Definition ValidateParameters (parameters : gmap string Value) : option string :=
  match checkIntRange parameters "array_size" 3 100 "array_size must be between 3 and 100" with
  | Some err => Some err
  | None =>
      match parameters !! "pivot_strategy" with
      | Some (VString strategy) =>
          let validStrategies := ["first"; "last"; "middle"] in
          let valid := existsb (λ s, bool_decide (s = strategy)) validStrategies in
          if negb valid then Some "pivot_strategy must be one of: first, last, middle"
          else None
      | _ => None
      end
  end.

Definition New : AlgorithmExecutor :=
  Build_AlgorithmExecutor metadata Execute ValidateParameters.

End QuickSort.

Module CountingSort.

Definition metadata : Algorithm := {|
  ID := "counting_sort";
  AlgName := "Counting Sort";
  Category := CategorySorting;
  Description := "A non-comparison-based sorting algorithm that counts the number of objects having distinct key values.";
  BigO := "Time: O(n + k), Space: O(k) where k is the range of input";
  AlgParameters := [
    {| Name := "array_size"; Type_ := "int"; Default := VInt 10;
       Min := intPtr 3; Max := intPtr 50; Required := true |};
    {| Name := "max_value"; Type_ := "int"; Default := VInt 20;
       Min := intPtr 5; Max := intPtr 100; Required := true |} ]
|}.

(** Helper function to generate random array with max value *)
Definition generateRandomArrayWithMax (size maxValue : Z) : Run (list Z) :=
  arr ← make 0 size;
  arr ← for_range 0 size
         (λ i arr, r ← modulo i maxValue;
                   arr' ← store arr i (r + 1);
                   mret (Continue arr')) arr;
  (* Shuffle the array *)
  for_down (len arr - 1) 0
    (λ i arr, j ← modulo i (i + 1); (* Simple shuffle for demo *)
              swap arr i j) arr.

(** The array [Execute] works on. *)
Definition chooseArray (input : Value) (parameters : gmap string Value) : Run (list Z + string) :=
  match input with
  | VNil =>
      (* Generate random array *)
      let arraySize := intParam parameters "array_size" 10 in
      let maxValue := intParam parameters "max_value" 20 in
      arr ← generateRandomArrayWithMax arraySize maxValue;
      mret (inl arr)
  | VInts inputArr => mret (inl inputArr)
  | _ => mret (inr "invalid input type, expected []int")
  end.

(** [Execute] from the point where [arr] has been chosen. *)
Definition run (arr : list Z) : Run Result :=
  (* Send initial state *)
  stepCallback {|
    StepNumber := 0;
    Action := "initialize";
    Data := object [ ("array", VInts arr) ];
    Message := "Starting Counting Sort" |};;
  (* Find the maximum element *)
  a0 ← index arr 0;
  let max := foldl (λ max v, if max <? v then v else max) a0 arr in
  stepCallback {|
    StepNumber := 1;
    Action := "find_max";
    Data := object [ ("array", VInts arr); ("max_value", VInt max) ];
    Message := "Found maximum value: " +:+ itoa max |};;
  (* Create count array *)
  count ← make 0 (wrap (max + 1));
  output ← make 0 (len arr);
  (* Count occurrences *)
  stepCallback {|
    StepNumber := 2;
    Action := "count_occurrences";
    Data := object [
      ("array", VInts arr);
      ("count_array", VInts count);
      ("phase", VString "counting") ];
    Message := "Counting occurrences of each element" |};;
  count ← for_range 0 (len arr)
    (λ i count,
       ai ← index arr i;
       c ← index count ai;
       count ← store count ai (c + 1);
       c ← index count ai;
       stepCallback {|
         StepNumber := wrap (3 + i);
         Action := "count_element";
         Data := object [
           ("array", VInts arr);
           ("count_array", VInts count);
           ("element", VInt ai);
           ("index", VInt i) ];
         Message := "Counted element " +:+ itoa ai +:+ ", count now: " +:+ itoa c |};;
       mret (Continue count)) count;
  (* Modify count array to store actual position *)
  stepCallback {|
    StepNumber := wrap (3 + len arr);
    Action := "modify_count";
    Data := object [
      ("array", VInts arr);
      ("count_array", VInts count);
      ("phase", VString "modifying") ];
    Message := "Modifying count array to store positions" |};;
  count ← for_range 1 (max + 1)
    (λ i count,
       ci ← index count i;
       cp ← index count (i - 1);
       count ← store count i (ci + cp);
       ci ← index count i;
       stepCallback {|
         StepNumber := wrap (4 + len arr + i);
         Action := "modify_count_element";
         Data := object [
           ("array", VInts arr);
           ("count_array", VInts count);
           ("value", VInt i);
           ("new_count", VInt ci) ];
         Message := "Updated count for value " +:+ itoa i +:+ " to position " +:+ itoa ci |};;
       mret (Continue count)) count;
  (* Build output array *)
  stepCallback {|
    StepNumber := wrap (4 + len arr + max + 1);
    Action := "build_output";
    Data := object [
      ("array", VInts arr);
      ("count_array", VInts count);
      ("output", VInts output);
      ("phase", VString "building") ];
    Message := "Building output array" |};;
  '(count, output) ← for_down (len arr - 1) (-1)
    (λ i '(count, output),
       ai ← index arr i;
       c ← index count ai;
       output ← store output (c - 1) ai;
       count ← store count ai (c - 1);
       c ← index count ai;
       stepCallback {|
         StepNumber := wrap (5 + len arr + max + (len arr - i));
         Action := "place_element";
         Data := object [
           ("array", VInts arr);
           ("count_array", VInts count);
           ("output", VInts output);
           ("element", VInt ai);
           ("position", VInt c) ];
         Message := "Placed element " +:+ itoa ai +:+ " at position " +:+ itoa c |};;
       mret (count, output)) (count, output);
  (* Send final result *)
  stepCallback {|
    StepNumber := -1; (* Final step *)
    Action := "complete";
    Data := object [ ("array", VInts output); ("sorted", VBool true) ];
    Message := "Counting Sort completed" |};;
  mret (VInts output, None).

Definition Execute (input : Value) (parameters : gmap string Value) : Run Result :=
  chosen ← chooseArray input parameters;
  match chosen with
  | inl arr => run arr
  | inr err => mret (VNil, Some err)
  end.

Definition ValidateParameters (parameters : gmap string Value) : option string :=
  match checkIntRange parameters "array_size" 3 50 "array_size must be between 3 and 50" with
  | Some err => Some err
  | None => checkIntRange parameters "max_value" 5 100 "max_value must be between 5 and 100"
  end.

Definition New : AlgorithmExecutor :=
  Build_AlgorithmExecutor metadata Execute ValidateParameters.

End CountingSort.

End sorting.

(** ** Package searching *)

Module searching.

Definition generateRandomArray (size : Z) : Run (list Z) :=
  arr ← make 0 size;
  arr ← for_range 0 size
         (λ i arr, arr' ← store arr i (i + 1); mret (Continue arr')) arr;
  (* Shuffle the array *)
  for_down (len arr - 1) 0
    (λ i arr, j ← modulo i (i + 1); (* Simple shuffle for demo *)
              swap arr i j) arr.

Definition intPtr (i : Z) : option Z := Some i.

(** [sort.Ints] of the Go standard library sorts a slice of ints in
    increasing order. Its result is the one sorted arrangement of the
    elements, whichever sorting procedure computes it. *)
Definition sort_Ints (arr : list Z) : list Z := merge_sort Z.le arr.

Module LinearSearch.

Definition metadata : Algorithm := {|
  ID := "linear_search";
  AlgName := "Linear Search";
  Category := CategorySearching;
  Description := "A simple search algorithm that checks each element in the array sequentially until the target is found.";
  BigO := "Time: O(n), Space: O(1)";
  AlgParameters := [
    {| Name := "array_size"; Type_ := "int"; Default := VInt 10;
       Min := intPtr 3; Max := intPtr 100; Required := true |};
    {| Name := "target"; Type_ := "int"; Default := VInt 5;
       Min := None; Max := None; Required := true |} ]
|}.

(** One iteration of the search loop; the loop state is the result that
    a [return] inside the loop has produced, if any. *)
Definition check (arr : list Z) (target : Z) (i : Z) (_ : option Result) : Run (Ctl (option Result)) :=
  ai ← index arr i;
  checked ← slice arr 0 (i + 1);
  remaining ← slice arr (i + 1) (len arr);
  stepCallback {|
    StepNumber := wrap (i + 1);
    Action := "check_element";
    Data := object [
      ("array", VInts arr);
      ("target", VInt target);
      ("current", VInt ai);
      ("index", VInt i);
      ("checked", VInts checked);
      ("remaining", VInts remaining) ];
    Message := "Checking element " +:+ itoa ai +:+ " at index " +:+ itoa i |};;
  if ai =? target then
    stepCallback {|
      StepNumber := wrap (i + 2);
      Action := "found";
      Data := object [
        ("array", VInts arr);
        ("target", VInt target);
        ("found_at", VInt i);
        ("value", VInt ai);
        ("comparisons", VInt (wrap (i + 1))) ];
      Message := "Target " +:+ itoa target +:+ " found at index " +:+ itoa i
                 +:+ " after " +:+ itoa (wrap (i + 1)) +:+ " comparisons" |};;
    mret (Break (Some (VMap (object [
      ("found", VBool true);
      ("index", VInt i);
      ("value", VInt ai);
      ("comparisons", VInt (wrap (i + 1))) ]), None)))
  else mret (Continue None).

(** [Execute] from the point where [arr] has been chosen. *)
Definition run (arr : list Z) (parameters : gmap string Value) : Run Result :=
  let target := intParam parameters "target" 5 in
  (* Send initial state *)
  stepCallback {|
    StepNumber := 0;
    Action := "initialize";
    Data := object [ ("array", VInts arr); ("target", VInt target) ];
    Message := "Starting Linear Search for target: " +:+ itoa target |};;
  (* Perform linear search *)
  r ← for_range 0 (len arr) (check arr target) None;
  match r with
  | Some result => mret result
  | None =>
      (* Target not found *)
      stepCallback {|
        StepNumber := wrap (len arr + 1);
        Action := "not_found";
        Data := object [
          ("array", VInts arr);
          ("target", VInt target);
          ("comparisons", VInt (len arr)) ];
        Message := "Target " +:+ itoa target +:+ " not found after checking all "
                   +:+ itoa (len arr) +:+ " elements" |};;
      mret (VMap (object [
        ("found", VBool false);
        ("index", VInt (-1));
        ("value", VNil);
        ("comparisons", VInt (len arr)) ]), None)
  end.

Definition Execute (input : Value) (parameters : gmap string Value) : Run Result :=
  match input with
  | VNil =>
      (* Generate random array *)
      let arraySize := intParam parameters "array_size" 10 in
      arr ← generateRandomArray arraySize;
      run arr parameters
  | VInts inputArr => run inputArr parameters
  | _ => mret (VNil, Some "invalid input type, expected []int")
  end.

Definition ValidateParameters (parameters : gmap string Value) : option string :=
  checkIntRange parameters "array_size" 3 100 "array_size must be between 3 and 100".

Definition New : AlgorithmExecutor :=
  Build_AlgorithmExecutor metadata Execute ValidateParameters.

End LinearSearch.

Module BinarySearch.

Definition metadata : Algorithm := {|
  ID := "binary_search";
  AlgName := "Binary Search";
  Category := CategorySearching;
  Description := "A search algorithm that finds the position of a target value within a sorted array by repeatedly dividing the search interval in half.";
  BigO := "Time: O(log n), Space: O(1)";
  AlgParameters := [
    {| Name := "array_size"; Type_ := "int"; Default := VInt 10;
       Min := intPtr 3; Max := intPtr 100; Required := true |};
    {| Name := "target"; Type_ := "int"; Default := VInt 5;
       Min := None; Max := None; Required := true |} ]
|}.

(** The variables the search loop assigns, with the result that a
    [return] inside the loop has produced, if any. *)
Record Vars : Type := mkVars {
  left : Z;
  right : Z;
  comparisons : Z;
  returned : option Result
}.

Definition probe (arr : list Z) (target : Z) (v : Vars) : Run (Ctl Vars) :=
  let mid := left v + Z.quot (right v - left v) 2 in
  let comparisons := incr (comparisons v) in
  amid ← index arr mid;
  stepCallback {|
    StepNumber := comparisons;
    Action := "check_middle";
    Data := object [
      ("array", VInts arr);
      ("target", VInt target);
      ("left", VInt (left v));
      ("right", VInt (right v));
      ("mid", VInt mid);
      ("mid_value", VInt amid);
      ("comparisons", VInt comparisons) ];
    Message := "Checking middle element " +:+ itoa amid +:+ " at index " +:+ itoa mid |};;
  if amid =? target then
    stepCallback {|
      StepNumber := wrap (comparisons + 1);
      Action := "found";
      Data := object [
        ("array", VInts arr);
        ("target", VInt target);
        ("found_at", VInt mid);
        ("value", VInt amid);
        ("comparisons", VInt comparisons) ];
      Message := "Target " +:+ itoa target +:+ " found at index " +:+ itoa mid
                 +:+ " after " +:+ itoa comparisons +:+ " comparisons" |};;
    mret (Break (mkVars (left v) (right v) comparisons (Some (VMap (object [
      ("found", VBool true);
      ("index", VInt mid);
      ("value", VInt amid);
      ("comparisons", VInt comparisons) ]), None))))
  else if amid <? target then
    let left := mid + 1 in
    stepCallback {|
      StepNumber := wrap (comparisons + 1);
      Action := "search_right";
      Data := object [
        ("array", VInts arr);
        ("target", VInt target);
        ("left", VInt left);
        ("right", VInt (right v));
        ("mid", VInt mid);
        ("comparisons", VInt comparisons) ];
      Message := "Target is greater than " +:+ itoa amid +:+ ", searching right half" |};;
    mret (Continue (mkVars left (right v) comparisons None))
  else
    let right := mid - 1 in
    stepCallback {|
      StepNumber := wrap (comparisons + 1);
      Action := "search_left";
      Data := object [
        ("array", VInts arr);
        ("target", VInt target);
        ("left", VInt (left v));
        ("right", VInt right);
        ("mid", VInt mid);
        ("comparisons", VInt comparisons) ];
      Message := "Target is less than " +:+ itoa amid +:+ ", searching left half" |};;
    mret (Continue (mkVars (left v) right comparisons None)).

(** [Execute] from the point where [arr] has been chosen. The search
    interval shrinks at every iteration, so the loop runs at most
    [len(arr)] times; the fuel allows one more test of its condition. *)
Definition run (arr : list Z) (parameters : gmap string Value) : Run Result :=
  let target := intParam parameters "target" 5 in
  (* Sort the array first *)
  let arr := sort_Ints arr in
  (* Send initial state *)
  stepCallback {|
    StepNumber := 0;
    Action := "initialize";
    Data := object [ ("array", VInts arr); ("target", VInt target) ];
    Message := "Starting Binary Search for target: " +:+ itoa target +:+ " in sorted array" |};;
  v ← while (S (length arr)) (λ v, left v <=? right v) (probe arr target)
        (mkVars 0 (len arr - 1) 0 None);
  match returned v with
  | Some result => mret result
  | None =>
      (* Target not found *)
      stepCallback {|
        StepNumber := wrap (comparisons v + 1);
        Action := "not_found";
        Data := object [
          ("array", VInts arr);
          ("target", VInt target);
          ("comparisons", VInt (comparisons v)) ];
        Message := "Target " +:+ itoa target +:+ " not found after "
                   +:+ itoa (comparisons v) +:+ " comparisons" |};;
      mret (VMap (object [
        ("found", VBool false);
        ("index", VInt (-1));
        ("value", VNil);
        ("comparisons", VInt (comparisons v)) ]), None)
  end.

Definition Execute (input : Value) (parameters : gmap string Value) : Run Result :=
  match input with
  | VNil =>
      (* Generate random array *)
      let arraySize := intParam parameters "array_size" 10 in
      arr ← generateRandomArray arraySize;
      run arr parameters
  | VInts inputArr => run inputArr parameters
  | _ => mret (VNil, Some "invalid input type, expected []int")
  end.

Definition ValidateParameters (parameters : gmap string Value) : option string :=
  checkIntRange parameters "array_size" 3 100 "array_size must be between 3 and 100".

Definition New : AlgorithmExecutor :=
  Build_AlgorithmExecutor metadata Execute ValidateParameters.

End BinarySearch.

(** Helper function to generate a simple graph *)
Definition generateGraph (size : Z) : Run (list (list Z)) :=
  graph ← make [] size;
  (* Create a simple connected graph *)
  for_range 0 size
    (λ i graph,
       let neighbors := [] in
       let neighbors := if 0 <? i then neighbors ++ [i - 1] else neighbors in
       let neighbors := if i <? size - 1 then neighbors ++ [i + 1] else neighbors in
       (* Add some random connections *)
       let neighbors := if i + 2 <? size then neighbors ++ [i + 2] else neighbors in
       graph ← store graph i neighbors;
       mret (Continue graph)) graph.

Definition graphParameters : list ParameterSpec := [
  {| Name := "graph_size"; Type_ := "int"; Default := VInt 6;
     Min := intPtr 3; Max := intPtr 20; Required := true |};
  {| Name := "start_node"; Type_ := "int"; Default := VInt 0;
     Min := intPtr 0; Max := intPtr 19; Required := true |};
  {| Name := "target_node"; Type_ := "int"; Default := VInt 5;
     Min := intPtr 0; Max := intPtr 19; Required := true |} ].

(** The variables the traversal loops of [DFS] and [BFS] assign; [pending]
    is the stack of the one and the queue of the other. *)
Record Traversal : Type := mkTraversal {
  visited : list bool;
  pending : list Z;
  path : list Z;
  stepNumber : Z;
  returned : option Result
}.

(** The traversal loop pushes at most three nodes for each node it marks
    and pops one node at every iteration: this many iterations suffice. *)
Definition traversalFuel (graphSize : Z) : nat := (3 * Z.to_nat graphSize + 2)%nat.

Module DFS.

Definition metadata : Algorithm := {|
  ID := "dfs";
  AlgName := "Depth-First Search";
  Category := CategorySearching;
  Description := "A graph traversal algorithm that explores as far as possible along each branch before backtracking.";
  BigO := "Time: O(V + E), Space: O(V) where V is vertices and E is edges";
  AlgParameters := graphParameters
|}.

Definition visit (graph : list (list Z)) (targetNode : Z) (v : Traversal) : Run (Ctl Traversal) :=
  current ← index (pending v) (len (pending v) - 1);
  stack ← slice (pending v) 0 (len (pending v) - 1);
  seen ← index (visited v) current;
  if (seen : bool) then mret (Continue (mkTraversal (visited v) stack (path v) (stepNumber v) None))
  else
    visited ← store (visited v) current true;
    let path := path v ++ [current] in
    stepCallback {|
      StepNumber := stepNumber v;
      Action := "visit_node";
      Data := object [
        ("graph", VIntss graph);
        ("current", VInt current);
        ("visited", VBools visited);
        ("stack", VInts stack);
        ("path", VInts path);
        ("target_node", VInt targetNode) ];
      Message := "Visiting node " +:+ itoa current |};;
    let stepNumber := incr (stepNumber v) in
    if current =? targetNode then
      stepCallback {|
        StepNumber := stepNumber;
        Action := "found";
        Data := object [
          ("graph", VIntss graph);
          ("found_at", VInt current);
          ("path", VInts path);
          ("visited", VBools visited) ];
        Message := "Target node " +:+ itoa targetNode +:+ " found! Path: " +:+ fmtInts path |};;
      mret (Break (mkTraversal visited stack path stepNumber (Some (VMap (object [
        ("found", VBool true);
        ("target", VInt targetNode);
        ("path", VInts path);
        ("visited", VBools visited) ]), None))))
    else
      (* Add unvisited neighbors to stack *)
      neighbors ← index graph current;
      stack ← for_each neighbors
        (λ neighbor stack,
           seen ← index visited neighbor;
           mret (if negb (seen : bool) then stack ++ [neighbor] else stack)) stack;
      stepCallback {|
        StepNumber := stepNumber;
        Action := "add_neighbors";
        Data := object [
          ("graph", VIntss graph);
          ("current", VInt current);
          ("neighbors", VInts neighbors);
          ("stack", VInts stack);
          ("visited", VBools visited) ];
        Message := "Adding unvisited neighbors of " +:+ itoa current +:+ " to stack: "
                   +:+ fmtInts neighbors |};;
      mret (Continue (mkTraversal visited stack path (incr stepNumber) None)).

Definition Execute (input : Value) (parameters : gmap string Value) : Run Result :=
  let graphSize := intParam parameters "graph_size" 6 in
  let startNode := intParam parameters "start_node" 0 in
  let targetNode := intParam parameters "target_node" 5 in
  (* Generate a simple graph *)
  graph ← generateGraph graphSize;
  (* Send initial state *)
  stepCallback {|
    StepNumber := 0;
    Action := "initialize";
    Data := object [
      ("graph", VIntss graph);
      ("start_node", VInt startNode);
      ("target_node", VInt targetNode) ];
    Message := "Starting DFS from node " +:+ itoa startNode +:+ " to find node "
               +:+ itoa targetNode |};;
  visited ← make false graphSize;
  v ← while (traversalFuel graphSize) (λ v, 0 <? len (pending v)) (visit graph targetNode)
        (mkTraversal visited [startNode] [] 1 None);
  match returned v with
  | Some result => mret result
  | None =>
      (* Target not found *)
      stepCallback {|
        StepNumber := stepNumber v;
        Action := "not_found";
        Data := object [
          ("graph", VIntss graph);
          ("visited", VBools (searching.visited v));
          ("path", VInts (path v)) ];
        Message := "Target node " +:+ itoa targetNode +:+ " not found" |};;
      mret (VMap (object [
        ("found", VBool false);
        ("target", VInt targetNode);
        ("path", VInts (path v));
        ("visited", VBools (searching.visited v)) ]), None)
  end.

Definition ValidateParameters (parameters : gmap string Value) : option string :=
  checkIntRange parameters "graph_size" 3 20 "graph_size must be between 3 and 20".

Definition New : AlgorithmExecutor :=
  Build_AlgorithmExecutor metadata Execute ValidateParameters.

End DFS.

Module BFS.

Definition metadata : Algorithm := {|
  ID := "bfs";
  AlgName := "Breadth-First Search";
  Category := CategorySearching;
  Description := "A graph traversal algorithm that explores all nodes at the present depth level before moving on to nodes at the next depth level.";
  BigO := "Time: O(V + E), Space: O(V) where V is vertices and E is edges";
  AlgParameters := graphParameters
|}.

Definition visit (graph : list (list Z)) (targetNode : Z) (v : Traversal) : Run (Ctl Traversal) :=
  current ← index (pending v) 0;
  queue ← slice (pending v) 1 (len (pending v));
  seen ← index (visited v) current;
  if (seen : bool) then mret (Continue (mkTraversal (visited v) queue (path v) (stepNumber v) None))
  else
    visited ← store (visited v) current true;
    let path := path v ++ [current] in
    stepCallback {|
      StepNumber := stepNumber v;
      Action := "visit_node";
      Data := object [
        ("graph", VIntss graph);
        ("current", VInt current);
        ("visited", VBools visited);
        ("queue", VInts queue);
        ("path", VInts path);
        ("target_node", VInt targetNode) ];
      Message := "Visiting node " +:+ itoa current |};;
    let stepNumber := incr (stepNumber v) in
    if current =? targetNode then
      stepCallback {|
        StepNumber := stepNumber;
        Action := "found";
        Data := object [
          ("graph", VIntss graph);
          ("found_at", VInt current);
          ("path", VInts path);
          ("visited", VBools visited) ];
        Message := "Target node " +:+ itoa targetNode +:+ " found! Path: " +:+ fmtInts path |};;
      mret (Break (mkTraversal visited queue path stepNumber (Some (VMap (object [
        ("found", VBool true);
        ("target", VInt targetNode);
        ("path", VInts path);
        ("visited", VBools visited) ]), None))))
    else
      (* Add unvisited neighbors to queue *)
      neighbors ← index graph current;
      queue ← for_each neighbors
        (λ neighbor queue,
           seen ← index visited neighbor;
           mret (if negb (seen : bool) then queue ++ [neighbor] else queue)) queue;
      stepCallback {|
        StepNumber := stepNumber;
        Action := "add_neighbors";
        Data := object [
          ("graph", VIntss graph);
          ("current", VInt current);
          ("neighbors", VInts neighbors);
          ("queue", VInts queue);
          ("visited", VBools visited) ];
        Message := "Adding unvisited neighbors of " +:+ itoa current +:+ " to queue: "
                   +:+ fmtInts neighbors |};;
      mret (Continue (mkTraversal visited queue path (incr stepNumber) None)).

Definition Execute (input : Value) (parameters : gmap string Value) : Run Result :=
  let graphSize := intParam parameters "graph_size" 6 in
  let startNode := intParam parameters "start_node" 0 in
  let targetNode := intParam parameters "target_node" 5 in
  (* Generate a simple graph *)
  graph ← generateGraph graphSize;
  (* Send initial state *)
  stepCallback {|
    StepNumber := 0;
    Action := "initialize";
    Data := object [
      ("graph", VIntss graph);
      ("start_node", VInt startNode);
      ("target_node", VInt targetNode) ];
    Message := "Starting BFS from node " +:+ itoa startNode +:+ " to find node "
               +:+ itoa targetNode |};;
  visited ← make false graphSize;
  v ← while (traversalFuel graphSize) (λ v, 0 <? len (pending v)) (visit graph targetNode)
        (mkTraversal visited [startNode] [] 1 None);
  match returned v with
  | Some result => mret result
  | None =>
      (* Target not found *)
      stepCallback {|
        StepNumber := stepNumber v;
        Action := "not_found";
        Data := object [
          ("graph", VIntss graph);
          ("visited", VBools (searching.visited v));
          ("path", VInts (path v)) ];
        Message := "Target node " +:+ itoa targetNode +:+ " not found" |};;
      mret (VMap (object [
        ("found", VBool false);
        ("target", VInt targetNode);
        ("path", VInts (path v));
        ("visited", VBools (searching.visited v)) ]), None)
  end.

Definition ValidateParameters (parameters : gmap string Value) : option string :=
  checkIntRange parameters "graph_size" 3 20 "graph_size must be between 3 and 20".

Definition New : AlgorithmExecutor :=
  Build_AlgorithmExecutor metadata Execute ValidateParameters.

End BFS.

Module HashLookup.

Definition metadata : Algorithm := {|
  ID := "hash_lookup";
  AlgName := "Hash Lookup";
  Category := CategorySearching;
  Description := "A search algorithm that uses a hash table to achieve O(1) average time complexity for lookups.";
  BigO := "Time: O(1) average, O(n) worst case, Space: O(n)";
  AlgParameters := [
    {| Name := "table_size"; Type_ := "int"; Default := VInt 10;
       Min := intPtr 5; Max := intPtr 50; Required := true |};
    {| Name := "key"; Type_ := "string"; Default := VString "key5";
       Min := None; Max := None; Required := true |} ]
|}.

(** [hashFunction] calculates a simple hash for the key *)
Definition hashFunction (key : string) (tableSize : Z) : Run Z :=
  for_each (runes key) (λ char hash, modulo (hash + char) tableSize) 0.

(** [generateHashTable] creates a sample hash table *)
Definition generateHashTable (size : Z) : Run (gmap Z (list HashEntry)) :=
  (* Generate some sample data *)
  let keys := ["key1"; "key2"; "key3"; "key4"; "key5"; "key6"; "key7"; "key8"; "key9"; "key10"] in
  let values := ["value1"; "value2"; "value3"; "value4"; "value5"; "value6"; "value7";
                 "value8"; "value9"; "value10"] in
  for_range 0 (len keys)
    (λ i (hashTable : gmap Z (list HashEntry)),
       key ← index keys i;
       if size <=? i then mret (Break hashTable)
       else
         hash ← for_each (runes key) (λ char hash, modulo (hash + char) size) 0;
         value ← index values i;
         let entry := {| Key := key; Value_ := value |} in
         mret (Continue (<[hash := default [] (hashTable !! hash) ++ [entry]]> hashTable)))
    ∅.

(** One iteration of the search within the bucket; the loop state is the
    result that a [return] inside the loop has produced, if any. *)
Definition checkEntry (hashTable : gmap Z (list HashEntry)) (key : string) (hash : Z)
    (bucket : list HashEntry) (i : Z) (_ : option Result) : Run (Ctl (option Result)) :=
  entry ← index bucket i;
  stepCallback {|
    StepNumber := wrap (3 + i);
    Action := "check_entry";
    Data := object [
      ("hash_table", VTable hashTable);
      ("key", VString key);
      ("hash", VInt hash);
      ("bucket", VEntries bucket);
      ("entry", VEntry entry);
      ("index", VInt i) ];
    Message := "Checking entry " +:+ itoa i +:+ " in bucket: " +:+ Key entry |};;
  if bool_decide (Key entry = key) then
    stepCallback {|
      StepNumber := wrap (3 + i + 1);
      Action := "found";
      Data := object [
        ("hash_table", VTable hashTable);
        ("key", VString key);
        ("hash", VInt hash);
        ("value", VString (Value_ entry));
        ("bucket", VEntries bucket) ];
      Message := "Key '" +:+ key +:+ "' found with value: " +:+ Value_ entry |};;
    mret (Break (Some (VMap (object [
      ("found", VBool true);
      ("key", VString key);
      ("value", VString (Value_ entry));
      ("hash", VInt hash);
      ("collisions", VInt (len bucket - 1)) ]), None)))
  else mret (Continue None).

Definition Execute (input : Value) (parameters : gmap string Value) : Run Result :=
  let tableSize := intParam parameters "table_size" 10 in
  let key := stringParam parameters "key" "key5" in
  (* Generate a hash table *)
  hashTable ← generateHashTable tableSize;
  (* Send initial state *)
  stepCallback {|
    StepNumber := 0;
    Action := "initialize";
    Data := object [
      ("hash_table", VTable hashTable);
      ("key", VString key);
      ("table_size", VInt tableSize) ];
    Message := "Starting Hash Lookup for key: " +:+ key |};;
  (* Calculate hash *)
  hash ← hashFunction key tableSize;
  stepCallback {|
    StepNumber := 1;
    Action := "calculate_hash";
    Data := object [
      ("hash_table", VTable hashTable);
      ("key", VString key);
      ("hash", VInt hash);
      ("table_size", VInt tableSize) ];
    Message := "Calculated hash for key '" +:+ key +:+ "': " +:+ itoa hash |};;
  (* Look up in hash table *)
  r ← match hashTable !! hash with
      | Some bucket =>
          stepCallback {|
            StepNumber := 2;
            Action := "check_bucket";
            Data := object [
              ("hash_table", VTable hashTable);
              ("key", VString key);
              ("hash", VInt hash);
              ("bucket", VEntries bucket) ];
            Message := "Checking bucket at index " +:+ itoa hash |};;
          (* Search within the bucket (handling collisions) *)
          for_range 0 (len bucket) (checkEntry hashTable key hash bucket) None
      | None => mret None
      end;
  match r with
  | Some result => mret result
  | None =>
      (* Key not found *)
      stepCallback {|
        StepNumber := -1;
        Action := "not_found";
        Data := object [
          ("hash_table", VTable hashTable);
          ("key", VString key);
          ("hash", VInt hash) ];
        Message := "Key '" +:+ key +:+ "' not found in hash table" |};;
      mret (VMap (object [
        ("found", VBool false);
        ("key", VString key);
        ("value", VNil);
        ("hash", VInt hash) ]), None)
  end.

Definition ValidateParameters (parameters : gmap string Value) : option string :=
  checkIntRange parameters "table_size" 5 50 "table_size must be between 5 and 50".

Definition New : AlgorithmExecutor :=
  Build_AlgorithmExecutor metadata Execute ValidateParameters.

End HashLookup.

End searching.

(** ** Package algorithms *)

Module algorithms.

(** [Registry] manages all available algorithms. The read-write mutex
    that guards the map is not modelled: every operation below holds it
    from its first to its last step. *)
Record Registry : Type := {
  entries : gmap string AlgorithmExecutor
}.

(** [RegisterAlgorithm] adds an algorithm to the registry *)
Definition RegisterAlgorithm (algorithm : AlgorithmExecutor) (r : Registry) : Registry :=
  let metadata := GetMetadata algorithm in
  {| entries := <[ID metadata := algorithm]> (entries r) |}.

(** [GetAlgorithm] retrieves an algorithm by ID; [None] stands for
    [exists = false]. *)
Definition GetAlgorithm (r : Registry) (id : string) : option AlgorithmExecutor :=
  entries r !! id.

(** [registerAlgorithms] registers all available algorithms *)
Definition registerAlgorithms (r : Registry) : Registry :=
  (* Register sorting algorithms *)
  let r := RegisterAlgorithm sorting.BubbleSort.New r in
  let r := RegisterAlgorithm sorting.MergeSort.New r in
  let r := RegisterAlgorithm sorting.QuickSort.New r in
  let r := RegisterAlgorithm sorting.HeapSort.New r in
  let r := RegisterAlgorithm sorting.CountingSort.New r in
  (* Register searching algorithms *)
  let r := RegisterAlgorithm searching.LinearSearch.New r in
  let r := RegisterAlgorithm searching.BinarySearch.New r in
  let r := RegisterAlgorithm searching.DFS.New r in
  let r := RegisterAlgorithm searching.BFS.New r in
  let r := RegisterAlgorithm searching.HashLookup.New r in
  r.

(** [NewRegistry] creates a new algorithm registry *)
Definition NewRegistry : Registry :=
  registerAlgorithms {| entries := ∅ |}.

(** [metadata.Category == category] *)
Definition sameCategory (c1 c2 : AlgorithmCategory) : bool :=
  match c1, c2 with
  | CategorySorting, CategorySorting
  | CategorySearching, CategorySearching
  | CategoryGraphsTrees, CategoryGraphsTrees
  | CategoryPathfinding, CategoryPathfinding
  | CategoryDynamicProgramming, CategoryDynamicProgramming
  | CategoryGreedy, CategoryGreedy
  | CategoryStrings, CategoryStrings
  | CategoryNumberTheory, CategoryNumberTheory
  | CategoryRandomized, CategoryRandomized
  | CategoryOptimization, CategoryOptimization => true
  | _, _ => false
  end.

(** [GetAllAlgorithms] returns all registered algorithms. Go visits the
    entries of a map in an order it does not specify; the loop is given
    here the order of [map_to_list]. *)
Definition GetAllAlgorithms (r : Registry) : list Algorithm :=
  foldl (λ algorithms (entry : string * AlgorithmExecutor),
           algorithms ++ [GetMetadata entry.2])
        [] (map_to_list (entries r)).

(** [GetAlgorithmsByCategory] returns algorithms filtered by category *)
Definition GetAlgorithmsByCategory (r : Registry) (category : AlgorithmCategory)
    : list Algorithm :=
  foldl (λ algorithms (entry : string * AlgorithmExecutor),
           let metadata := GetMetadata entry.2 in
           if sameCategory (Category metadata) category then algorithms ++ [metadata]
           else algorithms)
        [] (map_to_list (entries r)).

End algorithms.

(** ** Package api *)

Module api.

Import algorithms.

(** Modelled from the spec: the websocket [Hub] of the repository is not
    among the sources. The handlers reach it through [Broadcast] only,
    which hands an envelope over without waiting for its delivery; the
    hub is carried here by the list of the envelopes handed to it, oldest
    first. An envelope is recorded as built, before [json.Marshal]. *)
Definition Hub : Type := list WebSocketMessage.

(** Modelled from the spec: [Hub.Broadcast] accepts an envelope for
    fan-out and returns at once. *)
Definition Broadcast (message : WebSocketMessage) (hub : Hub) : Hub :=
  hub ++ [message].

Record Handlers : Type := {
  algorithmRegistry : Registry
}.

Definition NewHandlers (algorithmRegistry : Registry) : Handlers :=
  {| algorithmRegistry := algorithmRegistry |}.

(** The body of a request once decoded. *)
Record RequestBody : Type := {
  ReqParameters : gmap string Value;
  ReqInput : Value
}.

(** A request to [POST /algorithms/{id}/execute]: the path variable [id]
    and the body, [None] when [json.Decode] fails on it. *)
Record Request : Type := {
  vars_id : string;
  body : option RequestBody
}.

Inductive ResponseBody : Type :=
  | ErrorText (text : string)
  | JSON (m : gmap string Value).

Record Response : Type := {
  StatusCode : Z;
  Payload : ResponseBody
}.

Definition StatusOK : Z := 200.
Definition StatusBadRequest : Z := 400.
Definition StatusNotFound : Z := 404.

(** [http.Error(w, text, code)] *)
Definition http_Error (text : string) (code : Z) : Response :=
  {| StatusCode := code; Payload := ErrorText text |}.

(** A unit of work started by [go h.executeAlgorithmAsync(algorithm,
    execution)]. *)
Record Goroutine : Type := {
  algorithm : AlgorithmExecutor;
  execution : AlgorithmExecution
}.

(** [ExecuteAlgorithm] executes an algorithm with given parameters. [now]
    is the reading [time.Now().UnixNano()] of the clock. The handler
    answers with a response and starts at most one unit of work; it does
    not touch the hub itself. *)
Definition ExecuteAlgorithm (h : Handlers) (now : Z) (r : Request)
    : Response * option Goroutine :=
  let algorithmID := vars_id r in
  match GetAlgorithm (algorithmRegistry h) algorithmID with
  | None => (http_Error "Algorithm not found" StatusNotFound, None)
  | Some algorithm =>
      match body r with
      | None => (http_Error "Invalid request body" StatusBadRequest, None)
      | Some request =>
          (* Validate parameters *)
          match ValidateParameters algorithm (ReqParameters request) with
          | Some err =>
              (http_Error ("Invalid parameters: " +:+ err) StatusBadRequest, None)
          | None =>
              (* Create execution ID *)
              let executionID := "exec_" +:+ itoa now in
              (* Create execution context *)
              let execution := {|
                ExecID := executionID;
                AlgorithmID := algorithmID;
                ExecParameters := ReqParameters request;
                Input := ReqInput request;
                Output := VNil;
                Steps := [];
                Status := StatusRunning |} in
              (* Execute algorithm in a goroutine *)
              ({| StatusCode := StatusOK;
                  Payload := JSON (object [
                    ("execution_id", VString executionID);
                    ("status", VString "started");
                    ("message", VString "Algorithm execution started") ]) |},
               Some {| algorithm := algorithm; execution := execution |})
          end
      end
  end.

(** The state of a unit of work: the execution it owns, the hub, the
    values assigned to [execution.Status] since the unit started, in
    order, and whether a panic of [Execute] has ended it. *)
Record Task : Type := mkTask {
  owned : AlgorithmExecution;
  hub : Hub;
  assigned : list ExecutionStatus;
  crashed : bool
}.

Definition appendStep (step : ExecutionStep) (e : AlgorithmExecution) : AlgorithmExecution :=
  {| ExecID := ExecID e; AlgorithmID := AlgorithmID e;
     ExecParameters := ExecParameters e; Input := Input e; Output := Output e;
     Steps := Steps e ++ [step]; Status := Status e |}.

Definition setOutput (output : Value) (e : AlgorithmExecution) : AlgorithmExecution :=
  {| ExecID := ExecID e; AlgorithmID := AlgorithmID e;
     ExecParameters := ExecParameters e; Input := Input e; Output := output;
     Steps := Steps e; Status := Status e |}.

Definition setStatus (status : ExecutionStatus) (e : AlgorithmExecution) : AlgorithmExecution :=
  {| ExecID := ExecID e; AlgorithmID := AlgorithmID e;
     ExecParameters := ExecParameters e; Input := Input e; Output := Output e;
     Steps := Steps e; Status := status |}.

(** [execution.Status = status] *)
Definition assignStatus (status : ExecutionStatus) (t : Task) : Task :=
  mkTask (setStatus status (owned t)) (hub t) (assigned t ++ [status]) (crashed t).

(** The closure [stepCallback] of [executeAlgorithmAsync]. *)
Definition stepCallback (step : ExecutionStep) (t : Task) : Task :=
  let owned := appendStep step (owned t) in
  (* Send step update via WebSocket *)
  let message := {| MsgType := MessageTypeExecutionStep; MsgData := DataStep step |} in
  mkTask owned (Broadcast message (hub t)) (assigned t) (crashed t).

(** [executeAlgorithmAsync] executes the algorithm and sends updates via
    WebSocket. [hub0] is the hub when the unit of work starts. When
    [Execute] does not return, nothing after the call runs. *)
Definition executeAlgorithmAsync (hub0 : Hub) (algorithm : AlgorithmExecutor)
    (execution : AlgorithmExecution) : Task :=
  (* Execute the algorithm *)
  let '(emitted, result) := Execute algorithm (Input execution) (ExecParameters execution) in
  let t := foldl (λ t step, stepCallback step t) (mkTask execution hub0 [] false) emitted in
  match result with
  | Returned (output, err) =>
      let t := assignStatus StatusCompleted t in
      let t := mkTask (setOutput output (owned t)) (hub t) (assigned t) (crashed t) in
      (* Send completion message *)
      match err with
      | Some err =>
          let t := assignStatus StatusError t in
          let message := {|
            MsgType := MessageTypeExecutionError;
            MsgData := DataMap (object [
              ("execution_id", VString (ExecID (owned t)));
              ("error", VString err) ]) |} in
          mkTask (owned t) (Broadcast message (hub t)) (assigned t) (crashed t)
      | None =>
          let message := {|
            MsgType := MessageTypeExecutionComplete;
            MsgData := DataMap (object [
              ("execution_id", VString (ExecID (owned t)));
              ("output", output);
              ("steps_count", VInt (len (Steps (owned t)))) ]) |} in
          mkTask (owned t) (Broadcast message (hub t)) (assigned t) (crashed t)
      end
  | _ => mkTask (owned t) (hub t) (assigned t) true
  end.

(** One request served to its end: the response of the handler and the
    unit of work it started, run to completion on a hub that has received
    nothing yet. *)
Definition serve (h : Handlers) (now : Z) (r : Request) : Response * option Task :=
  let '(response, started) := ExecuteAlgorithm h now r in
  (response, (λ g, executeAlgorithmAsync [] (algorithm g) (execution g)) <$> started).

(** The envelopes the hub has received once the request is served. *)
Definition received (h : Handlers) (now : Z) (r : Request) : Hub :=
  match (serve h now r).2 with
  | Some t => hub t
  | None => []
  end.

End api.

(** ** Package config *)

(** [os.Getenv]: the value of the variable, empty when the environment
    does not set it. *)
Definition os_Getenv (environ : gmap string string) (key : string) : string :=
  default EmptyString (environ !! key).

Module config.

Record Config : Type := {
  Port : string;
  Environment : string;
  Debug : bool
}.

Definition getEnv (environ : gmap string string) (key defaultValue : string) : string :=
  let value := os_Getenv environ key in
  if bool_decide (value ≠ EmptyString) then value else defaultValue.

Definition Load (environ : gmap string string) : Config :=
  {| Port := getEnv environ "PORT" "8080";
     Environment := getEnv environ "ENVIRONMENT" "development";
     Debug := bool_decide (getEnv environ "DEBUG" "false" = "true") |}.

End config.

(** ** Package main *)

Module main.

(** The address [main] passes to [http.ListenAndServe]. *)
Definition listenAddress (environ : gmap string string) : string :=
  let port := os_Getenv environ "PORT" in
  let port := if bool_decide (port = EmptyString) then "8080" else port in
  ":" +:+ port.

End main.

(** * Specification vocabulary *)

Import algorithms api.

(** The ascending array [1, 2, ..., n]. *)
Definition ascending (n : nat) : list Z := Z.of_nat <$> seq 1 n.

(** The step numbers of a run, in emission order. *)
Definition stepNumbers {A} (m : Run A) : list Z := StepNumber <$> steps m.

(** The array a run starts from: the ["array"] entry of its first step. *)
Definition startArray {A} (m : Run A) : option Value :=
  s ← head (steps m); Data s !! "array".

(** [counted t c]: the steps of [t] are numbered 0, 1, 2, ... in the
    order of emission (in 64-bit arithmetic), and [c] is the number the
    next step takes. *)
Definition counted (t : list ExecutionStep) (c : Z) : Prop :=
  c = wrap (len t) ∧
  StepNumber <$> t = (λ k, wrap (Z.of_nat k)) <$> seq 0 (length t).

(** [rising t c]: the step numbers of [t] never decrease along [t] and
    none exceeds [c]. *)
Definition rising (t : list ExecutionStep) (c : Z) : Prop :=
  StronglySorted Z.le (StepNumber <$> t) ∧ Forall (λ x, x ≤ c) (StepNumber <$> t).

(** ** Invariants of bubble sort *)

(** The invariant of the outer loop: the last [i] elements are in their
    final place. *)
Definition placed (arr0 : list Z) (i : Z) (v : sorting.BubbleSort.Vars)
    (t : list ExecutionStep) : Prop :=
  ∃ pre suf,
    sorting.BubbleSort.arr v = pre ++ suf ∧ len suf = i ∧ pre ++ suf ≡ₚ arr0 ∧
    StronglySorted Z.le suf ∧
    (∀ x y, x ∈ pre → y ∈ suf → x ≤ y) ∧
    counted t (sorting.BubbleSort.stepNumber v).

(** What holds after the early exit of the outer loop. *)
Definition finished (arr0 : list Z) (v : sorting.BubbleSort.Vars)
    (t : list ExecutionStep) : Prop :=
  StronglySorted Z.le (sorting.BubbleSort.arr v) ∧
  sorting.BubbleSort.arr v ≡ₚ arr0 ∧
  counted t (sorting.BubbleSort.stepNumber v).

(** ** Invariants of binary search *)

Section BinarySearchInvariants.

Import searching.BinarySearch.

Variables (arr : list Z) (target : Z).

(** The size of the interval that remains to be searched. *)
Definition width (v : Vars) : nat := Z.to_nat (right v - left v + 1).

(** What the step numbers of a search satisfy when the counter cannot
    wrap around, which holds of any slice that fits in memory. *)
Definition numbering (v : Vars) (t : list ExecutionStep) : Prop :=
  len arr < 2 ^ 62 →
  0 ≤ comparisons v ∧ comparisons v + Z.of_nat (width v) ≤ len arr ∧
  rising t (comparisons v + 1).

Definition searching_inv (v : Vars) (t : list ExecutionStep) : Prop :=
  0 ≤ left v ∧ right v < len arr ∧ returned v = None ∧ numbering v t.

Definition found_post (v : Vars) (t : list ExecutionStep) : Prop :=
  target ∈ arr ∧ (∃ r, returned v = Some (r, None)) ∧
  (len arr < 2 ^ 62 → rising t (comparisons v + 1)).

End BinarySearchInvariants.

(** ** The registry and the handlers *)

(** The ten executors [registerAlgorithms] registers. *)
Definition registered : list AlgorithmExecutor := [
  sorting.BubbleSort.New; sorting.MergeSort.New; sorting.QuickSort.New;
  sorting.HeapSort.New; sorting.CountingSort.New;
  searching.LinearSearch.New; searching.BinarySearch.New; searching.DFS.New;
  searching.BFS.New; searching.HashLookup.New ].

(** What [ExecuteAlgorithm] answers for a request it accepts. *)
Definition started (executionID : string) : Response := {|
  StatusCode := StatusOK;
  Payload := JSON (object [
    ("execution_id", VString executionID);
    ("status", VString "started");
    ("message", VString "Algorithm execution started") ])
|}.

(** The envelopes of a unit of work. *)
Definition stepEnvelope (step : ExecutionStep) : WebSocketMessage :=
  {| MsgType := MessageTypeExecutionStep; MsgData := DataStep step |}.

Definition completeEnvelope (executionID : string) (output : Value) (count : Z)
    : WebSocketMessage := {|
  MsgType := MessageTypeExecutionComplete;
  MsgData := DataMap (object [
    ("execution_id", VString executionID);
    ("output", output);
    ("steps_count", VInt count) ]) |}.

Definition errorEnvelope (executionID : string) (reason : string) : WebSocketMessage := {|
  MsgType := MessageTypeExecutionError;
  MsgData := DataMap (object [
    ("execution_id", VString executionID);
    ("error", VString reason) ]) |}.

Definition terminal (message : WebSocketMessage) : bool :=
  match MsgType message with
  | MessageTypeExecutionComplete | MessageTypeExecutionError => true
  | _ => false
  end.

Definition terminalStatus (status : ExecutionStatus) : bool :=
  match status with
  | StatusCompleted | StatusError => true
  | _ => false
  end.

(** ** Parameters against their declarations *)

(** Whether a value has the Go type that a parameter declares ("int",
    "bool" or "string"). *)
Definition hasDeclaredType (ty : string) (v : Value) : bool :=
  match v with
  | VInt _ => bool_decide (ty = "int")
  | VBool _ => bool_decide (ty = "bool")
  | VString _ => bool_decide (ty = "string")
  | _ => false
  end.




(** The values [json.Decode] stores in an [interface{}]: [nil], [bool],
    [float64], [string], [[]interface{}] and [map[string]interface{}]. A
    number of a request body is never an [int]. *)
Definition decoded (v : Value) : Prop :=
  match v with
  | VNil | VBool _ | VFloat _ | VString _ | VList _ | VMap _ => True
  | _ => False
  end.

(** ** Sample requests *)

(** Two requests that the clock stamps with the same reading. *)
Definition burst_first : Request :=
  {| vars_id := "bubble_sort";
     body := Some {| ReqParameters := ∅; ReqInput := VNil |} |}.

Definition burst_second : Request :=
  {| vars_id := "binary_search";
     body := Some {| ReqParameters := ∅; ReqInput := VNil |} |}.

(** A request for bubble sort that carries an input which is not a
    [[]int]: validation accepts it and [Execute] returns an error. *)
Definition failing_execution : AlgorithmExecution := {|
  ExecID := "exec_1";
  AlgorithmID := "bubble_sort";
  ExecParameters := ∅;
  Input := VString "3,1,2";
  Output := VNil;
  Steps := [];
  Status := StatusRunning |}.

Definition unknown_request : Request :=
  {| vars_id := "unknown_algorithm";
     body := Some {| ReqParameters := ∅; ReqInput := VNil |} |}.



(** ** How a run ends *)

(** [returns m a]: the run [m] ends by returning [a]. *)
Definition returns {A} (m : Run A) (a : A) : Prop := outcome m = Returned a.

(** [panics m]: a run-time panic ends the run [m]. *)
Definition panics {A} (m : Run A) : Prop := ∃ reason, outcome m = Panicked reason.

(** ** Invariants of heap sort *)

(** The list [l] with the elements at [i] and [j] exchanged. *)
Definition exchanged (l : list Z) (i j : nat) : list Z :=
  <[j := l !!! i]> (<[i := l !!! j]> l).

(** In the heap made of the first [n] elements, node [j] is not smaller
    than its children. *)
Definition dominates (a : list Z) (n j : nat) : Prop :=
  ∀ c, (c = 2 * j + 1 ∨ c = 2 * j + 2)%nat → (c < n)%nat → a !!! c ≤ a !!! j.

(** Every node from [lo] on dominates its children. *)
Definition heap_from (a : list Z) (n lo : nat) : Prop :=
  ∀ j, (lo ≤ j < n)%nat → dominates a n j.

(** The heap property holds from [lo] on except at node [k], whose
    children are not larger than its parent. *)
Definition sift_inv (a : list Z) (n lo k : nat) : Prop :=
  (∀ j, (lo ≤ j < n)%nat → j ≠ k → dominates a n j) ∧
  (∀ p c, (lo ≤ p)%nat → (k = 2 * p + 1 ∨ k = 2 * p + 2)%nat →
     (c = 2 * k + 1 ∨ c = 2 * k + 2)%nat → (c < n)%nat → a !!! c ≤ a !!! p).

(** The node that [heapify] picks between [g] and the child [c]. *)
Definition child_max (a : list Z) (n c g : nat) : nat :=
  if (c <? n)%nat && (a !!! g <? a !!! c) then c else g.

(** The node that holds the largest of [i] and its children. *)
Definition largest (a : list Z) (n i : nat) : nat :=
  child_max a n (2 * i + 2) (child_max a n (2 * i + 1) i).

(** The elements after position [j] are in their final place. *)
Definition settled (a : list Z) (j : Z) : Prop :=
  ∀ p q : nat, (p ≤ q)%nat → j < Z.of_nat q < len a → a !!! p ≤ a !!! q.

(** ** Invariants of quick sort *)

(** [a'] rearranges [a] between the positions [l] (included) and [e]
    (excluded) and agrees with it elsewhere. *)
Definition confined (a a' : list Z) (l e : nat) : Prop :=
  a' ≡ₚ a ∧ length a' = length a ∧
  (∀ q, ¬ (l ≤ q < e)%nat → a' !!! q = a !!! q) ∧
  (∀ P : Z → Prop, (∀ q, (l ≤ q < e)%nat → P (a !!! q)) →
     ∀ q, (l ≤ q < e)%nat → P (a' !!! q)).

(** ** Invariants of counting sort *)

(** The number of elements of [l] that are equal to [v]. *)
Definition occ (l : list Z) (v : Z) : nat := length (filter (λ x, x = v) l).

(** The number of elements of [l] that are smaller than [v]. *)
Definition below (l : list Z) (v : Z) : nat := length (filter (λ x, x < v) l).

(** The array with [i % maxValue + 1] at index [i]. *)
Definition cyclic (n : nat) (maxValue : Z) : list Z :=
  (λ i, Z.rem (Z.of_nat i) maxValue + 1) <$> seq 0 n.

(** ** The hash table *)

(** The hash that [hashFunction] and [generateHashTable] compute for a
    table size other than zero. *)
Definition hashOf (key : string) (size : Z) : Z :=
  foldl (λ hash char, Z.rem (hash + char) size) 0 (runes key).

(** The sample data of [generateHashTable]. *)
Definition sampleKeys : list string :=
  ["key1"; "key2"; "key3"; "key4"; "key5"; "key6"; "key7"; "key8"; "key9"; "key10"].

Definition sampleValues : list string :=
  ["value1"; "value2"; "value3"; "value4"; "value5"; "value6"; "value7"; "value8"; "value9";
   "value10"].

(** The entry made of the key and the value at each index. *)
Definition sampleEntries : list HashEntry :=
  zip_with Build_HashEntry sampleKeys sampleValues.

(** The entries that a table of [size] buckets receives. *)
Definition stored (size : Z) : list HashEntry := take (Z.to_nat size) sampleEntries.

(** ** The graph and its traversals *)

(** The neighbours [generateGraph] gives node [i] of a graph of [size]
    nodes. *)
Definition neighborsOf (size i : Z) : list Z :=
  (if 0 <? i then [i - 1] else []) ++
  (if i <? size - 1 then [i + 1] else []) ++
  (if i + 2 <? size then [i + 2] else []).

(** The graph [generateGraph] returns. *)
Definition generatedGraph (n : nat) : list (list Z) :=
  (λ i, neighborsOf (Z.of_nat n) (Z.of_nat i)) <$> seq 0 n.

(** The number of nodes that a traversal has not marked. *)
Definition unvisited (visited : list bool) : nat :=
  length (filter (λ b, b = false) visited).

(** The invariant of the traversal loops: [path] lists the marked nodes
    in the order of their visit, without the target; every neighbour of a
    marked node is marked or pending. *)
Definition traversing (n : nat) (start target : Z)
    (visited : list bool) (pending path : list Z) : Prop :=
  length visited = n ∧
  Forall (λ x, 0 ≤ x < Z.of_nat n) pending ∧
  Forall (λ x, 0 ≤ x < Z.of_nat n) path ∧
  (∀ x, 0 ≤ x < Z.of_nat n → (visited !! Z.to_nat x = Some true ↔ x ∈ path)) ∧
  NoDup path ∧ (target ∉ path) ∧
  (∀ x y, x ∈ path → y ∈ neighborsOf (Z.of_nat n) x → y ∈ path ∨ y ∈ pending) ∧
  ((path = [] ∧ pending = [start]) ∨ head path = Some start).

(** What a traversal that has found its target returns. *)
Definition foundResult (n : nat) (start target : Z) (r : option Result) : Prop :=
  ∃ (path : list Z) (visited : list bool),
    r = Some (VMap (object [
      ("found", VBool true);
      ("target", VInt target);
      ("path", VInts path);
      ("visited", VBools visited) ]), None) ∧
    head path = Some start ∧ last path = Some target ∧ NoDup path ∧
    Forall (λ x, 0 ≤ x < Z.of_nat n) path.

(** What a traversal returns: the target with the nodes visited up to it,
    or all the nodes when the target is none of them. *)
Definition traversalResult (n : nat) (start target : Z) (r : Result) : Prop :=
  ∃ (path : list Z) (visited : list bool),
    head path = Some start ∧ NoDup path ∧ Forall (λ x, 0 ≤ x < Z.of_nat n) path ∧
    ((0 ≤ target < Z.of_nat n ∧ last path = Some target ∧
      r = (VMap (object [
             ("found", VBool true);
             ("target", VInt target);
             ("path", VInts path);
             ("visited", VBools visited) ]), None)) ∨
     (¬ (0 ≤ target < Z.of_nat n) ∧ path ≡ₚ seqZ 0 (Z.of_nat n) ∧
      r = (VMap (object [
             ("found", VBool false);
             ("target", VInt target);
             ("path", VInts path);
             ("visited", VBools (replicate n true)) ]), None))).

(** ** The registry *)

(** The registry after the executors of [l] have been registered, in the
    order of [l], in an empty one. *)
Definition registerAll (l : list AlgorithmExecutor) : Registry :=
  foldl (λ r a, RegisterAlgorithm a r) {| entries := ∅ |} l.

(** Every executor is filed under the id of its metadata. *)
Definition keyed (r : Registry) : Prop :=
  ∀ id a, entries r !! id = Some a → ID (GetMetadata a) = id.

(** ** Requests as they are decoded *)

(** Every value of the map is one that [json.Decode] produces. *)
Definition decodedMap (parameters : gmap string Value) : Prop :=
  ∀ name v, parameters !! name = Some v → decoded v.

(** The algorithms that work on an array of ints. *)
Definition arrayAlgorithms : list AlgorithmExecutor := [
  sorting.BubbleSort.New; sorting.MergeSort.New; sorting.QuickSort.New;
  sorting.HeapSort.New; sorting.CountingSort.New;
  searching.LinearSearch.New; searching.BinarySearch.New ].

(** An execution of the depth-first search from a node that the graph of
    six nodes does not have. *)
Definition stray_execution : AlgorithmExecution := {|
  ExecID := "exec_1";
  AlgorithmID := "dfs";
  ExecParameters := <["start_node" := VInt 25]> ∅;
  Input := VNil;
  Output := VNil;
  Steps := [];
  Status := StatusRunning |}.

(** A request for bubble sort that carries an array. *)
Definition array_request : Request :=
  {| vars_id := "bubble_sort";
     body := Some {| ReqParameters := ∅;
                     ReqInput := VList [VFloat 3; VFloat 1; VFloat 2] |} |}.

(** * Properties *)

(** ** Go integers *)

Lemma wrap_small (x : Z) : - 2 ^ 63 ≤ x < 2 ^ 63 → wrap x = x.
Proof. intros H. unfold wrap. rewrite Z.mod_small; lia. Qed.

Lemma wrap_wrap_add (x y : Z) : wrap (wrap x + y) = wrap (x + y).
Proof.
  unfold wrap.
  replace (((x + 2 ^ 63) mod 2 ^ 64 - 2 ^ 63 + y + 2 ^ 63))
    with ((x + 2 ^ 63) mod 2 ^ 64 + y) by lia.
  rewrite Zplus_mod_idemp_l. f_equal. f_equal. lia.
Qed.

Lemma incr_wrap (x : Z) : incr (wrap x) = wrap (x + 1).
Proof. unfold incr. apply wrap_wrap_add. Qed.

(** ** The monad of runs *)

Section Run.

Context {A B : Type}.

Lemma bind_ret_l (a : A) (f : A → Run B) : mret a ≫= f = f a.
Proof.
  unfold mbind, Run_bind, mret, Run_ret, bind, ret. destruct (f a); reflexivity.
Qed.

Lemma bind_returned (m : Run A) (f : A → Run B) t a t' o :
  m = (t, Returned a) → f a = (t', o) → m ≫= f = (t ++ t', o).
Proof.
  intros -> Hf. unfold mbind, Run_bind, bind. rewrite Hf. reflexivity.
Qed.

Lemma bind_panicked (m : Run A) (f : A → Run B) t r :
  m = (t, Panicked r) → m ≫= f = (t, Panicked r).
Proof. intros ->. reflexivity. Qed.

Lemma bind_inv_returned (m : Run A) (f : A → Run B) t b :
  m ≫= f = (t, Returned b) →
  ∃ t1 a t2, m = (t1, Returned a) ∧ f a = (t2, Returned b) ∧ t = t1 ++ t2.
Proof.
  unfold mbind, Run_bind, bind. destruct m as [t1 [a| |]]; try discriminate.
  destruct (f a) as [t2 o] eqn:Hf. intros [= <- ->]. eauto 7.
Qed.

End Run.

Lemma bind_stepCallback {B} (step : ExecutionStep) (f : unit → Run B) t o :
  f tt = (t, o) → types.stepCallback step ≫= f = (step :: t, o).
Proof. intros Hf. unfold mbind, Run_bind, bind, types.stepCallback. rewrite Hf. reflexivity. Qed.

(** ** Slices *)

Section Slices.

Context {A : Type}.
Implicit Types (arr l : list A) (x : A).

Lemma index_lookup arr (i : nat) x :
  arr !! i = Some x → index arr (Z.of_nat i) = mret x.
Proof.
  intros H. unfold index. destruct (Z.leb_spec 0 (Z.of_nat i)); [|lia].
  rewrite Nat2Z.id, H. reflexivity.
Qed.

Lemma index_middle l1 x l2 : index (l1 ++ x :: l2) (len l1) = mret x.
Proof. apply index_lookup. apply list_lookup_middle. reflexivity. Qed.

Lemma store_in_range arr (i : nat) x :
  (i < length arr)%nat → store arr (Z.of_nat i) x = mret (<[i := x]> arr).
Proof.
  intros H. unfold store.
  destruct (Z.leb_spec 0 (Z.of_nat i)); [|lia].
  destruct (Z.ltb_spec (Z.of_nat i) (Z.of_nat (length arr))); [|lia].
  rewrite Nat2Z.id. reflexivity.
Qed.

Lemma index_in_range arr (i : Z) x :
  0 ≤ i → arr !! Z.to_nat i = Some x → index arr i = mret x.
Proof.
  intros Hi H. rewrite <- (Z2Nat.id i) by done. by apply index_lookup.
Qed.

Lemma index_out_of_range arr (i : Z) :
  i < 0 ∨ len arr ≤ i → index arr i = panic "index out of range".
Proof.
  intros H. unfold index, len in *. destruct (Z.leb_spec 0 i); [|done].
  rewrite lookup_ge_None_2; [done|lia].
Qed.

Lemma store_in_range_Z arr (i : Z) x :
  0 ≤ i < len arr → store arr i x = mret (<[Z.to_nat i := x]> arr).
Proof.
  intros H. unfold len in H. rewrite <- (Z2Nat.id i) at 1 by lia.
  apply store_in_range. lia.
Qed.

Lemma make_length (zero : A) (n : nat) : make zero (Z.of_nat n) = mret (replicate n zero).
Proof.
  unfold make. destruct (Z.ltb_spec (Z.of_nat n) 0); [lia|]. by rewrite Nat2Z.id.
Qed.

Lemma swap_same arr (i : nat) x :
  arr !! i = Some x → swap arr (Z.of_nat i) (Z.of_nat i) = mret arr.
Proof.
  intros H. unfold swap.
  rewrite (index_lookup _ _ _ H), bind_ret_l, bind_ret_l.
  assert (i < length arr)%nat by (eapply lookup_lt_Some; eauto).
  rewrite store_in_range, bind_ret_l by done.
  rewrite store_in_range by (rewrite length_insert; done).
  rewrite list_insert_insert_eq, list_insert_id; done.
Qed.

Lemma swap_adjacent l1 x y l2 :
  swap (l1 ++ x :: y :: l2) (len l1) (len l1 + 1) = mret (l1 ++ y :: x :: l2).
Proof.
  unfold swap, len.
  replace (Z.of_nat (length l1) + 1) with (Z.of_nat (S (length l1))) by lia.
  rewrite (index_lookup _ (S (length l1)) y), bind_ret_l.
  2:{ rewrite lookup_app_r by lia. replace (S (length l1) - length l1)%nat with 1%nat by lia.
      reflexivity. }
  rewrite (index_lookup _ (length l1) x), bind_ret_l by (by apply list_lookup_middle).
  rewrite store_in_range, bind_ret_l by (rewrite length_app; simpl; lia).
  rewrite store_in_range by (rewrite length_insert, length_app; simpl; lia).
  f_equal. f_equal.
  rewrite insert_app_r_alt by lia. rewrite Nat.sub_diag. simpl.
  rewrite insert_app_r_alt by lia.
  replace (S (length l1) - length l1)%nat with 1%nat by lia. reflexivity.
Qed.

End Slices.

(** ** Loops *)

Section Loops.

Context {S : Type}.

(** The invariant rule of [for_range]: [I] holds of the index, the loop
    state and the steps emitted so far; [Q] holds after a [break]. *)
Lemma iterate_spec (I : Z → S → list ExecutionStep → Prop)
    (Q : S → list ExecutionStep → Prop) (body : Z → S → Run (Ctl S)) (k : nat) :
  ∀ (i : Z) (s : S) (t0 : list ExecutionStep),
  I i s t0 →
  (∀ j s t, i ≤ j < i + Z.of_nat k → I j s t →
     ∃ t' c, body j s = (t', Returned c) ∧
       match c with
       | Continue s' => I (j + 1) s' (t ++ t')
       | Break s' => Q s' (t ++ t')
       end) →
  ∃ t' s', iterate k i body s = (t', Returned s') ∧
    (I (i + Z.of_nat k) s' (t0 ++ t') ∨ Q s' (t0 ++ t')).
Proof.
  induction k as [|k IH]; intros i s t0 HI Hbody.
  - exists [], s. split; [reflexivity|]. left. rewrite app_nil_r, Z.add_0_r. exact HI.
  - destruct (Hbody i s t0) as (t1 & c & Hb & Hc); [lia | exact HI |].
    destruct c as [s1|s1].
    + destruct (IH (i + 1) s1 (t0 ++ t1) Hc) as (t2 & s2 & Hit & Hpost).
      { intros j s' t Hj. apply Hbody. lia. }
      exists (t1 ++ t2), s2. split.
      * simpl. eapply bind_returned; [exact Hb | exact Hit].
      * rewrite app_assoc. replace (i + Z.of_nat (Datatypes.S k)) with (i + 1 + Z.of_nat k) by lia.
        exact Hpost.
    + exists t1, s1. split.
      * simpl. erewrite bind_returned; [|exact Hb|reflexivity]. by rewrite app_nil_r.
      * right. exact Hc.
Qed.

Lemma for_range_spec (I : Z → S → list ExecutionStep → Prop)
    (Q : S → list ExecutionStep → Prop) (body : Z → S → Run (Ctl S))
    (lo hi : Z) (s : S) (t0 : list ExecutionStep) :
  I lo s t0 →
  (∀ j s t, lo ≤ j < hi → I j s t →
     ∃ t' c, body j s = (t', Returned c) ∧
       match c with
       | Continue s' => I (j + 1) s' (t ++ t')
       | Break s' => Q s' (t ++ t')
       end) →
  ∃ t' s', for_range lo hi body s = (t', Returned s') ∧
    (I (Z.max lo hi) s' (t0 ++ t') ∨ Q s' (t0 ++ t')).
Proof.
  intros HI Hbody. unfold for_range.
  destruct (iterate_spec I Q body (Z.to_nat (hi - lo)) lo s t0 HI) as (t' & s' & Hit & Hpost).
  { intros j s1 t Hj. apply Hbody. lia. }
  exists t', s'. split; [exact Hit|].
  replace (Z.max lo hi) with (lo + Z.of_nat (Z.to_nat (hi - lo))) by lia. exact Hpost.
Qed.

(** The rule of [for_down] for a body that leaves the state as it is and
    emits nothing. *)
Lemma iterate_down_id (body : Z → S → Run S) (k : nat) (i : Z) (s : S) :
  (∀ j, i - Z.of_nat k < j ≤ i → body j s = mret s) →
  iterate_down k i body s = mret s.
Proof.
  revert i. induction k as [|k IH]; intros i Hbody; [reflexivity|].
  simpl. rewrite Hbody, bind_ret_l by lia. apply IH. intros j Hj. apply Hbody. lia.
Qed.

End Loops.

(** ** The array generators *)

Lemma ascending_S (n : nat) : ascending (S n) = ascending n ++ [Z.of_nat n + 1].
Proof.
  unfold ascending. rewrite seq_S, fmap_app. simpl. do 3 f_equal. lia.
Qed.

Lemma length_ascending (n : nat) : length (ascending n) = n.
Proof. unfold ascending. by rewrite length_fmap, length_seq. Qed.

Lemma ascending_sorted (n : nat) : Sorted Z.le (ascending n).
Proof.
  unfold ascending. generalize 1%nat. induction n as [|n IH]; intros k; simpl.
  - constructor.
  - constructor; [apply IH|]. destruct n; simpl; constructor. lia.
Qed.

(** The filling loop of the generators writes [i + 1] at index [i]. *)
Lemma fill_ascending (n : nat) :
  for_range 0 (Z.of_nat n)
    (λ i arr, arr' ← store arr i (i + 1); mret (Continue arr')) (replicate n 0)
  = mret (ascending n).
Proof.
  destruct (for_range_spec
    (λ i arr t, t = [] ∧ 0 ≤ i ≤ Z.of_nat n ∧
       arr = ascending (Z.to_nat i) ++ replicate (n - Z.to_nat i) 0)
    (λ _ _, False)
    (λ i arr, arr' ← store arr i (i + 1); mret (Continue arr'))
    0 (Z.of_nat n) (replicate n 0) []) as (t & arr & Heq & [(Ht & _ & Harr)|[]]).
  - split; [done|]. split; [lia|]. simpl. by rewrite Nat.sub_0_r.
  - intros j arr t Hj (-> & _ & ->).
    exists [], (Continue (ascending (Z.to_nat (j + 1)) ++ replicate (n - Z.to_nat (j + 1)) 0)).
    split; [|split; [done|split; [lia|done]]].
    rewrite store_in_range_Z, bind_ret_l.
    2:{ unfold len. rewrite length_app, length_ascending, length_replicate. lia. }
    do 2 f_equal.
    replace (Z.to_nat (j + 1)) with (S (Z.to_nat j)) by lia.
    rewrite insert_app_r_alt by (rewrite length_ascending; lia).
    rewrite length_ascending, Nat.sub_diag, ascending_S, <- app_assoc.
    replace (n - Z.to_nat j)%nat with (S (n - S (Z.to_nat j))) by lia.
    simpl. rewrite Z2Nat.id by lia. reflexivity.
  - rewrite Heq. simpl in Ht. subst t. unfold mret, Run_ret, ret. do 2 f_equal.
    rewrite Harr. replace (Z.to_nat (0 `max` Z.of_nat n)) with n by lia.
    rewrite Nat.sub_diag. simpl. by rewrite app_nil_r.
Qed.

(** The shuffling loop of the generators picks [j = i % (i + 1) = i] and
    swaps an element with itself. *)
Lemma shuffle_noop (arr : list Z) :
  for_down (len arr - 1) 0
    (λ i arr, j ← modulo i (i + 1); swap arr i j) arr
  = mret arr.
Proof.
  unfold for_down. apply iterate_down_id. intros j Hj. unfold len in *.
  assert (0 < j < Z.of_nat (length arr)) as Hrange by lia.
  unfold modulo. destruct (Z.eqb_spec (j + 1) 0); [lia|].
  rewrite bind_ret_l, Z.rem_small by lia.
  destruct (lookup_lt_is_Some_2 arr (Z.to_nat j)) as [x Hx]; [lia|].
  rewrite <- (Z2Nat.id j) by lia. eapply swap_same. exact Hx.
Qed.

Lemma sorting_generateRandomArray_ascending (n : nat) :
  sorting.generateRandomArray (Z.of_nat n) = mret (ascending n).
Proof.
  unfold sorting.generateRandomArray.
  rewrite make_length, bind_ret_l, fill_ascending, bind_ret_l. apply shuffle_noop.
Qed.

Lemma searching_generateRandomArray_ascending (n : nat) :
  searching.generateRandomArray (Z.of_nat n) = mret (ascending n).
Proof.
  unfold searching.generateRandomArray.
  rewrite make_length, bind_ret_l, fill_ascending, bind_ret_l. apply shuffle_noop.
Qed.

Lemma generateRandomArray_negative (size : Z) :
  size < 0 →
  sorting.generateRandomArray size = panic "makeslice: len out of range" ∧
  searching.generateRandomArray size = panic "makeslice: len out of range".
Proof.
  intros H. unfold sorting.generateRandomArray, searching.generateRandomArray, make.
  destruct (Z.ltb_spec size 0); [|lia]. split; reflexivity.
Qed.

(** ** Step numbers *)

Lemma counted_snoc t c step :
  counted t c → StepNumber step = c → counted (t ++ [step]) (incr c).
Proof.
  intros [-> Ht] Hs. unfold counted, len. rewrite length_app. simpl. split.
  - rewrite incr_wrap. f_equal. lia.
  - rewrite fmap_app, Ht. simpl. rewrite Nat.add_1_r, seq_S, fmap_app. simpl.
    by rewrite Hs.
Qed.

(** ** Bubble sort *)

Lemma index_middle_next {A} (l1 : list A) x y l2 :
  index (l1 ++ x :: y :: l2) (len l1 + 1) = mret y.
Proof.
  replace (l1 ++ x :: y :: l2) with ((l1 ++ [x]) ++ y :: l2) by (by rewrite <- app_assoc).
  replace (len l1 + 1) with (len (l1 ++ [x])); [apply index_middle|].
  unfold len. rewrite length_app. simpl. lia.
Qed.

Lemma bind_emit {B} (step : ExecutionStep) (f : unit → Run B) :
  types.stepCallback step ≫= f = (step :: (f tt).1, (f tt).2).
Proof. destruct (f tt) eqn:Hf. by apply bind_stepCallback. Qed.

Lemma bind_pair {A B} (t : list ExecutionStep) (a : A) (f : A → Run B) :
  (t, Returned a) ≫= f = (t ++ (f a).1, (f a).2).
Proof. destruct (f a) eqn:Hf. eapply bind_returned; [reflexivity|exact Hf]. Qed.

(** Symbolic execution of a run whose reads and writes are in range. *)
Ltac run_simpl := cbn [fst snd mret Run_ret ret app].

Ltac run_step :=
  first [ rewrite bind_ret_l | rewrite bind_emit | rewrite bind_pair
        | rewrite index_middle | rewrite index_middle_next | rewrite swap_adjacent ].

Ltac run := repeat (run_step; run_simpl).

Section BubbleSort.

Import sorting.BubbleSort.

Variable showComparisons : bool.

(** One iteration of the inner loop compares the adjacent elements [a] and
    [b] and puts the larger one behind. *)
Lemma inner_step (i : Z) (l1 : list Z) (a b : Z) (rest : list Z) (c s sn : Z) (sw : bool) t :
  counted t sn →
  ∃ t' sn',
    inner showComparisons i (len l1) (mkVars (l1 ++ a :: b :: rest) c s sn sw)
    = (t', Returned (Continue (mkVars
         (if b <? a then l1 ++ b :: a :: rest else l1 ++ a :: b :: rest)
         (incr c) (if b <? a then incr s else s) sn'
         (if b <? a then true else sw)))) ∧
    counted (t ++ t') sn'.
Proof.
  intros Hc. unfold inner. cbn [arr comparisons swaps stepNumber swapped].
  destruct showComparisons, (b <? a) eqn:Hba; run; rewrite ?Hba; run.
  - eexists _, _. split; [reflexivity|]. cbn [fst].
    rewrite (cons_middle _ t [_]), app_assoc.
    apply counted_snoc; [apply counted_snoc; [done|reflexivity]|reflexivity].
  - eexists _, _. split; [reflexivity|]. by apply counted_snoc.
  - eexists _, _. split; [reflexivity|]. by apply counted_snoc.
  - eexists _, _. split; [reflexivity|]. by rewrite app_nil_r.
Qed.

(** One pass of the inner loop over the unsorted part [pre] moves a
    largest element of [pre] to its end; a pass without a swap finds [pre]
    sorted. *)
Lemma inner_pass (i : Z) (pre suf : list Z) (c s sn : Z) t :
  (2 ≤ length pre)%nat → counted t sn →
  ∃ t' l1 a c' s' sn' sw,
    for_range 0 (len pre - 1) (inner showComparisons i) (mkVars (pre ++ suf) c s sn false)
    = (t', Returned (mkVars (l1 ++ a :: suf) c' s' sn' sw)) ∧
    l1 ++ [a] ≡ₚ pre ∧ Forall (λ x, x ≤ a) l1 ∧
    (sw = false → StronglySorted Z.le (l1 ++ [a])) ∧
    counted (t ++ t') sn'.
Proof.
  intros Hlen Hc.
  destruct pre as [|a0 pre0]; [simpl in Hlen; lia|].
  destruct (for_range_spec
    (λ j v tr, ∃ l1 a l2,
       arr v = l1 ++ a :: l2 ++ suf ∧ len l1 = j ∧ l1 ++ a :: l2 ≡ₚ a0 :: pre0 ∧
       Forall (λ x, x ≤ a) l1 ∧
       (swapped v = false → StronglySorted Z.le (l1 ++ [a])) ∧
       counted tr (stepNumber v))
    (λ _ _, False) (inner showComparisons i) 0 (len (a0 :: pre0) - 1)
    (mkVars ((a0 :: pre0) ++ suf) c s sn false) t)
    as (t' & v & Heq & [(l1 & a & l2 & Harr & Hj & Hperm & Hmax & Hsorted & Hcount)|[]]).
  - exists [], a0, pre0. split_and!; try done.
    intros _. repeat constructor.
  - intros j v tr Hj (l1 & a & l2 & Harr & Hl1 & Hperm & Hmax & Hsorted & Hcount).
    destruct v as [arr_v c_v s_v sn_v sw_v]. simpl in *. subst arr_v j.
    assert (length (l1 ++ a :: l2) = length (a0 :: pre0)) as Hlenperm by (by rewrite Hperm).
    rewrite length_app in Hlenperm. unfold len in Hj. simpl in Hj, Hlenperm.
    destruct l2 as [|b l2]; [simpl in Hlenperm; lia|].
    destruct (inner_step i l1 a b (l2 ++ suf) c_v s_v sn_v sw_v tr Hcount)
      as (t1 & sn1 & Hstep & Hcount1).
    simpl. rewrite Hstep. eexists _, _. split; [reflexivity|]. simpl.
    destruct (Z.ltb_spec b a).
    + exists (l1 ++ [b]), a, l2. rewrite <- !app_assoc. split_and!; try done.
      * unfold len. rewrite length_app. simpl. lia.
      * rewrite <- Hperm. simpl. apply Permutation_app_head. apply perm_swap.
      * apply Forall_app. split; [done|]. constructor; [lia|constructor].
    + exists (l1 ++ [a]), b, l2. rewrite <- !app_assoc. split_and!; try done.
      * unfold len. rewrite length_app. simpl. lia.
      * apply Forall_app. split.
        -- eapply Forall_impl; [exact Hmax|]. simpl. intros x Hx. lia.
        -- constructor; [lia|constructor].
      * intros Hsw. rewrite app_assoc. apply StronglySorted_app. split_and!.
        -- intros x1 x2 Hx1 Hx2. apply list_elem_of_singleton in Hx2 as ->.
           apply elem_of_app in Hx1 as [Hx1|Hx1].
           ++ rewrite Forall_forall in Hmax. specialize (Hmax x1 Hx1). simpl in Hmax. lia.
           ++ apply list_elem_of_singleton in Hx1 as ->. lia.
        -- by apply Hsorted.
        -- repeat constructor.
  - destruct v as [arr_v c_v s_v sn_v sw_v]. simpl in *. subst arr_v.
    assert (length (l1 ++ a :: l2) = length (a0 :: pre0)) as Hlenperm by (by rewrite Hperm).
    rewrite length_app in Hlenperm. unfold len in Hj. simpl in Hj, Hlenperm.
    destruct l2 as [|b l2]; [|simpl in Hlenperm; lia].
    exists t', l1, a, c_v, s_v, sn_v, sw_v. simpl in *. split_and!; done.
Qed.

Lemma outer_step (arr0 : list Z) (i : Z) (v : Vars) t :
  0 ≤ i < len arr0 - 1 → placed arr0 i v t →
  ∃ t' c, outer showComparisons (len arr0) i v = (t', Returned c) ∧
    match c with
    | Continue v' => placed arr0 (i + 1) v' (t ++ t')
    | Break v' => finished arr0 v' (t ++ t')
    end.
Proof.
  intros Hi (pre & suf & Harr & Hsuf & Hperm & Hsorted & Hle & Hcount).
  destruct v as [arr_v c_v s_v sn_v sw_v]. simpl in *. subst arr_v.
  assert (length (pre ++ suf) = length arr0) as Hlen by (by rewrite Hperm).
  rewrite length_app in Hlen. unfold len in *.
  unfold outer. cbn [arr comparisons swaps stepNumber swapped].
  match goal with |- context [types.stepCallback ?st ≫= _] => set (st0 := st) end.
  rewrite bind_emit.
  destruct (inner_pass i pre suf c_v s_v (incr sn_v) (t ++ [st0])) as
    (t1 & l1 & a & c1 & s1 & sn1 & sw1 & Hpass & Hperm1 & Hmax & Hsorted1 & Hcount1).
  { lia. }
  { apply counted_snoc; [exact Hcount|reflexivity]. }
  replace (Z.of_nat (length arr0) - i - 1) with (len pre - 1) by (unfold len; lia).
  rewrite Hpass, bind_pair. cbn [arr comparisons swaps stepNumber swapped fst snd].
  assert (∀ x, x ∈ l1 ++ [a] → x ∈ pre) as Hin by (intros x; by rewrite Hperm1).
  destruct sw1; cbn [negb].
  - (* a swap occurred: the loop goes on *)
    run_simpl. eexists _, _. split; [reflexivity|]. cbn [fst snd].
    exists l1, (a :: suf). split_and!.
    + reflexivity.
    + simpl. unfold len in *. simpl. lia.
    + rewrite <- Hperm, <- Hperm1, <- app_assoc. done.
    + constructor; [done|]. apply Forall_forall. intros y Hy. apply Hle; [|done].
      apply Hin, elem_of_app. right. by apply list_elem_of_singleton.
    + intros x y Hx Hy. apply elem_of_cons in Hy as [->|Hy].
      * rewrite Forall_forall in Hmax. by apply Hmax.
      * apply Hle; [|done]. apply Hin, elem_of_app. by left.
    + rewrite app_nil_r, (cons_middle _ t t1), app_assoc. exact Hcount1.
  - (* no swap: the array is sorted *)
    rewrite bind_emit. run_simpl. eexists _, _. split; [reflexivity|]. cbn [fst snd].
    unfold finished. cbn [arr stepNumber]. split_and!.
    + rewrite (cons_middle a l1 suf), app_assoc. apply StronglySorted_app.
      split_and!; [|by apply Hsorted1|done].
      intros x y Hx Hy. apply Hle; [|done]. by apply Hin.
    + rewrite <- Hperm, <- Hperm1, <- app_assoc. done.
    + rewrite (cons_middle _ t (t1 ++ _)), !app_assoc. apply counted_snoc; [|reflexivity].
      exact Hcount1.
Qed.

End BubbleSort.

(** The whole sort: it returns a sorted rearrangement of [arr0]; its steps
    are numbered in the order of emission and end with ["complete"]. *)
Lemma BubbleSort_run_spec (arr0 : list Z) (parameters : gmap string Value) :
  ∃ t arr' last_step c,
    sorting.BubbleSort.run arr0 parameters = (t ++ [last_step], Returned (VInts arr', None)) ∧
    Sorted Z.le arr' ∧ arr' ≡ₚ arr0 ∧
    Action last_step = "complete" ∧
    counted (t ++ [last_step]) c.
Proof.
  unfold sorting.BubbleSort.run.
  set (show := boolParam parameters "show_comparisons" true).
  match goal with |- context [types.stepCallback ?st ≫= _] => set (st0 := st) end.
  rewrite bind_emit.
  destruct (for_range_spec (placed arr0) (finished arr0)
    (sorting.BubbleSort.outer show (len arr0)) 0 (len arr0 - 1)
    (sorting.BubbleSort.mkVars arr0 0 0 1 false) [st0]) as (t1 & v & Heq & Hpost).
  - exists arr0, []. split_and!.
    + simpl. by rewrite app_nil_r.
    + reflexivity.
    + by rewrite app_nil_r.
    + constructor.
    + intros x y _ Hy. by apply elem_of_nil in Hy.
    + apply (counted_snoc [] 0 st0); [|reflexivity]. split; reflexivity.
  - intros j v t Hj Hplaced. apply (outer_step show arr0 j v t); [lia|done].
  - rewrite Heq. run.
    assert (finished arr0 v ([st0] ++ t1)) as (Hsorted & Hperm & Hcount).
    { destruct Hpost as [(pre & suf & Harr & Hsuf & Hperm & Hsorted & Hle & Hcount)|Hfin]; [|done].
      unfold finished. rewrite Harr. split_and!; [|done|done].
      assert (length (pre ++ suf) = length arr0) as Hlen by (by rewrite Hperm).
      rewrite length_app in Hlen. unfold len in *.
      destruct pre as [|x [|y pre]]; simpl in *; [done| |lia].
      constructor; [done|]. apply Forall_forall. intros y Hy. apply Hle; [|done]. by left. }
    eexists (st0 :: t1), (sorting.BubbleSort.arr v), _, _. split_and!.
    + reflexivity.
    + by apply StronglySorted_Sorted.
    + done.
    + reflexivity.
    + apply counted_snoc; [exact Hcount|reflexivity].
Qed.

(** ** Binary search *)

Section While.

Context {S : Type}.

(** The rule of [while]: an invariant [I] and a measure that every
    iteration decreases; the fuel has to exceed the measure at entry. *)
Lemma while_spec (I : S → list ExecutionStep → Prop) (Q : S → list ExecutionStep → Prop)
    (measure : S → nat) (cond : S → bool) (body : S → Run (Ctl S)) (fuel : nat) :
  ∀ (s : S) (t0 : list ExecutionStep),
  I s t0 → (measure s < fuel)%nat →
  (∀ s t, I s t → cond s = true →
     ∃ t' c, body s = (t', Returned c) ∧
       match c with
       | Continue s' => I s' (t ++ t') ∧ (measure s' < measure s)%nat
       | Break s' => Q s' (t ++ t')
       end) →
  ∃ t' s', while fuel cond body s = (t', Returned s') ∧
    ((I s' (t0 ++ t') ∧ cond s' = false) ∨ Q s' (t0 ++ t')).
Proof.
  induction fuel as [|fuel IH]; intros s t0 HI Hfuel Hbody; [lia|].
  simpl. destruct (cond s) eqn:Hcond.
  - destruct (Hbody s t0 HI Hcond) as (t1 & c & Hb & Hc).
    destruct c as [s1|s1].
    + destruct Hc as [HI1 Hm].
      destruct (IH s1 (t0 ++ t1) HI1) as (t2 & s2 & Hw & Hpost); [lia|exact Hbody|].
      exists (t1 ++ t2), s2. split.
      * eapply bind_returned; [exact Hb|exact Hw].
      * by rewrite app_assoc.
    + exists t1, s1. split.
      * erewrite bind_returned; [|exact Hb|reflexivity]. by rewrite app_nil_r.
      * by right.
  - exists [], s. split; [reflexivity|]. left. by rewrite app_nil_r.
Qed.

End While.

Lemma rising_snoc t c step c' :
  rising t c → c ≤ StepNumber step ≤ c' → rising (t ++ [step]) c'.
Proof.
  intros [Hs Hle] Hstep. unfold rising. rewrite fmap_app. simpl. split.
  - apply StronglySorted_app. split_and!.
    + intros x y Hx Hy. apply list_elem_of_singleton in Hy as ->.
      rewrite Forall_forall in Hle. specialize (Hle x Hx). simpl in Hle. lia.
    + done.
    + repeat constructor.
  - apply Forall_app. split.
    + eapply Forall_impl; [exact Hle|]. simpl. intros x Hx. lia.
    + constructor; [lia|constructor].
Qed.

Lemma sort_Ints_sorted (arr : list Z) : Sorted Z.le (searching.sort_Ints arr).
Proof.
  unfold searching.sort_Ints. apply Sorted_merge_sort. intros x y. lia.
Qed.

Lemma sort_Ints_permutation (arr : list Z) : searching.sort_Ints arr ≡ₚ arr.
Proof. apply merge_sort_Permutation. Qed.

(** [sort_Ints] is determined by what [sort.Ints] promises: any sorted
    rearrangement of [arr] is [sort_Ints arr]. *)
Lemma sort_Ints_unique (arr l : list Z) :
  Sorted Z.le l → l ≡ₚ arr → l = searching.sort_Ints arr.
Proof.
  intros Hs Hp. apply (Sorted_unique Z.le).
  - done.
  - apply sort_Ints_sorted.
  - by rewrite sort_Ints_permutation.
Qed.

Section BinarySearch.

Import searching.BinarySearch.

Variables (arr : list Z) (target : Z).

Lemma probe_numbers (c : Z) (t : list ExecutionStep) (s1 s2 : ExecutionStep) :
  0 ≤ c < 2 ^ 62 → rising t (c + 1) →
  StepNumber s1 = incr c → StepNumber s2 = wrap (incr c + 1) →
  incr c = c + 1 ∧ rising (t ++ [s1; s2]) (incr c + 1).
Proof.
  intros Hc Hrise Hs1 Hs2.
  assert (incr c = c + 1) as Hincr by (unfold incr; apply wrap_small; lia).
  rewrite Hincr in *. rewrite wrap_small in Hs2 by lia. split; [done|].
  rewrite (cons_middle s1 t [s2]), app_assoc.
  apply (rising_snoc _ (c + 1)); [apply (rising_snoc _ (c + 1)); [exact Hrise|]|]; lia.
Qed.

Lemma probe_step (v : Vars) t :
  searching_inv arr v t → (left v <=? right v) = true →
  ∃ t' c, probe arr target v = (t', Returned c) ∧
    match c with
    | Continue v' => searching_inv arr v' (t ++ t') ∧ (width v' < width v)%nat
    | Break v' => found_post arr target v' (t ++ t')
    end.
Proof.
  intros (Hl & Hr & Hret & Hnum) Hcond.
  destruct v as [l r c ret]. unfold numbering, width in *.
  cbn [left right comparisons returned] in *. subst ret.
  apply Z.leb_le in Hcond.
  assert (∃ mid, mid = l + (r - l) `quot` 2 ∧ l ≤ mid ≤ r) as (mid & Hmid & Hbounds).
  { eexists. split; [reflexivity|].
    assert (0 ≤ (r - l) `quot` 2) by (apply Z.quot_pos; lia).
    assert ((r - l) `quot` 2 ≤ r - l) by (apply Z.quot_le_upper_bound; lia).
    lia. }
  unfold probe. cbn [left right comparisons returned]. rewrite <- Hmid. clear Hmid.
  assert (Z.to_nat (r - (mid + 1) + 1) < Z.to_nat (r - l + 1))%nat as Hright by lia.
  assert (Z.to_nat (mid - 1 - l + 1) < Z.to_nat (r - l + 1))%nat as Hleft by lia.
  assert (0 ≤ mid + 1 ∧ mid - 1 < len arr ∧ 0 ≤ mid) as (? & ? & ?) by lia.
  assert (∀ s1 s2, StepNumber s1 = incr c → StepNumber s2 = wrap (incr c + 1) →
    len arr < 2 ^ 62 →
    0 ≤ incr c ∧
    incr c + Z.of_nat (Z.to_nat (r - (mid + 1) + 1)) ≤ len arr ∧
    incr c + Z.of_nat (Z.to_nat (mid - 1 - l + 1)) ≤ len arr ∧
    rising (t ++ [s1; s2]) (incr c + 1)) as Hnum'.
  { intros s1 s2 Hs1 Hs2 Hfits. destruct (Hnum Hfits) as (Hc & Hw & Hrise).
    destruct (probe_numbers c t s1 s2) as [Hincr Hrise']; [lia|done..|].
    split_and!; [lia|lia|lia|done]. }
  clear Hnum.
  destruct (lookup_lt_is_Some_2 arr (Z.to_nat mid)) as [amid Hamid].
  { unfold len in *. lia. }
  rewrite (index_in_range arr mid amid) by done. run.
  destruct (Z.eqb_spec amid target) as [->|Hne]; [|destruct (Z.ltb_spec amid target)]; run;
    eexists _, _; (split; [reflexivity|]); cbn [fst snd].
  - split_and!.
    + eapply list_elem_of_lookup_2. exact Hamid.
    + by eexists.
    + intros Hfits. cbn [comparisons].
      match goal with |- context [t ++ [?s1; ?s2]] =>
        destruct (Hnum' s1 s2 eq_refl eq_refl Hfits) as (? & ? & ? & ?) end.
      done.
  - unfold searching_inv, numbering, width. cbn [left right comparisons returned].
    split_and!; try done.
    intros Hfits.
    match goal with |- context [t ++ [?s1; ?s2]] =>
      destruct (Hnum' s1 s2 eq_refl eq_refl Hfits) as (? & ? & ? & ?) end.
    done.
  - unfold searching_inv, numbering, width. cbn [left right comparisons returned].
    split_and!; try done.
    intros Hfits.
    match goal with |- context [t ++ [?s1; ?s2]] =>
      destruct (Hnum' s1 s2 eq_refl eq_refl Hfits) as (? & ? & ? & ?) end.
    done.
Qed.

(** The search proper: it returns; its step numbers never decrease when
    the slice fits in memory; no result is set when the target does not
    occur. *)
Lemma search_spec (t0 : list ExecutionStep) :
  rising t0 1 →
  ∃ t v, while (S (length arr)) (λ v, left v <=? right v) (probe arr target)
           (mkVars 0 (len arr - 1) 0 None) = (t, Returned v) ∧
    (len arr < 2 ^ 62 →
       rising (t0 ++ t) (comparisons v + 1) ∧
       (returned v = None → 0 ≤ comparisons v ≤ len arr)) ∧
    (returned v = None ∨ ∃ r, returned v = Some (r, None)) ∧
    (target ∉ arr → returned v = None).
Proof.
  intros Hrise.
  destruct (while_spec (searching_inv arr) (found_post arr target) width (λ v, left v <=? right v)
    (probe arr target) (S (length arr)) (mkVars 0 (len arr - 1) 0 None) t0)
    as (t & v & Heq & Hpost).
  - unfold searching_inv, numbering, width, len. cbn [left right comparisons returned].
    split_and!; try (done || lia). intros _. split_and!; [lia|lia|done].
  - unfold width, len. cbn [left right]. lia.
  - apply probe_step.
  - exists t, v. split; [exact Heq|].
    destruct Hpost as [[(_ & _ & Hret & Hnum) _]|(Hin & [r Hret] & Hnum)].
    + split_and!; [|by left|done]. intros Hfits.
      destruct (Hnum Hfits) as (? & ? & ?). split; [done|]. intros _. lia.
    + split_and!; [|right; by exists r|done]. intros Hfits. split; [by apply Hnum|].
      rewrite Hret. done.
Qed.

End BinarySearch.

Lemma BinarySearch_run_spec (arr0 : list Z) (parameters : gmap string Value) :
  let target := intParam parameters "target" 5 in
  ∃ t r,
    searching.BinarySearch.run arr0 parameters = (t, Returned (r, None)) ∧
    (len arr0 < 2 ^ 62 → StronglySorted Z.le (StepNumber <$> t)) ∧
    (target ∉ arr0 →
     ∃ comparisons, r = VMap (object [
       ("found", VBool false);
       ("index", VInt (-1));
       ("value", VNil);
       ("comparisons", VInt comparisons) ])).
Proof.
  intros target. unfold searching.BinarySearch.run. fold target.
  set (arr := searching.sort_Ints arr0).
  assert (arr ≡ₚ arr0) as Hperm by apply sort_Ints_permutation.
  assert (len arr = len arr0) as Hlen by (unfold len; by rewrite Hperm).
  match goal with |- context [types.stepCallback ?st ≫= _] => set (st0 := st) end.
  rewrite bind_emit.
  destruct (search_spec arr target [st0]) as (t & v & Heq & Hnum & Hshape & Hret).
  { split; repeat constructor. simpl. lia. }
  rewrite Heq. run. rewrite Hlen in Hnum.
  destruct Hshape as [Hnone|[r Hsome]].
  - rewrite Hnone. run. eexists _, _. split_and!.
    + reflexivity.
    + intros Hfits. destruct (Hnum Hfits) as [Hrise Hc]. specialize (Hc Hnone).
      cbn [fst]. rewrite app_comm_cons.
      refine (proj1 (rising_snoc _ _ _ (searching.BinarySearch.comparisons v + 1) Hrise _)).
      cbn [StepNumber]. rewrite wrap_small; lia.
    + intros _. by eexists.
  - rewrite Hsome. run. eexists _, _. split_and!.
    + reflexivity.
    + intros Hfits. cbn [fst]. rewrite app_nil_r. apply (Hnum Hfits).
    + intros Hnot. rewrite Hret in Hsome; [done|]. by rewrite Hperm.
Qed.

(** ** Linear search *)

Lemma slice_in_range {A} (arr : list A) (lo hi : Z) :
  0 ≤ lo ≤ hi → hi ≤ len arr →
  slice arr lo hi = mret (take (Z.to_nat (hi - lo)) (drop (Z.to_nat lo) arr)).
Proof.
  intros Hlo Hhi. unfold slice, len in *.
  destruct (Z.leb_spec 0 lo); [|lia]. destruct (Z.leb_spec lo hi); [|lia].
  destruct (Z.leb_spec hi (Z.of_nat (length arr))); [|lia]. reflexivity.
Qed.

Lemma counted_next t c step :
  counted t c → StepNumber step = wrap (len t) → counted (t ++ [step]) (incr c).
Proof. intros Hc Hs. apply counted_snoc; [done|]. destruct Hc as [-> _]. done. Qed.

Lemma counted_strictly t c :
  counted t c → len t ≤ 2 ^ 63 → StronglySorted Z.lt (StepNumber <$> t).
Proof.
  intros [_ ->] Hlen. unfold len in Hlen.
  assert (∀ n k, Z.of_nat k + Z.of_nat n ≤ 2 ^ 63 →
            StronglySorted Z.lt ((λ k, wrap (Z.of_nat k)) <$> seq k n)) as Hseq.
  { induction n as [|n IH]; intros k Hk; simpl; constructor.
    - apply IH. lia.
    - apply Forall_forall. intros y Hy. apply list_elem_of_fmap in Hy as (j & -> & Hj).
      apply elem_of_seq in Hj. rewrite !wrap_small; lia. }
  apply Hseq. lia.
Qed.

Section LinearSearch.

Import searching.LinearSearch.

Variables (arr : list Z) (target : Z).

Lemma check_step (i : Z) (r : option Result) t c :
  0 ≤ i < len arr → len t = i + 1 → counted t c →
  ∃ t' ctl, check arr target i r = (t', Returned ctl) ∧
    match ctl with
    | Continue r' => r' = None ∧ len (t ++ t') = i + 1 + 1 ∧ ∃ c', counted (t ++ t') c'
    | Break r' => (∃ m, r' = Some (VMap m, None)) ∧ ∃ c', counted (t ++ t') c'
    end.
Proof.
  intros Hi Hlen Hc. unfold check.
  assert (i + 1 ≤ len arr ∧ 0 ≤ i + 1) as [? ?] by lia.
  rewrite (slice_in_range arr 0 (i + 1)), (slice_in_range arr (i + 1) (len arr)) by lia.
  destruct (lookup_lt_is_Some_2 arr (Z.to_nat i)) as [ai Hai].
  { unfold len in *. lia. }
  rewrite (index_in_range arr i ai) by (done || lia). run.
  destruct (ai =? target); run; eexists _, _; (split; [reflexivity|]); cbn [fst snd].
  - split; [by eexists|]. eexists.
    rewrite (cons_middle _ t [_]), app_assoc.
    apply counted_next; [apply counted_next; [exact Hc|]|].
    + cbn [StepNumber]. by rewrite Hlen.
    + cbn [StepNumber]. unfold len in *. rewrite length_app. simpl. f_equal. lia.
  - split_and!; [done| |].
    + unfold len in *. rewrite length_app. simpl. lia.
    + eexists. apply counted_next; [exact Hc|]. cbn [StepNumber]. by rewrite Hlen.
Qed.

End LinearSearch.

Lemma LinearSearch_run_spec (arr0 : list Z) (parameters : gmap string Value) :
  ∃ t m c,
    searching.LinearSearch.run arr0 parameters = (t, Returned (VMap m, None)) ∧ counted t c.
Proof.
  unfold searching.LinearSearch.run.
  set (target := intParam parameters "target" 5).
  match goal with |- context [types.stepCallback ?st ≫= _] => set (st0 := st) end.
  rewrite bind_emit.
  destruct (for_range_spec
    (λ i (r : option Result) t, r = None ∧ len t = i + 1 ∧ ∃ c, counted t c)
    (λ r t, (∃ m, r = Some (VMap m, None)) ∧ ∃ c, counted t c)
    (searching.LinearSearch.check arr0 target) 0 (len arr0) None [st0])
    as (t & r & Heq & Hpost).
  - split_and!; [done|done|]. exists (incr 0).
    apply (counted_snoc [] 0 st0); [|reflexivity]. split; reflexivity.
  - intros j r t Hj (_ & Hlen & c & Hc). by apply (check_step arr0 target j r t c).
  - rewrite Heq. run.
    destruct Hpost as [(-> & Hlen & c & Hc)|([m ->] & c & Hc)]; run.
    + eexists _, _, _. split; [reflexivity|]. cbn [fst].
      rewrite app_comm_cons. apply counted_next; [exact Hc|].
      cbn [StepNumber]. f_equal. change (st0 :: t) with ([st0] ++ t). rewrite Hlen.
      unfold len. lia.
    + eexists _, _, _. split; [reflexivity|]. cbn [fst]. rewrite app_nil_r. exact Hc.
Qed.

(** ** The registry *)

Lemma NewRegistry_lookup (id : string) (a : AlgorithmExecutor) :
  GetAlgorithm NewRegistry id = Some a ↔ a ∈ registered ∧ ID (GetMetadata a) = id.
Proof.
  unfold GetAlgorithm, NewRegistry, registerAlgorithms, RegisterAlgorithm, registered.
  cbn [entries GetMetadata ID sorting.BubbleSort.New sorting.MergeSort.New
       sorting.QuickSort.New sorting.HeapSort.New sorting.CountingSort.New
       searching.LinearSearch.New searching.BinarySearch.New searching.DFS.New
       searching.BFS.New searching.HashLookup.New
       sorting.BubbleSort.metadata sorting.MergeSort.metadata
       sorting.QuickSort.metadata sorting.HeapSort.metadata sorting.CountingSort.metadata
       searching.LinearSearch.metadata searching.BinarySearch.metadata
       searching.DFS.metadata searching.BFS.metadata searching.HashLookup.metadata].
  split.
  - intros H.
    repeat (rewrite lookup_insert in H; case_decide;
      [injection H as <-; subst id; split; [|reflexivity];
       repeat first [apply list_elem_of_here | apply list_elem_of_further]|]).
    by rewrite lookup_empty in H.
  - intros [Hin <-].
    repeat (apply elem_of_cons in Hin as [->|Hin]; [reflexivity|]).
    by apply elem_of_nil in Hin.
Qed.

(** ** The handlers *)

Lemma itoa_inj (n m : Z) : itoa n = itoa m → n = m.
Proof.
  unfold itoa. intros H. apply DecimalZ.to_int_inj.
  assert (∀ z, NilZero.int_of_string (NilZero.string_of_int (Z.to_int z)) = Some (Z.to_int z))
    as Hround.
  { intros z. apply NilZero.isi; destruct z; simpl; try discriminate;
      intros [= Hnil]; by apply DecimalPos.Unsigned.to_uint_nonnil in Hnil. }
  apply (f_equal NilZero.int_of_string) in H. rewrite !Hround in H. congruence.
Qed.

Lemma ExecuteAlgorithm_accepted h now r response g :
  ExecuteAlgorithm h now r = (response, Some g) →
  ∃ request,
    GetAlgorithm (algorithmRegistry h) (vars_id r) = Some (algorithm g) ∧
    body r = Some request ∧
    ValidateParameters (algorithm g) (ReqParameters request) = None ∧
    response = started ("exec_" +:+ itoa now) ∧
    execution g = {|
      ExecID := "exec_" +:+ itoa now;
      AlgorithmID := vars_id r;
      ExecParameters := ReqParameters request;
      Input := ReqInput request;
      Output := VNil;
      Steps := [];
      Status := StatusRunning |}.
Proof.
  unfold ExecuteAlgorithm.
  destruct (GetAlgorithm _ _) as [a|]; [|discriminate].
  destruct (body r) as [request|]; [|discriminate].
  destruct (ValidateParameters a _) eqn:Hv; [discriminate|].
  intros [= <- <-]. exists request. by split_and!.
Qed.

Lemma execution_ids_equal_iff h now1 now2 r1 r2 response1 response2 g1 g2 :
  ExecuteAlgorithm h now1 r1 = (response1, Some g1) →
  ExecuteAlgorithm h now2 r2 = (response2, Some g2) →
  ExecID (execution g1) = ExecID (execution g2) ↔ now1 = now2.
Proof.
  intros H1 H2.
  apply ExecuteAlgorithm_accepted in H1 as (? & _ & _ & _ & _ & ->).
  apply ExecuteAlgorithm_accepted in H2 as (? & _ & _ & _ & _ & ->).
  cbn [ExecID]. split; [|by intros ->].
  intros [= H]. by apply itoa_inj.
Qed.

(** The step callback, folded over the emitted steps, appends the steps to
    the execution and one envelope per step to the hub. *)
Lemma stepCallback_fold (emitted : list ExecutionStep) (t : Task) :
  foldl (λ t step, api.stepCallback step t) t emitted
  = mkTask
      {| ExecID := ExecID (owned t); AlgorithmID := AlgorithmID (owned t);
         ExecParameters := ExecParameters (owned t); Input := Input (owned t);
         Output := Output (owned t); Steps := Steps (owned t) ++ emitted;
         Status := Status (owned t) |}
      (hub t ++ (stepEnvelope <$> emitted)) (assigned t) (crashed t).
Proof.
  revert t. induction emitted as [|step emitted IH]; intros [[] ? ? ?]; simpl.
  - by rewrite !app_nil_r.
  - rewrite IH. simpl. unfold Broadcast. by rewrite <- !app_assoc.
Qed.

(** What a unit of work leaves behind when [Execute] returns. *)
Lemma executeAlgorithmAsync_returned hub0 a e emitted output err :
  Execute a (Input e) (ExecParameters e) = (emitted, Returned (output, err)) →
  executeAlgorithmAsync hub0 a e
  = mkTask
      {| ExecID := ExecID e; AlgorithmID := AlgorithmID e;
         ExecParameters := ExecParameters e; Input := Input e;
         Output := output; Steps := Steps e ++ emitted;
         Status := match err with Some _ => StatusError | None => StatusCompleted end |}
      (hub0 ++ (stepEnvelope <$> emitted) ++
         [match err with
          | Some reason => errorEnvelope (ExecID e) reason
          | None => completeEnvelope (ExecID e) output (len (Steps e ++ emitted))
          end])
      (match err with
       | Some _ => [StatusCompleted; StatusError]
       | None => [StatusCompleted]
       end)
      false.
Proof.
  intros H. unfold executeAlgorithmAsync. rewrite H, stepCallback_fold.
  destruct err; cbn; unfold Broadcast; by rewrite <- app_assoc.
Qed.

(** What it leaves behind when [Execute] panics. *)
Lemma executeAlgorithmAsync_panicked hub0 a e emitted reason :
  Execute a (Input e) (ExecParameters e) = (emitted, Panicked reason) →
  executeAlgorithmAsync hub0 a e
  = mkTask
      {| ExecID := ExecID e; AlgorithmID := AlgorithmID e;
         ExecParameters := ExecParameters e; Input := Input e;
         Output := Output e; Steps := Steps e ++ emitted;
         Status := Status e |}
      (hub0 ++ (stepEnvelope <$> emitted)) [] true.
Proof.
  intros H. unfold executeAlgorithmAsync. rewrite H, stepCallback_fold. reflexivity.
Qed.

Lemma filter_terminal_steps (emitted : list ExecutionStep) :
  filter (λ m, terminal m = true) (stepEnvelope <$> emitted) = [].
Proof.
  induction emitted as [|s l IH]; [done|]. simpl.
  rewrite filter_cons_False by (cbn; discriminate). exact IH.
Qed.

Lemma ExecuteAlgorithm_accepts h now r a request :
  GetAlgorithm (algorithmRegistry h) (vars_id r) = Some a →
  body r = Some request →
  ValidateParameters a (ReqParameters request) = None →
  ExecuteAlgorithm h now r
  = (started ("exec_" +:+ itoa now),
     Some {| algorithm := a;
             execution := {|
               ExecID := "exec_" +:+ itoa now;
               AlgorithmID := vars_id r;
               ExecParameters := ReqParameters request;
               Input := ReqInput request;
               Output := VNil;
               Steps := [];
               Status := StatusRunning |} |}).
Proof. intros Ha Hb Hv. unfold ExecuteAlgorithm. by rewrite Ha, Hb, Hv. Qed.

(** C1, at the failing input. Two requests of a burst for which
    [time.Now().UnixNano()] gives the same reading are both accepted and
    are given the same execution id: the id is the clock reading and
    nothing else, so ids collide exactly when readings do. *)
Theorem C1_execution_ids_collide :
  let h := NewHandlers NewRegistry in
  let now := 1700000000000000000 in
  ∃ response1 g1 response2 g2,
    ExecuteAlgorithm h now burst_first = (response1, Some g1) ∧
    ExecuteAlgorithm h now burst_second = (response2, Some g2) ∧
    AlgorithmID (execution g1) ≠ AlgorithmID (execution g2) ∧
    ExecID (execution g1) = "exec_1700000000000000000" ∧
    ExecID (execution g2) = "exec_1700000000000000000".
Proof.
  intros h now. eexists _, _, _, _. split_and!.
  - apply ExecuteAlgorithm_accepts with (a := sorting.BubbleSort.New); [|reflexivity..].
    apply NewRegistry_lookup. split; [|reflexivity]. apply list_elem_of_here.
  - apply ExecuteAlgorithm_accepts with (a := searching.BinarySearch.New); [|reflexivity..].
    apply NewRegistry_lookup. split; [|reflexivity].
    do 6 apply list_elem_of_further. apply list_elem_of_here.
  - cbn. discriminate.
  - reflexivity.
  - reflexivity.
Qed.

(** C2, as stated, fails: a unit of work whose [Execute] returns an error
    assigns [execution.Status] twice, [Completed] and then [Error]. *)
Lemma C2_counterexample :
  ¬ (∀ (a : AlgorithmExecutor) (e : AlgorithmExecution),
       ∃ status, assigned (executeAlgorithmAsync [] a e) = [status] ∧
                 terminalStatus status = true).
Proof.
  intros H. destruct (H sorting.BubbleSort.New failing_execution) as (status & Hs & _).
  vm_compute in Hs. discriminate.
Qed.

(** C2, amended. When [Execute] returns, [execution.Status], initialized
    to [Running] by the handler, is assigned terminal values only:
    [Completed] alone when [Execute] returned no error, [Completed] and
    then [Error] when it returned one; the last value assigned is the
    status the execution keeps. *)
Theorem C2_status_assignments hub0 (a : AlgorithmExecutor) (e : AlgorithmExecution)
    emitted output err :
  Execute a (Input e) (ExecParameters e) = (emitted, Returned (output, err)) →
  let t := executeAlgorithmAsync hub0 a e in
  assigned t = match err with
               | Some _ => [StatusCompleted; StatusError]
               | None => [StatusCompleted]
               end ∧
  Forall (λ status, terminalStatus status = true) (assigned t) ∧
  last (assigned t) = Some (Status (owned t)) ∧
  crashed t = false.
Proof.
  intros H t. subst t. rewrite (executeAlgorithmAsync_returned _ _ _ _ _ _ H).
  destruct err; cbn; split_and!; try done; repeat constructor.
Qed.

Lemma C2_status_assignments_witness :
  let t := executeAlgorithmAsync [] sorting.BubbleSort.New failing_execution in
  assigned t = [StatusCompleted; StatusError] ∧
  Forall (λ status, terminalStatus status = true) (assigned t) ∧
  last (assigned t) = Some (Status (owned t)) ∧
  crashed t = false.
Proof.
  apply (C2_status_assignments [] sorting.BubbleSort.New failing_execution []
           VNil (Some "invalid input type, expected []int")).
  reflexivity.
Defined.

(** C4. After [Execute] returns, the hub has received one
    [execution_step] envelope per emitted step, in order, followed by
    exactly one terminal envelope: [execution_error] with the reason when
    [Execute] returned an error, otherwise [execution_complete] with the
    output and the number of steps of the execution, which for an
    execution that the handler created is the number of emitted steps.
    The response to the caller has been fixed before: it is the "started"
    acknowledgement, whatever [Execute] does later. *)
Theorem C4_one_terminal_envelope hub0 (a : AlgorithmExecutor) (e : AlgorithmExecution)
    emitted output err :
  Execute a (Input e) (ExecParameters e) = (emitted, Returned (output, err)) →
  let final := match err with
               | Some reason => errorEnvelope (ExecID e) reason
               | None => completeEnvelope (ExecID e) output (len (Steps e ++ emitted))
               end in
  ∃ sent,
    hub (executeAlgorithmAsync hub0 a e) = hub0 ++ sent ∧
    sent = (stepEnvelope <$> emitted) ++ [final] ∧
    filter (λ m, terminal m = true) sent = [final] ∧
    (∀ h now r response,
       ExecuteAlgorithm h now r = (response, Some {| algorithm := a; execution := e |}) →
       response = started (ExecID e) ∧
       len (Steps e ++ emitted) = len emitted ∧
       received h now r = sent).
Proof.
  intros H final. rewrite (executeAlgorithmAsync_returned _ _ _ _ _ _ H). cbn [hub].
  eexists. split_and!; [reflexivity|reflexivity| |].
  - rewrite filter_app, filter_terminal_steps. subst final. by destruct err.
  - intros h now r response Hacc. unfold received, serve. rewrite Hacc.
    apply ExecuteAlgorithm_accepted in Hacc as (? & _ & _ & _ & -> & He).
    cbn [execution algorithm snd fmap option_fmap option_map].
    rewrite (executeAlgorithmAsync_returned _ _ _ _ _ _ H). cbn [hub app].
    cbn [execution] in He. rewrite He. by split_and!.
Qed.

Lemma C4_one_terminal_envelope_witness :
  ∃ sent,
    hub (executeAlgorithmAsync [] sorting.BubbleSort.New failing_execution) = [] ++ sent ∧
    sent = (stepEnvelope <$> []) ++
             [errorEnvelope "exec_1" "invalid input type, expected []int"] ∧
    filter (λ m, terminal m = true) sent
      = [errorEnvelope "exec_1" "invalid input type, expected []int"] ∧
    (∀ h now r response,
       ExecuteAlgorithm h now r
         = (response, Some {| algorithm := sorting.BubbleSort.New;
                              execution := failing_execution |}) →
       response = started "exec_1" ∧
       len (Steps failing_execution ++ []) = len ([] : list ExecutionStep) ∧
       received h now r = sent).
Proof.
  apply (C4_one_terminal_envelope [] sorting.BubbleSort.New failing_execution []
           VNil (Some "invalid input type, expected []int")).
  reflexivity.
Defined.

(** C7. A request for an id that the registry does not hold is answered
    404 with the text "Algorithm not found": the response names no
    execution id, no execution is created, no unit of work is started and
    the hub receives nothing. *)
Theorem C7_unknown_algorithm (h : Handlers) (now : Z) (r : Request) :
  GetAlgorithm (algorithmRegistry h) (vars_id r) = None →
  ExecuteAlgorithm h now r = (http_Error "Algorithm not found" StatusNotFound, None) ∧
  serve h now r = (http_Error "Algorithm not found" StatusNotFound, None) ∧
  StatusCode (serve h now r).1 = 404 ∧
  received h now r = [].
Proof.
  intros H. unfold received, serve, ExecuteAlgorithm. rewrite H. by split_and!.
Qed.

Lemma C7_unknown_algorithm_witness :
  let h := NewHandlers NewRegistry in
  GetAlgorithm (algorithmRegistry h) (vars_id unknown_request) = None ∧
  ExecuteAlgorithm h 1 unknown_request
    = (http_Error "Algorithm not found" StatusNotFound, None) ∧
  serve h 1 unknown_request = (http_Error "Algorithm not found" StatusNotFound, None) ∧
  StatusCode (serve h 1 unknown_request).1 = 404 ∧
  received h 1 unknown_request = [].
Proof.
  split; [vm_compute; reflexivity|].
  apply (C7_unknown_algorithm (NewHandlers NewRegistry) 1 unknown_request).
  vm_compute. reflexivity.
Defined.

(** ** The algorithms on concrete inputs *)

Lemma last_snoc_action (t : list ExecutionStep) (step : ExecutionStep) :
  Action <$> last (t ++ [step]) = Some (Action step).
Proof. by rewrite last_snoc. Qed.

Lemma sorted_permutation_ascending (n : nat) (l : list Z) :
  Sorted Z.le l → l ≡ₚ ascending n → l = ascending n.
Proof.
  intros Hs Hp. apply (Sorted_unique Z.le); [done|apply ascending_sorted|done].
Qed.

(** C5. On every input array, [BubbleSort.Execute] returns without error
    an array that is non-decreasing and is a rearrangement of the input,
    and the last step it hands to the callback has action ["complete"];
    so it does on the array generated for [array_size = 5], which is
    [1, 2, 3, 4, 5]. *)
Theorem C5_BubbleSort_Execute_sorts (inputArr : list Z) (parameters : gmap string Value) :
  (∃ t arr',
     sorting.BubbleSort.Execute (VInts inputArr) parameters
       = (t, Returned (VInts arr', None)) ∧
     Sorted Z.le arr' ∧ arr' ≡ₚ inputArr ∧
     Action <$> last t = Some "complete") ∧
  (∃ t,
     sorting.BubbleSort.Execute VNil (<["array_size" := VInt 5]> parameters)
       = (t, Returned (VInts [1; 2; 3; 4; 5], None)) ∧
     Action <$> last t = Some "complete").
Proof.
  split.
  - destruct (BubbleSort_run_spec inputArr parameters)
      as (t & arr' & final & c & Heq & Hs & Hp & Ha & _).
    exists (t ++ [final]), arr'. cbn [sorting.BubbleSort.Execute].
    split_and!; [done..|]. by rewrite last_snoc_action, Ha.
  - cbn [sorting.BubbleSort.Execute]. unfold intParam. rewrite lookup_insert_eq.
    change (sorting.generateRandomArray 5)
      with (sorting.generateRandomArray (Z.of_nat 5)).
    rewrite (sorting_generateRandomArray_ascending 5), bind_ret_l.
    destruct (BubbleSort_run_spec (ascending 5) (<["array_size" := VInt 5]> parameters))
      as (t & arr' & final & c & Heq & Hs & Hp & Ha & _).
    apply (sorted_permutation_ascending 5) in Hp as ->; [|done].
    exists (t ++ [final]). split; [exact Heq|]. by rewrite last_snoc_action, Ha.
Qed.

(** C6. On every input array, for a target that does not occur in it,
    [BinarySearch.Execute] returns without error the result map with
    [found = false], [index = -1] and [value = nil]. The target is the
    int under ["target"], 5 when there is none. *)
Theorem C6_BinarySearch_absent_target (inputArr : list Z) (parameters : gmap string Value) :
  intParam parameters "target" 5 ∉ inputArr →
  ∃ t m,
    searching.BinarySearch.Execute (VInts inputArr) parameters
      = (t, Returned (VMap m, None)) ∧
    m !! "found" = Some (VBool false) ∧
    m !! "index" = Some (VInt (-1)) ∧
    m !! "value" = Some VNil.
Proof.
  intros Habsent.
  destruct (BinarySearch_run_spec inputArr parameters) as (t & r & Heq & _ & Hr).
  destruct (Hr Habsent) as [c ->].
  eexists t, _. cbn [searching.BinarySearch.Execute]. split; [exact Heq|].
  split_and!; reflexivity.
Qed.

Lemma C6_BinarySearch_absent_target_witness :
  (intParam (<["target" := VInt 8]> ∅) "target" 5 ∉ [3; 1; 2; 9; 4; 7]) ∧
  (∃ t m,
    searching.BinarySearch.Execute (VInts [3; 1; 2; 9; 4; 7]) (<["target" := VInt 8]> ∅)
      = (t, Returned (VMap m, None)) ∧
    m !! "found" = Some (VBool false) ∧
    m !! "index" = Some (VInt (-1)) ∧
    m !! "value" = Some VNil).
Proof.
  assert (intParam (<["target" := VInt 8]> ∅) "target" 5 ∉ [3; 1; 2; 9; 4; 7]) as H.
  { vm_compute. intros H. repeat (apply elem_of_cons in H as [H|H]; [discriminate|]).
    by apply elem_of_nil in H. }
  split; [exact H|].
  exact (C6_BinarySearch_absent_target [3; 1; 2; 9; 4; 7] (<["target" := VInt 8]> ∅) H).
Defined.

(** The same on the array that is generated when the request carries no
    input: it is [1, ..., size], so any target outside it is reported as
    not found. *)
Lemma BinarySearch_generated_absent_target (n : nat) (parameters : gmap string Value) :
  intParam parameters "array_size" 10 = Z.of_nat n →
  intParam parameters "target" 5 ∉ ascending n →
  ∃ t m,
    searching.BinarySearch.Execute VNil parameters = (t, Returned (VMap m, None)) ∧
    m !! "found" = Some (VBool false) ∧
    m !! "index" = Some (VInt (-1)) ∧
    m !! "value" = Some VNil.
Proof.
  intros Hsize Habsent. cbn [searching.BinarySearch.Execute]. rewrite Hsize.
  rewrite searching_generateRandomArray_ascending, bind_ret_l.
  destruct (BinarySearch_run_spec (ascending n) parameters) as (t & r & Heq & _ & Hr).
  destruct (Hr Habsent) as [c ->].
  eexists t, _. split; [exact Heq|]. split_and!; reflexivity.
Qed.

Example BubbleSort_run_example :
  outcome (sorting.BubbleSort.Execute (VInts [3; 1; 2; 5; 4]) ∅)
    = Returned (VInts [1; 2; 3; 4; 5], None) ∧
  (Action <$> steps (sorting.BubbleSort.Execute (VInts [3; 1; 2]) ∅))
    = ["initialize"; "outer_loop"; "compare"; "swap"; "compare"; "swap";
       "outer_loop"; "compare"; "early_termination"; "complete"].
Proof. split; vm_compute; reflexivity. Qed.

Example sorting_run_examples :
  outcome (sorting.MergeSort.Execute (VInts [3; 1; 2; 0]) ∅)
    = Returned (VInts [0; 1; 2; 3], None) ∧
  outcome (sorting.QuickSort.Execute (VInts [3; 1; 2; 0]) ∅)
    = Returned (VInts [0; 1; 2; 3], None) ∧
  outcome (sorting.HeapSort.Execute (VInts [3; 1; 2; 9; 4; 7]) ∅)
    = Returned (VInts [1; 2; 3; 4; 7; 9], None) ∧
  outcome (sorting.CountingSort.Execute (VInts [3; 1; 2; 0]) ∅)
    = Returned (VInts [0; 1; 2; 3], None) ∧
  outcome (sorting.CountingSort.Execute (VInts []) ∅)
    = Panicked "index out of range".
Proof. split_and!; vm_compute; reflexivity. Qed.

Example searching_run_examples :
  outcome (searching.LinearSearch.Execute (VInts [1; 2; 3]) (<["target" := VInt 3]> ∅))
    = Returned (VMap (object [
        ("found", VBool true); ("index", VInt 2); ("value", VInt 3);
        ("comparisons", VInt 3) ]), None) ∧
  outcome (searching.BinarySearch.Execute (VInts [3; 1; 2; 9; 4; 7]) (<["target" := VInt 9]> ∅))
    = Returned (VMap (object [
        ("found", VBool true); ("index", VInt 5); ("value", VInt 9);
        ("comparisons", VInt 3) ]), None) ∧
  outcome (searching.DFS.Execute VNil ∅)
    = Returned (VMap (object [
        ("found", VBool true); ("target", VInt 5); ("path", VInts [0; 2; 4; 5]);
        ("visited", VBools [true; false; true; false; true; true]) ]), None) ∧
  outcome (searching.BFS.Execute VNil ∅)
    = Returned (VMap (object [
        ("found", VBool true); ("target", VInt 5); ("path", VInts [0; 1; 2; 3; 4; 5]);
        ("visited", VBools [true; true; true; true; true; true]) ]), None) ∧
  outcome (searching.BFS.Execute VNil (<["start_node" := VInt 9]> ∅))
    = Panicked "index out of range" ∧
  outcome (searching.HashLookup.Execute VNil ∅)
    = Returned (VMap (object [
        ("found", VBool true); ("key", VString "key5"); ("value", VString "value5");
        ("hash", VInt 2); ("collisions", VInt 0) ]), None) ∧
  outcome (searching.HashLookup.Execute VNil (<["table_size" := VInt 0]> ∅))
    = Panicked "integer divide by zero".
Proof. split_and!; vm_compute; reflexivity. Qed.

Example graph_traversals_step_numbers :
  stepNumbers (searching.DFS.Execute VNil ∅) = [0; 1; 2; 3; 4; 5; 6; 7; 8] ∧
  stepNumbers (searching.HashLookup.Execute VNil (<["key" := VString "zz"]> ∅))
    = [0; 1; 2; 3; -1].
Proof. split; vm_compute; reflexivity. Qed.

Example runes_example : runes "aé€z" = [97; 233; 8364; 122].
Proof. vm_compute. reflexivity. Qed.

Example BinarySearch_step_numbers :
  stepNumbers (searching.BinarySearch.Execute (VInts [1; 2; 3]) (<["target" := VInt 3]> ∅))
  = [0; 1; 2; 2; 3].
Proof. vm_compute. reflexivity. Qed.

Example HeapSort_step_numbers :
  stepNumbers (sorting.HeapSort.Execute (VInts [3; 1; 2]) ∅)
  = [0; 1; 2; -1; -1; -1; -1; -1].
Proof. vm_compute. reflexivity. Qed.

Example QuickSort_step_numbers :
  stepNumbers (sorting.QuickSort.Execute (VInts [3; 1; 2; 0]) ∅)
  = [0; 1; 2; 3; 4; 5; 6; 2; 3; 4; -1].
Proof. vm_compute. reflexivity. Qed.

(** ** The step numbers of the graph traversals *)

(** A run that emits nothing hands over its outcome only. *)
Lemma bind_silent {A B} (m : Run A) (f : A → Run B) :
  steps m = [] →
  m ≫= f = match outcome m with
           | Returned a => f a
           | Panicked reason => ([], Panicked reason)
           | OutOfFuel => ([], OutOfFuel)
           end.
Proof.
  destruct m as [t o]. unfold steps, outcome. cbn [fst snd]. intros ->.
  unfold mbind, Run_bind, bind. destruct o; [by destruct (f a)|done..].
Qed.

Lemma steps_index {A} (arr : list A) (i : Z) : steps (index arr i) = [].
Proof. unfold index. by destruct (if 0 <=? i then _ else _). Qed.

Lemma steps_store {A} (arr : list A) (i : Z) (x : A) : steps (store arr i x) = [].
Proof. unfold store. by destruct (_ && _). Qed.

Lemma steps_slice {A} (arr : list A) (lo hi : Z) : steps (slice arr lo hi) = [].
Proof. unfold slice. by destruct (_ && _). Qed.

Lemma steps_make {A} (zero : A) (size : Z) : steps (make zero size) = [].
Proof. unfold make. by destruct (size <? 0). Qed.

Lemma steps_bind_silent {A B} (m : Run A) (f : A → Run B) :
  steps m = [] → (∀ a, steps (f a) = []) → steps (m ≫= f) = [].
Proof.
  intros Hm Hf. rewrite (bind_silent m f Hm). destruct (outcome m); [apply Hf|done..].
Qed.

Lemma steps_for_each {A S} (l : list A) (body : A → S → Run S) :
  (∀ x s, steps (body x s) = []) → ∀ s, steps (for_each l body s) = [].
Proof.
  intros Hbody. induction l as [|x l IH]; intros s; [done|].
  cbn [for_each]. by apply steps_bind_silent.
Qed.

Lemma steps_iterate {S} (body : Z → S → Run (Ctl S)) (k : nat) :
  (∀ i s, steps (body i s) = []) → ∀ i s, steps (iterate k i body s) = [].
Proof.
  intros Hbody. induction k as [|k IH]; intros i s; [done|].
  cbn [iterate]. apply steps_bind_silent; [done|]. intros [s'|s']; [apply IH|done].
Qed.

Lemma steps_generateGraph (size : Z) : steps (searching.generateGraph size) = [].
Proof.
  unfold searching.generateGraph. apply steps_bind_silent; [apply steps_make|].
  intros graph. apply steps_iterate. intros i s.
  apply steps_bind_silent; [apply steps_store|done].
Qed.

Lemma steps_push (visited : list bool) (neighbors pending : list Z) :
  steps (for_each neighbors
           (λ neighbor pending,
              seen ← index visited neighbor;
              mret (if negb (seen : bool) then pending ++ [neighbor] else pending))
           pending) = [].
Proof.
  apply steps_for_each. intros x s. apply steps_bind_silent; [apply steps_index|done].
Qed.

Section Traversals.

Import searching.

Variables (graph : list (list Z)) (targetNode : Z).

(** What one iteration of a traversal emits: nothing for a node seen
    before, else the next number, followed by its successor unless
    reading the neighbours has stopped the run. *)
Lemma DFS_visit_steps (v : Traversal) :
  let n := stepNumber v in
  let '(t, o) := DFS.visit graph targetNode v in
  (t = [] ∧
   match o with
   | Returned (Continue v') => stepNumber v' = n ∧ returned v' = None
   | Returned (Break _) => False
   | _ => True
   end) ∨
  (StepNumber <$> t = [n] ∧ match o with Returned _ => False | _ => True end) ∨
  (StepNumber <$> t = [n; incr n] ∧
   match o with
   | Returned (Continue v') => stepNumber v' = incr (incr n) ∧ returned v' = None
   | Returned (Break v') => returned v' ≠ None
   | _ => True
   end).
Proof.
  unfold DFS.visit.
  rewrite (bind_silent (index _ _)) by apply steps_index.
  destruct (outcome (index _ _)) as [current| |]; [|by left..].
  rewrite (bind_silent (slice _ _ _)) by apply steps_slice.
  destruct (outcome (slice _ _ _)) as [stack| |]; [|by left..].
  rewrite (bind_silent (index _ _)) by apply steps_index.
  destruct (outcome (index _ _)) as [[|]| |]; [by left| |by left..].
  rewrite (bind_silent (store _ _ _)) by apply steps_store.
  destruct (outcome (store _ _ _)) as [visited'| |]; [|by left..].
  rewrite bind_emit. destruct (current =? targetNode).
  - rewrite bind_emit. cbn. by right; right.
  - rewrite (bind_silent (index _ _)) by apply steps_index.
    destruct (outcome (index _ _)) as [neighbors| |]; [|by right; left..].
    rewrite (bind_silent (for_each _ _ _)) by apply steps_push.
    destruct (outcome (for_each _ _ _)) as [stack'| |]; [|by right; left..].
    rewrite bind_emit. cbn. by right; right.
Qed.

Lemma BFS_visit_steps (v : Traversal) :
  let n := stepNumber v in
  let '(t, o) := BFS.visit graph targetNode v in
  (t = [] ∧
   match o with
   | Returned (Continue v') => stepNumber v' = n ∧ returned v' = None
   | Returned (Break _) => False
   | _ => True
   end) ∨
  (StepNumber <$> t = [n] ∧ match o with Returned _ => False | _ => True end) ∨
  (StepNumber <$> t = [n; incr n] ∧
   match o with
   | Returned (Continue v') => stepNumber v' = incr (incr n) ∧ returned v' = None
   | Returned (Break v') => returned v' ≠ None
   | _ => True
   end).
Proof.
  unfold BFS.visit.
  rewrite (bind_silent (index _ _)) by apply steps_index.
  destruct (outcome (index _ _)) as [current| |]; [|by left..].
  rewrite (bind_silent (slice _ _ _)) by apply steps_slice.
  destruct (outcome (slice _ _ _)) as [queue| |]; [|by left..].
  rewrite (bind_silent (index _ _)) by apply steps_index.
  destruct (outcome (index _ _)) as [[|]| |]; [by left| |by left..].
  rewrite (bind_silent (store _ _ _)) by apply steps_store.
  destruct (outcome (store _ _ _)) as [visited'| |]; [|by left..].
  rewrite bind_emit. destruct (current =? targetNode).
  - rewrite bind_emit. cbn. by right; right.
  - rewrite (bind_silent (index _ _)) by apply steps_index.
    destruct (outcome (index _ _)) as [neighbors| |]; [|by right; left..].
    rewrite (bind_silent (for_each _ _ _)) by apply steps_push.
    destruct (outcome (for_each _ _ _)) as [queue'| |]; [|by right; left..].
    rewrite bind_emit. cbn. by right; right.
Qed.

End Traversals.

Lemma counted_nil : counted [] 0.
Proof. split; reflexivity. Qed.

Lemma counted_two t c s1 s2 :
  counted t c → StepNumber <$> [s1; s2] = [c; incr c] →
  counted (t ++ [s1; s2]) (incr (incr c)).
Proof.
  intros Hc [= H1 H2]. change [s1; s2] with ([s1] ++ [s2]). rewrite app_assoc.
  apply counted_snoc; [by apply counted_snoc|done].
Qed.

Section TraversalLoop.

Import searching.

Variable visit : Traversal → Run (Ctl Traversal).

Hypothesis visit_steps : ∀ v : Traversal,
  let n := stepNumber v in
  let '(t, o) := visit v in
  (t = [] ∧
   match o with
   | Returned (Continue v') => stepNumber v' = n ∧ returned v' = None
   | Returned (Break _) => False
   | _ => True
   end) ∨
  (StepNumber <$> t = [n] ∧ match o with Returned _ => False | _ => True end) ∨
  (StepNumber <$> t = [n; incr n] ∧
   match o with
   | Returned (Continue v') => stepNumber v' = incr (incr n) ∧ returned v' = None
   | Returned (Break v') => returned v' ≠ None
   | _ => True
   end).

(** Along the loop of a traversal the steps are numbered 0, 1, 2, ...;
    when the loop ends without a result, the counter is the number of
    the next step. *)
Lemma traversal_steps (fuel : nat) : ∀ (v : Traversal) (t : list ExecutionStep),
  counted t (stepNumber v) → returned v = None →
  let '(t', o) := while fuel (λ v, 0 <? len (pending v)) visit v in
  (∃ c, counted (t ++ t') c) ∧
  match o with
  | Returned v' => returned v' = None → counted (t ++ t') (stepNumber v')
  | _ => True
  end.
Proof.
  induction fuel as [|fuel IH]; intros v t Hc Hr; cbn [while].
  { rewrite app_nil_r. split; [by eexists|done]. }
  destruct (0 <? len (pending v)).
  2:{ cbn. rewrite app_nil_r. split; [by eexists|done]. }
  pose proof (visit_steps v) as Hv. cbv zeta in Hv.
  destruct (visit v) as [t1 o1].
  destruct Hv as [[-> Ho]|[[Ht Ho]|[Ht Ho]]].
  - destruct o1 as [[v'|v']| |]; [|done|..].
    + destruct Ho as [Hn Hr']. rewrite <- Hn in Hc.
      specialize (IH v' t Hc Hr').
      change (([], Returned (Continue v')) ≫= _) with (([] : list ExecutionStep, Returned (Continue v')) ≫=
        (λ c : Ctl Traversal, match c with
                              | Continue s' => while fuel (λ v, 0 <? len (pending v)) visit s'
                              | Break s' => ret s'
                              end)).
      rewrite bind_pair. cbn [app fst snd].
      by destruct (while fuel _ visit v').
    + cbn. rewrite app_nil_r. split; [by eexists|done].
    + cbn. rewrite app_nil_r. split; [by eexists|done].
  - destruct t1 as [|s1 [|? ?]]; try discriminate Ht. injection Ht as Ht.
    destruct o1 as [?| |]; [done|..]; cbn; (split; [|done]);
      exists (incr (stepNumber v)); by apply counted_snoc.
  - destruct t1 as [|s1 [|s2 [|? ?]]]; try discriminate Ht.
    pose proof (counted_two t _ s1 s2 Hc Ht) as Hc2.
    destruct o1 as [[v'|v']| |].
    + destruct Ho as [Hn Hr']. rewrite <- Hn in Hc2.
      specialize (IH v' _ Hc2 Hr').
      rewrite bind_pair. cbn [app fst snd].
      destruct (while fuel _ visit v') as [t2 o2]. cbn [fst snd].
      by rewrite <- app_assoc in IH.
    + cbn. split; [by eexists|]. intros Hnone. by destruct Ho.
    + cbn. split; [by eexists|done].
    + cbn. split; [by eexists|done].
Qed.

End TraversalLoop.

(** Whatever the input and the parameters, and however the run ends,
    the traversals number their steps 0, 1, 2, ... *)
Lemma DFS_Execute_counted (input : Value) (parameters : gmap string Value) :
  ∃ c, counted (steps (searching.DFS.Execute input parameters)) c.
Proof.
  unfold searching.DFS.Execute. cbv zeta.
  rewrite (bind_silent (searching.generateGraph _)) by apply steps_generateGraph.
  destruct (outcome (searching.generateGraph _)) as [graph| |];
    [|exists 0; apply counted_nil..].
  match goal with |- context [types.stepCallback ?st ≫= _] => set (st0 := st) end.
  assert (counted [st0] (incr 0)) as Hfirst
    by (apply (counted_snoc [] 0); [apply counted_nil|reflexivity]).
  rewrite bind_emit. unfold steps. cbn [fst].
  rewrite (bind_silent (make _ _)) by apply steps_make.
  destruct (outcome (make _ _)) as [visited| |]; [|by eexists..].
  match goal with |- context [while ?f ?c ?b ?v] =>
    pose proof (traversal_steps b (DFS_visit_steps graph _) f v [st0] Hfirst eq_refl) as Hloop;
    destruct (while f c b v) as [t o]
  end.
  destruct Hloop as [[c Hc] Hnext].
  destruct o as [v| |]; [|by exists c..].
  rewrite bind_pair. destruct (searching.returned v) as [result|] eqn:Hr.
  - cbn. rewrite app_nil_r. by exists c.
  - rewrite bind_emit. cbn [fst snd mret Run_ret ret]. rewrite app_comm_cons.
    eexists. apply counted_snoc; [by apply Hnext|reflexivity].
Qed.

Lemma BFS_Execute_counted (input : Value) (parameters : gmap string Value) :
  ∃ c, counted (steps (searching.BFS.Execute input parameters)) c.
Proof.
  unfold searching.BFS.Execute. cbv zeta.
  rewrite (bind_silent (searching.generateGraph _)) by apply steps_generateGraph.
  destruct (outcome (searching.generateGraph _)) as [graph| |];
    [|exists 0; apply counted_nil..].
  match goal with |- context [types.stepCallback ?st ≫= _] => set (st0 := st) end.
  assert (counted [st0] (incr 0)) as Hfirst
    by (apply (counted_snoc [] 0); [apply counted_nil|reflexivity]).
  rewrite bind_emit. unfold steps. cbn [fst].
  rewrite (bind_silent (make _ _)) by apply steps_make.
  destruct (outcome (make _ _)) as [visited| |]; [|by eexists..].
  match goal with |- context [while ?f ?c ?b ?v] =>
    pose proof (traversal_steps b (BFS_visit_steps graph _) f v [st0] Hfirst eq_refl) as Hloop;
    destruct (while f c b v) as [t o]
  end.
  destruct Hloop as [[c Hc] Hnext].
  destruct o as [v| |]; [|by exists c..].
  rewrite bind_pair. destruct (searching.returned v) as [result|] eqn:Hr.
  - cbn. rewrite app_nil_r. by exists c.
  - rewrite bind_emit. cbn [fst snd mret Run_ret ret]. rewrite app_comm_cons.
    eexists. apply counted_snoc; [by apply Hnext|reflexivity].
Qed.

Lemma BubbleSort_Execute_counted (input : Value) (parameters : gmap string Value) :
  ∃ c, counted (steps (sorting.BubbleSort.Execute input parameters)) c.
Proof.
  assert (∀ arr, ∃ c, counted (steps (sorting.BubbleSort.run arr parameters)) c) as Hrun.
  { intros arr. destruct (BubbleSort_run_spec arr parameters)
      as (t & arr' & final & c & Heq & _ & _ & _ & Hc).
    exists c. by rewrite Heq. }
  destruct input; try (exists 0; apply counted_nil); [|apply Hrun].
  cbn [sorting.BubbleSort.Execute].
  destruct (Z.lt_ge_cases (intParam parameters "array_size" 10) 0) as [Hneg|Hpos].
  - destruct (generateRandomArray_negative _ Hneg) as [-> _].
    exists 0. apply counted_nil.
  - rewrite <- (Z2Nat.id _ Hpos), sorting_generateRandomArray_ascending, bind_ret_l.
    apply Hrun.
Qed.

Lemma LinearSearch_Execute_counted (input : Value) (parameters : gmap string Value) :
  ∃ c, counted (steps (searching.LinearSearch.Execute input parameters)) c.
Proof.
  assert (∀ arr, ∃ c, counted (steps (searching.LinearSearch.run arr parameters)) c) as Hrun.
  { intros arr. destruct (LinearSearch_run_spec arr parameters) as (t & m & c & Heq & Hc).
    exists c. by rewrite Heq. }
  destruct input; try (exists 0; apply counted_nil); [|apply Hrun].
  cbn [searching.LinearSearch.Execute].
  destruct (Z.lt_ge_cases (intParam parameters "array_size" 10) 0) as [Hneg|Hpos].
  - destruct (generateRandomArray_negative _ Hneg) as [_ ->].
    exists 0. apply counted_nil.
  - rewrite <- (Z2Nat.id _ Hpos), searching_generateRandomArray_ascending, bind_ret_l.
    apply Hrun.
Qed.

Example final_step_numbers :
  stepNumbers (sorting.MergeSort.Execute (VInts [3; 1; 2; 0]) ∅)
    = [0; 1; 2; 3; 4; 5; 6; 7; 8; 9; 10; 11; -1] ∧
  stepNumbers (sorting.CountingSort.Execute (VInts [3; 1; 2; 0]) ∅)
    = [0; 1; 2; 3; 4; 5; 6; 7; 9; 10; 11; 12; 13; 14; 15; 16; -1].
Proof. split; vm_compute; reflexivity. Qed.

(** C8, as stated, fails: binary search numbers the step that closes one
    iteration and the step that opens the next with the same number. *)
Lemma C8_counterexample :
  ¬ (∀ id a input parameters,
       GetAlgorithm NewRegistry id = Some a →
       StronglySorted Z.lt (stepNumbers (Execute a input parameters))).
Proof.
  intros H.
  specialize (H "binary_search" searching.BinarySearch.New (VInts [1; 2; 3])
                (<["target" := VInt 3]> ∅)).
  cbn [Execute searching.BinarySearch.New] in H. rewrite BinarySearch_step_numbers in H.
  assert (StronglySorted Z.lt [0; 1; 2; 2; 3]) as Hs.
  { apply H, NewRegistry_lookup. split; [|reflexivity].
    do 6 apply list_elem_of_further. apply list_elem_of_here. }
  apply StronglySorted_inv in Hs as [Hs _].
  apply StronglySorted_inv in Hs as [Hs _].
  apply StronglySorted_inv in Hs as [_ Hs].
  apply Forall_inv in Hs. lia.
Qed.

(** C8, amended. Bubble sort, linear search and the two graph
    traversals number their steps 0, 1, 2, ... in the order of emission
    (in 64-bit arithmetic), whatever the input and the parameters are and
    however the run ends; so the numbers increase strictly along a run
    of at most 2^63 steps. *)
Theorem C8_step_numbers (a : AlgorithmExecutor) (input : Value)
    (parameters : gmap string Value) :
  a ∈ [sorting.BubbleSort.New; searching.LinearSearch.New;
       searching.DFS.New; searching.BFS.New] →
  (∃ c, counted (steps (Execute a input parameters)) c) ∧
  (len (steps (Execute a input parameters)) ≤ 2 ^ 63 →
   StronglySorted Z.lt (stepNumbers (Execute a input parameters))).
Proof.
  intros Ha.
  assert (∃ c, counted (steps (Execute a input parameters)) c) as [c Hc].
  { repeat (apply elem_of_cons in Ha as [->|Ha]); [..|by apply elem_of_nil in Ha].
    - apply BubbleSort_Execute_counted.
    - apply LinearSearch_Execute_counted.
    - apply DFS_Execute_counted.
    - apply BFS_Execute_counted. }
  split; [by exists c|]. intros Hlen. by apply (counted_strictly _ c).
Qed.

Lemma C8_step_numbers_witness :
  (∃ c, counted (steps (Execute searching.DFS.New VNil ∅)) c) ∧
  StronglySorted Z.lt (stepNumbers (Execute searching.DFS.New VNil ∅)).
Proof.
  destruct (C8_step_numbers searching.DFS.New VNil ∅) as [Hc Hs].
  - do 2 apply list_elem_of_further. apply list_elem_of_here.
  - split; [exact Hc|]. apply Hs. by vm_compute.
Defined.

(** C9, as stated, fails in its last part: counting sort has a generator
    of its own, whose array is not sorted when [array_size] exceeds
    [max_value]. *)
Lemma C9_counterexample :
  ¬ (∀ id a parameters arr,
       GetAlgorithm NewRegistry id = Some a →
       startArray (Execute a VNil parameters) = Some (VInts arr) →
       Sorted Z.le arr).
Proof.
  intros H.
  specialize (H "counting_sort" sorting.CountingSort.New
    (<["array_size" := VInt 10]> (<["max_value" := VInt 5]> ∅))
    [1; 2; 3; 4; 5; 1; 2; 3; 4; 5]).
  assert (Sorted Z.le [1; 2; 3; 4; 5; 1; 2; 3; 4; 5]) as Hs.
  { apply H.
    - apply NewRegistry_lookup. split; [|reflexivity].
      do 4 apply list_elem_of_further. apply list_elem_of_here.
    - vm_compute. reflexivity. }
  do 4 apply Sorted_inv in Hs as [Hs _].
  apply Sorted_inv in Hs as [_ Hs]. apply HdRel_inv in Hs. lia.
Qed.

(** C9, amended. For every size [n ≥ 0], both copies of
    [generateRandomArray] return exactly the ascending array
    [1, 2, ..., n]: the shuffle swaps each element with itself. The six
    algorithms that call them (bubble, merge, quick and heap sort, linear
    and binary search), when given no input, therefore work on this
    sorted array. *)
Theorem C9_generateRandomArray_ascending (n : nat) :
  sorting.generateRandomArray (Z.of_nat n) = mret (ascending n) ∧
  searching.generateRandomArray (Z.of_nat n) = mret (ascending n) ∧
  Sorted Z.le (ascending n) ∧
  (∀ i : nat, (i < n)%nat → ascending n !! i = Some (Z.of_nat i + 1)) ∧
  length (ascending n) = n ∧
  (∀ parameters,
     intParam parameters "array_size" 10 = Z.of_nat n →
     sorting.BubbleSort.Execute VNil parameters
       = sorting.BubbleSort.run (ascending n) parameters ∧
     sorting.MergeSort.Execute VNil parameters
       = sorting.MergeSort.run (ascending n) parameters ∧
     sorting.QuickSort.Execute VNil parameters
       = sorting.QuickSort.run (ascending n) parameters ∧
     sorting.HeapSort.Execute VNil parameters
       = sorting.HeapSort.run (ascending n) parameters ∧
     searching.LinearSearch.Execute VNil parameters
       = searching.LinearSearch.run (ascending n) parameters ∧
     searching.BinarySearch.Execute VNil parameters
       = searching.BinarySearch.run (ascending n) parameters).
Proof.
  split_and!.
  - apply sorting_generateRandomArray_ascending.
  - apply searching_generateRandomArray_ascending.
  - apply ascending_sorted.
  - intros i Hi. unfold ascending. rewrite list_lookup_fmap, lookup_seq_lt by done.
    simpl. f_equal. lia.
  - apply length_ascending.
  - intros parameters Hsize.
    cbn [sorting.BubbleSort.Execute sorting.MergeSort.Execute sorting.QuickSort.Execute
         sorting.HeapSort.Execute searching.LinearSearch.Execute
         searching.BinarySearch.Execute].
    rewrite Hsize, sorting_generateRandomArray_ascending,
      searching_generateRandomArray_ascending, !bind_ret_l.
    by split_and!.
Qed.

Lemma C9_generateRandomArray_ascending_witness :
  intParam (<["array_size" := VInt 5]> ∅) "array_size" 10 = Z.of_nat 5 ∧
  sorting.generateRandomArray (Z.of_nat 5) = mret (ascending 5) ∧
  searching.generateRandomArray (Z.of_nat 5) = mret (ascending 5) ∧
  sorting.BubbleSort.Execute VNil (<["array_size" := VInt 5]> ∅)
    = sorting.BubbleSort.run (ascending 5) (<["array_size" := VInt 5]> ∅).
Proof.
  assert (intParam (<["array_size" := VInt 5]> ∅) "array_size" 10 = Z.of_nat 5) as Hsize
    by (vm_compute; reflexivity).
  destruct (C9_generateRandomArray_ascending 5) as (H1 & H2 & _ & _ & _ & H).
  split_and!; [exact Hsize|exact H1|exact H2|].
  exact (proj1 (H (<["array_size" := VInt 5]> ∅) Hsize)).
Defined.

Example ascending_5 : ascending 5 = [1; 2; 3; 4; 5].
Proof. reflexivity. Qed.

(** ** Validation *)

Ltac registered_cases H :=
  apply NewRegistry_lookup in H as [H _]; unfold registered in H;
  repeat (apply elem_of_cons in H as [->|H]); [..|by apply elem_of_nil in H].

Ltac declared_cases H :=
  cbn in H; repeat (apply elem_of_cons in H as [->|H]); [..|by apply elem_of_nil in H].


Ltac unfold_validate :=
  cbn [ValidateParameters sorting.BubbleSort.New sorting.MergeSort.New
       sorting.QuickSort.New sorting.HeapSort.New sorting.CountingSort.New
       searching.LinearSearch.New searching.BinarySearch.New searching.DFS.New
       searching.BFS.New searching.HashLookup.New];
  unfold sorting.BubbleSort.ValidateParameters, sorting.MergeSort.ValidateParameters,
    sorting.QuickSort.ValidateParameters, sorting.HeapSort.ValidateParameters,
    sorting.CountingSort.ValidateParameters, searching.LinearSearch.ValidateParameters,
    searching.BinarySearch.ValidateParameters, searching.DFS.ValidateParameters,
    searching.BFS.ValidateParameters, searching.HashLookup.ValidateParameters,
    checkIntRange.






(** The declared range of a parameter that no check reads is not
    enforced either. *)
Example start_node_not_checked :
  searching.DFS.ValidateParameters (<["start_node" := VInt 25]> ∅) = None.
Proof. vm_compute. reflexivity. Qed.


Lemma bubble_sort_registered :
  GetAlgorithm NewRegistry "bubble_sort" = Some sorting.BubbleSort.New.
Proof. apply NewRegistry_lookup. split; [|reflexivity]. apply list_elem_of_here. Qed.



(** C10. For every registered algorithm, [ValidateParameters] returns no
    error when every declared parameter is absent from the map or holds
    a value that is not of the declared type: each check sits behind a
    type assertion and is skipped when the assertion fails, so that a
    value of the wrong type counts as an absent one. In particular the
    empty map validates, although every algorithm declares a parameter
    that is marked [Required]. *)
Theorem C10_validation_skips (id : string) (a : AlgorithmExecutor) :
  GetAlgorithm NewRegistry id = Some a →
  (∀ parameters,
     (∀ p, p ∈ AlgParameters (GetMetadata a) →
        match parameters !! Name p with
        | Some v => hasDeclaredType (Type_ p) v = false
        | None => True
        end) →
     ValidateParameters a parameters = None) ∧
  (∀ parameters p v,
     p ∈ AlgParameters (GetMetadata a) →
     parameters !! Name p = Some v → hasDeclaredType (Type_ p) v = false →
     ValidateParameters a parameters = ValidateParameters a (delete (Name p) parameters)) ∧
  ValidateParameters a ∅ = None ∧
  (∃ p, p ∈ AlgParameters (GetMetadata a) ∧ Required p = true).
Proof.
  intros Ha. split_and!.
  - intros parameters Hall. rewrite <- Forall_forall in Hall.
    registered_cases Ha; cbn in Hall;
      repeat (apply Forall_cons in Hall as [? Hall]); cbn in *;
      unfold_validate;
      repeat match goal with
        | H : match parameters !! ?k with _ => _ end |- _ =>
            destruct (parameters !! k) as [[]|]; try discriminate H; clear H
        end; reflexivity.
  - intros parameters p v Hp Hlookup Htype.
    registered_cases Ha; declared_cases Hp; cbn in Hlookup, Htype |- *;
      unfold_validate; rewrite ?lookup_delete_eq, ?Hlookup;
      rewrite ?lookup_delete_ne by discriminate;
      destruct v; try discriminate Htype; reflexivity.
  - registered_cases Ha; vm_compute; reflexivity.
  - registered_cases Ha; eexists; (split; [apply list_elem_of_here|reflexivity]).
Qed.

Lemma C10_validation_skips_witness :
  GetAlgorithm NewRegistry "bubble_sort" = Some sorting.BubbleSort.New ∧
  ValidateParameters sorting.BubbleSort.New (<["array_size" := VFloat 0]> ∅) = None ∧
  ValidateParameters sorting.BubbleSort.New ∅ = None.
Proof.
  destruct (C10_validation_skips "bubble_sort" sorting.BubbleSort.New bubble_sort_registered)
    as (Hskip & _ & Hempty & _).
  split; [exact bubble_sort_registered|]. split; [|exact Hempty].
  apply Hskip. intros p Hp.
  cbn in Hp. apply elem_of_cons in Hp as [->|Hp].
  - vm_compute. reflexivity.
  - apply elem_of_cons in Hp as [->|Hp]; [vm_compute; exact I|by apply elem_of_nil in Hp].
Defined.

(** Numbers decoded from a JSON body are [float64]s, never [int]s: a
    range check does not reject what a request carries under its name. *)
Lemma float_not_range_checked parameters name bits lo hi msg :
  parameters !! name = Some (VFloat bits) →
  checkIntRange parameters name lo hi msg = None.
Proof. intros H. unfold checkIntRange. by rewrite H. Qed.

(** For the parameters of a decoded request body no range check fires:
    the only thing validation can reject is the pivot strategy of quick
    sort. *)
Lemma decoded_parameters_validate id a (parameters : gmap string Value) :
  GetAlgorithm NewRegistry id = Some a →
  (∀ name v, parameters !! name = Some v → decoded v) →
  ValidateParameters a parameters = None ∨
  (a = sorting.QuickSort.New ∧
   ∃ strategy, parameters !! "pivot_strategy" = Some (VString strategy) ∧
               strategy ∉ ["first"; "last"; "middle"]).
Proof.
  intros Ha Hdecoded.
  assert (∀ name lo hi msg, checkIntRange parameters name lo hi msg = None) as Hskip.
  { intros name lo hi msg. unfold checkIntRange.
    destruct (parameters !! name) as [v|] eqn:Hv; [|done].
    apply Hdecoded in Hv. by destruct v. }
  registered_cases Ha;
    cbn [ValidateParameters sorting.BubbleSort.New sorting.MergeSort.New
         sorting.QuickSort.New sorting.HeapSort.New sorting.CountingSort.New
         searching.LinearSearch.New searching.BinarySearch.New searching.DFS.New
         searching.BFS.New searching.HashLookup.New];
    unfold sorting.BubbleSort.ValidateParameters, sorting.MergeSort.ValidateParameters,
      sorting.QuickSort.ValidateParameters, sorting.HeapSort.ValidateParameters,
      sorting.CountingSort.ValidateParameters, searching.LinearSearch.ValidateParameters,
      searching.BinarySearch.ValidateParameters, searching.DFS.ValidateParameters,
      searching.BFS.ValidateParameters, searching.HashLookup.ValidateParameters;
    rewrite ?Hskip; try (by left).
  destruct (parameters !! "pivot_strategy") as [[]|] eqn:Hp; try (by left).
  destruct (existsb _ _) eqn:Hex; [by left|]. right. split; [reflexivity|].
  eexists. split; [reflexivity|]. intros Hin.
  apply Bool.not_true_iff_false in Hex. apply Hex, existsb_exists.
  eexists. split; [apply list_elem_of_In; exact Hin|]. by apply bool_decide_eq_true.
Qed.

(** ** Outcomes of runs *)

Lemma returns_eq {A} (m : Run A) (a : A) : returns m a ↔ ∃ t, m = (t, Returned a).
Proof.
  unfold returns, outcome. destruct m as [t o]. simpl. split.
  - intros ->. by exists t.
  - by intros [t' [= _ ->]].
Qed.

Section Returns.

Context {A B : Type}.

Lemma returns_ret (a : A) : returns (mret a) a.
Proof. reflexivity. Qed.

Lemma returns_bind (m : Run A) (f : A → Run B) (a : A) (b : B) :
  returns m a → returns (f a) b → returns (m ≫= f) b.
Proof.
  intros [t ->]%returns_eq [t' Hf]%returns_eq. apply returns_eq.
  exists (t ++ t'). by eapply bind_returned.
Qed.

Lemma returns_inj (m : Run A) (a a' : A) : returns m a → returns m a' → a = a'.
Proof. unfold returns. intros -> [= ->]. done. Qed.

Lemma panics_bind_l (m : Run A) (f : A → Run B) : panics m → panics (m ≫= f).
Proof.
  destruct m as [t o]. intros [r Hr]. simpl in Hr. subst o. by exists r.
Qed.

Lemma panics_bind (m : Run A) (f : A → Run B) (a : A) :
  returns m a → panics (f a) → panics (m ≫= f).
Proof.
  intros [t ->]%returns_eq [r Hr]. destruct (f a) as [t' o] eqn:Hf. simpl in Hr. subst o.
  exists r. by erewrite bind_returned.
Qed.

Lemma panics_not_returns (m : Run A) (a : A) : panics m → ¬ returns m a.
Proof. intros [r Hr]. unfold returns. rewrite Hr. discriminate. Qed.

End Returns.

Lemma returns_emit {B} (step : ExecutionStep) (f : unit → Run B) (b : B) :
  returns (f tt) b → returns (types.stepCallback step ≫= f) b.
Proof. apply returns_bind. reflexivity. Qed.

Lemma panics_emit {B} (step : ExecutionStep) (f : unit → Run B) :
  panics (f tt) → panics (types.stepCallback step ≫= f).
Proof. apply panics_bind. reflexivity. Qed.

(** ** Slices, by total lookup *)

Section SlicesTotal.

Context {A : Type} `{!Inhabited A}.
Implicit Types (arr : list A) (x : A).

Lemma index_total arr (i : nat) :
  (i < length arr)%nat → index arr (Z.of_nat i) = mret (arr !!! i).
Proof. intros H. apply index_lookup. by apply list_lookup_lookup_total_lt. Qed.

Lemma swap_total arr (i j : nat) :
  (i < length arr)%nat → (j < length arr)%nat →
  swap arr (Z.of_nat i) (Z.of_nat j) = mret (<[j := arr !!! i]> (<[i := arr !!! j]> arr)).
Proof.
  intros Hi Hj. unfold swap.
  rewrite (index_total _ j), bind_ret_l by done.
  rewrite (index_total _ i), bind_ret_l by done.
  rewrite store_in_range, bind_ret_l by done.
  rewrite store_in_range by (by rewrite length_insert). done.
Qed.

Lemma slice_total arr (lo hi : nat) :
  (lo ≤ hi ≤ length arr)%nat →
  slice arr (Z.of_nat lo) (Z.of_nat hi) = mret (take (hi - lo) (drop lo arr)).
Proof.
  intros H. unfold slice.
  destruct (Z.leb_spec 0 (Z.of_nat lo)); [|lia].
  destruct (Z.leb_spec (Z.of_nat lo) (Z.of_nat hi)); [|lia].
  destruct (Z.leb_spec (Z.of_nat hi) (Z.of_nat (length arr))); [|lia].
  simpl. rewrite Nat2Z.id. do 3 f_equal. lia.
Qed.

End SlicesTotal.

(** Exchanging two elements rearranges a list. *)
Lemma insert_insert_Permutation {A} `{!Inhabited A} (l : list A) (i j : nat) :
  (i < length l)%nat → (j < length l)%nat →
  <[j := l !!! i]> (<[i := l !!! j]> l) ≡ₚ l.
Proof.
  intros Hi Hj. apply Permutation_insert_swap; by apply list_lookup_lookup_total_lt.
Qed.

(** ** Loops, by outcome *)

Section LoopsReturn.

Context {S : Type}.

Lemma iterate_returns (I : Z → S → Prop) (Q : S → Prop)
    (body : Z → S → Run (Ctl S)) (k : nat) :
  ∀ (i : Z) (s : S),
  I i s →
  (∀ j s, i ≤ j < i + Z.of_nat k → I j s →
     ∃ c, returns (body j s) c ∧
       match c with Continue s' => I (j + 1) s' | Break s' => Q s' end) →
  ∃ s', returns (iterate k i body s) s' ∧ (I (i + Z.of_nat k) s' ∨ Q s').
Proof.
  intros i s HI Hbody.
  destruct (iterate_spec (λ j s _, I j s) (λ s _, Q s) body k i s [] HI)
    as (t' & s' & Heq & Hpost).
  - intros j s1 _ Hj HI1. destruct (Hbody j s1 Hj HI1) as (c & [t' Hc]%returns_eq & Hpost).
    by exists t', c.
  - exists s'. split; [|done]. apply returns_eq. by exists t'.
Qed.

Lemma for_range_returns (I : Z → S → Prop) (Q : S → Prop)
    (body : Z → S → Run (Ctl S)) (lo hi : Z) (s : S) :
  I lo s →
  (∀ j s, lo ≤ j < hi → I j s →
     ∃ c, returns (body j s) c ∧
       match c with Continue s' => I (j + 1) s' | Break s' => Q s' end) →
  ∃ s', returns (for_range lo hi body s) s' ∧ (I (Z.max lo hi) s' ∨ Q s').
Proof.
  intros HI Hbody. unfold for_range.
  destruct (iterate_returns I Q body (Z.to_nat (hi - lo)) lo s HI) as (s' & Hit & Hpost).
  { intros j s1 Hj. apply Hbody. lia. }
  exists s'. split; [exact Hit|].
  replace (Z.max lo hi) with (lo + Z.of_nat (Z.to_nat (hi - lo))) by lia. exact Hpost.
Qed.

Lemma iterate_down_returns (I : Z → S → Prop) (body : Z → S → Run S) (k : nat) :
  ∀ (i : Z) (s : S),
  I i s →
  (∀ j s, i - Z.of_nat k < j ≤ i → I j s → ∃ s', returns (body j s) s' ∧ I (j - 1) s') →
  ∃ s', returns (iterate_down k i body s) s' ∧ I (i - Z.of_nat k) s'.
Proof.
  induction k as [|k IH]; intros i s HI Hbody.
  - exists s. split; [reflexivity|]. by rewrite Z.sub_0_r.
  - destruct (Hbody i s) as (s1 & Hb & HI1); [lia|done|].
    destruct (IH (i - 1) s1 HI1) as (s2 & Hit & HI2).
    { intros j s' Hj. apply Hbody. lia. }
    exists s2. split.
    + simpl. by eapply returns_bind.
    + replace (i - Z.of_nat (Datatypes.S k)) with (i - 1 - Z.of_nat k) by lia. done.
Qed.

Lemma for_down_returns (I : Z → S → Prop) (body : Z → S → Run S) (hi lo : Z) (s : S) :
  I hi s →
  (∀ j s, lo < j ≤ hi → I j s → ∃ s', returns (body j s) s' ∧ I (j - 1) s') →
  ∃ s', returns (for_down hi lo body s) s' ∧ I (Z.min hi lo) s'.
Proof.
  intros HI Hbody. unfold for_down.
  destruct (iterate_down_returns I body (Z.to_nat (hi - lo)) hi s HI) as (s' & Hit & Hpost).
  { intros j s1 Hj. apply Hbody. lia. }
  exists s'. split; [exact Hit|].
  replace (Z.min hi lo) with (hi - Z.of_nat (Z.to_nat (hi - lo))) by lia. exact Hpost.
Qed.

Lemma while_returns (I : S → Prop) (Q : S → Prop)
    (measure : S → nat) (cond : S → bool) (body : S → Run (Ctl S)) (fuel : nat) (s : S) :
  I s → (measure s < fuel)%nat →
  (∀ s, I s → cond s = true →
     ∃ c, returns (body s) c ∧
       match c with
       | Continue s' => I s' ∧ (measure s' < measure s)%nat
       | Break s' => Q s'
       end) →
  ∃ s', returns (while fuel cond body s) s' ∧ ((I s' ∧ cond s' = false) ∨ Q s').
Proof.
  intros HI Hfuel Hbody.
  destruct (while_spec (λ s _, I s) (λ s _, Q s) measure cond body fuel s [] HI Hfuel)
    as (t' & s' & Heq & Hpost).
  - intros s1 _ HI1 Hc. destruct (Hbody s1 HI1 Hc) as (c & [t' Hb]%returns_eq & Hpost).
    by exists t', c.
  - exists s'. split; [|done]. apply returns_eq. by exists t'.
Qed.

End LoopsReturn.

(** The loop rules in the form that suits a loop followed by the rest of
    the run. *)
Section LoopsBind.

Context {S B : Type}.

Lemma for_range_bind (I : Z → S → Prop) (Q : S → Prop) (body : Z → S → Run (Ctl S))
    (lo hi : Z) (s : S) (f : S → Run B) (b : B) :
  I lo s →
  (∀ j s, lo ≤ j < hi → I j s →
     ∃ c, returns (body j s) c ∧
       match c with Continue s' => I (j + 1) s' | Break s' => Q s' end) →
  (∀ s', I (Z.max lo hi) s' ∨ Q s' → returns (f s') b) →
  returns (for_range lo hi body s ≫= f) b.
Proof.
  intros HI Hbody Hf.
  destruct (for_range_returns I Q body lo hi s HI Hbody) as (s' & Hloop & Hpost).
  eapply returns_bind; [exact Hloop|]. by apply Hf.
Qed.

Lemma for_down_bind (I : Z → S → Prop) (body : Z → S → Run S)
    (hi lo : Z) (s : S) (f : S → Run B) (b : B) :
  I hi s →
  (∀ j s, lo < j ≤ hi → I j s → ∃ s', returns (body j s) s' ∧ I (j - 1) s') →
  (∀ s', I (Z.min hi lo) s' → returns (f s') b) →
  returns (for_down hi lo body s ≫= f) b.
Proof.
  intros HI Hbody Hf.
  destruct (for_down_returns I body hi lo s HI Hbody) as (s' & Hloop & Hpost).
  eapply returns_bind; [exact Hloop|]. by apply Hf.
Qed.

Lemma while_bind (I : S → Prop) (Q : S → Prop) (measure : S → nat) (cond : S → bool)
    (body : S → Run (Ctl S)) (fuel : nat) (s : S) (f : S → Run B) (b : B) :
  I s → (measure s < fuel)%nat →
  (∀ s, I s → cond s = true →
     ∃ c, returns (body s) c ∧
       match c with
       | Continue s' => I s' ∧ (measure s' < measure s)%nat
       | Break s' => Q s'
       end) →
  (∀ s', (I s' ∧ cond s' = false) ∨ Q s' → returns (f s') b) →
  returns (while fuel cond body s ≫= f) b.
Proof.
  intros HI Hfuel Hbody Hf.
  destruct (while_returns I Q measure cond body fuel s HI Hfuel Hbody) as (s' & Hloop & Hpost).
  eapply returns_bind; [exact Hloop|]. by apply Hf.
Qed.

End LoopsBind.

(** A loop panics when its body panics at some index and does not leave
    the loop before. *)
Section LoopsPanic.

Context {S : Type}.

Lemma iterate_panics (body : Z → S → Run (Ctl S)) (m : nat) : ∀ (k : nat) (i : Z) (s : S),
  (m < k)%nat →
  (∀ j s, i ≤ j < i + Z.of_nat m →
     panics (body j s) ∨ ∃ s', returns (body j s) (Continue s')) →
  (∀ s, panics (body (i + Z.of_nat m) s)) →
  panics (iterate k i body s).
Proof.
  induction m as [|m IH]; intros k i s Hk Hbefore Hat.
  - destruct k as [|k]; [lia|]. simpl. apply panics_bind_l.
    specialize (Hat s). by rewrite Z.add_0_r in Hat.
  - destruct k as [|k]; [lia|]. simpl.
    destruct (Hbefore i s) as [Hp|[s' Hr]]; [lia|by apply panics_bind_l|].
    eapply panics_bind; [exact Hr|]. apply IH; [lia| |].
    + intros j s1 Hj. apply Hbefore. lia.
    + intros s1. replace (i + 1 + Z.of_nat m) with (i + Z.of_nat (Datatypes.S m)) by lia.
      apply Hat.
Qed.

Lemma for_range_panics (body : Z → S → Run (Ctl S)) (lo hi p : Z) (s : S) :
  lo ≤ p < hi →
  (∀ j s, lo ≤ j < p → panics (body j s) ∨ ∃ s', returns (body j s) (Continue s')) →
  (∀ s, panics (body p s)) →
  panics (for_range lo hi body s).
Proof.
  intros Hp Hbefore Hat. unfold for_range.
  apply (iterate_panics body (Z.to_nat (p - lo))); [lia| |].
  - intros j s1 Hj. apply Hbefore. lia.
  - intros s1. replace (lo + Z.of_nat (Z.to_nat (p - lo))) with p by lia. apply Hat.
Qed.

End LoopsPanic.

Lemma returns_or_panics_index {A} (arr : list A) (i : Z) :
  panics (index arr i) ∨ ∃ x, index arr i = mret x ∧ 0 ≤ i < len arr.
Proof.
  destruct (decide (0 ≤ i < len arr)) as [Hi|Hi].
  - right. unfold len in Hi. destruct (lookup_lt_is_Some_2 arr (Z.to_nat i)) as [x Hx]; [lia|].
    exists x. split; [|done]. apply index_in_range; [lia|done].
  - left. rewrite index_out_of_range by lia. by eexists.
Qed.

(** ** Heap sort *)

Section HeapSort.

Import sorting.HeapSort.

Implicit Types (a : list Z) (n lo i j k : nat).

Lemma exchanged_lookup a i j m :
  (i < length a)%nat → (j < length a)%nat →
  exchanged a i j !!! m =
    if decide (m = j) then a !!! i else if decide (m = i) then a !!! j else a !!! m.
Proof.
  intros Hi Hj. unfold exchanged.
  destruct (decide (m = j)) as [->|Hmj].
  - by rewrite list_lookup_total_insert_eq by (by rewrite length_insert).
  - rewrite list_lookup_total_insert_ne by done.
    destruct (decide (m = i)) as [->|Hmi].
    + by rewrite list_lookup_total_insert_eq.
    + by rewrite list_lookup_total_insert_ne.
Qed.

Lemma exchanged_length a i j : length (exchanged a i j) = length a.
Proof. unfold exchanged. by rewrite !length_insert. Qed.

Lemma exchanged_Permutation a i j :
  (i < length a)%nat → (j < length a)%nat → exchanged a i j ≡ₚ a.
Proof. apply insert_insert_Permutation. Qed.

Lemma swap_exchanged a i j :
  (i < length a)%nat → (j < length a)%nat →
  swap a (Z.of_nat i) (Z.of_nat j) = mret (exchanged a i j).
Proof. apply swap_total. Qed.

Lemma child_max_cases a n c g :
  let m := child_max a n c g in
  (m = g ∨ (m = c ∧ (c < n)%nat ∧ a !!! g < a !!! c)) ∧
  a !!! g ≤ a !!! m ∧ ((c < n)%nat → a !!! c ≤ a !!! m).
Proof.
  unfold child_max. destruct (Nat.ltb_spec c n); simpl.
  - destruct (Z.ltb_spec (a !!! g) (a !!! c)); split_and!; lia.
  - split_and!; lia.
Qed.

Lemma largest_cases a n i :
  (i < n)%nat →
  let g := largest a n i in
  (g = i ∨ g = 2 * i + 1 ∨ g = 2 * i + 2)%nat ∧ (g < n)%nat ∧
  (g ≠ i → a !!! i < a !!! g) ∧ a !!! i ≤ a !!! g ∧
  ((2 * i + 1 < n)%nat → a !!! (2 * i + 1)%nat ≤ a !!! g) ∧
  ((2 * i + 2 < n)%nat → a !!! (2 * i + 2)%nat ≤ a !!! g).
Proof.
  intros Hi. unfold largest.
  pose proof (child_max_cases a n (2 * i + 1) i) as H1.
  pose proof (child_max_cases a n (2 * i + 2) (child_max a n (2 * i + 1) i)) as H2.
  cbv zeta in H1, H2. revert H1 H2.
  generalize (child_max a n (2 * i + 1) i). intros g1.
  generalize (child_max a n (2 * i + 2) g1). intros g2 (H1 & H1a & H1b) (H2 & H2a & H2b).
  cbv zeta.
  destruct H1 as [->|(-> & ? & ?)], H2 as [->|(-> & ? & ?)];
    split_and!; try lia; intros; try lia; auto.
Qed.

(** The two comparisons of [heapify] compute [largest]. *)
Lemma heapify_compare a n (c g : nat) :
  (g < length a)%nat → (n ≤ length a)%nat →
  (if Z.of_nat c <? Z.of_nat n then
     al ← index a (Z.of_nat c);
     ag ← index a (Z.of_nat g);
     mret (if ag <? al then Z.of_nat c else Z.of_nat g)
   else mret (Z.of_nat g)) = mret (Z.of_nat (child_max a n c g)).
Proof.
  intros Hg Hn. unfold child_max.
  destruct (Z.ltb_spec (Z.of_nat c) (Z.of_nat n)), (Nat.ltb_spec c n); try lia;
    cbn [andb]; [|done].
  rewrite (index_total a c), bind_ret_l by lia.
  rewrite (index_total a g), bind_ret_l by lia.
  by destruct (a !!! g <? a !!! c).
Qed.

Lemma root_largest a n m : heap_from a n 0 → (m < n)%nat → a !!! m ≤ a !!! 0%nat.
Proof.
  intros Hheap. induction m as [m IH] using lt_wf_ind. intros Hm.
  destruct m as [|m]; [lia|].
  set (p := (m / 2)%nat).
  assert (S m = 2 * p + 1 ∨ S m = 2 * p + 2)%nat as Hc.
  { unfold p. pose proof (Nat.div_mod_eq m 2). pose proof (Nat.mod_upper_bound m 2). lia. }
  assert (p < S m)%nat as Hp by lia.
  pose proof (Hheap p ltac:(lia) (S m) Hc Hm). specialize (IH p Hp ltac:(lia)). lia.
Qed.

Lemma sift_done a n lo k :
  (k < n)%nat → sift_inv a n lo k → largest a n k = k → heap_from a n lo.
Proof.
  intros Hk [Hdom _] Hg j Hj. destruct (decide (j = k)) as [->|Hne]; [|by apply Hdom].
  destruct (largest_cases a n k Hk) as (_ & _ & _ & _ & Hl & Hr). rewrite Hg in Hl, Hr.
  intros c [->| ->] Hc; auto.
Qed.

Lemma sift_swap a n lo k :
  (lo ≤ k < n)%nat → (n ≤ length a)%nat → sift_inv a n lo k → largest a n k ≠ k →
  sift_inv (exchanged a k (largest a n k)) n lo (largest a n k).
Proof.
  intros Hk Hn [Hdom Hup] Hne.
  destruct (largest_cases a n k) as (Hg & Hgn & Hlt & Hge & Hl & Hr); [lia|].
  set (g := largest a n k) in *. specialize (Hlt Hne).
  assert (g = 2 * k + 1 ∨ g = 2 * k + 2)%nat as Hchild by lia.
  split.
  - intros j Hj Hjg c Hc Hcn.
    rewrite !exchanged_lookup by lia.
    destruct (decide (j = k)) as [->|Hjk].
    + (* the node that received the largest element *)
      destruct (decide (k = g)); [lia|]. destruct (decide (c = g)) as [->|Hcg]; [lia|].
      destruct (decide (c = k)); [lia|].
      destruct Hc as [->| ->]; [apply Hl|apply Hr]; done.
    + destruct (decide (j = g)); [done|].
      destruct (decide (c = g)) as [->|Hcg]; [lia|].
      destruct (decide (c = k)) as [->|Hck].
      * (* the parent of [k] *)
        apply (Hup j g); [lia|done|done|done].
      * apply (Hdom j); [lia|done|done|done].
  - intros p c Hp Hgp Hc Hcn.
    assert (p = k) as -> by lia.
    rewrite !exchanged_lookup by lia.
    destruct (decide (c = g)); [lia|]. destruct (decide (c = k)); [lia|].
    destruct (decide (k = g)); [lia|]. rewrite decide_True by done.
    apply (Hdom g); [lia|lia|done|done].
Qed.

(** [heapify] sifts the element at [k] down until the heap property
    holds from [lo] on; it touches the first [n] elements only. *)
Lemma heapify_spec (showHeapStructure : bool) (stepNumber : Z) fuel : ∀ a n lo k,
  (lo ≤ k < n)%nat → (n ≤ length a)%nat → Z.of_nat n < 2 ^ 62 → (n - k ≤ fuel)%nat →
  sift_inv a n lo k →
  ∃ a', returns (heapify fuel a (Z.of_nat n) (Z.of_nat k) showHeapStructure stepNumber) a' ∧
    a' ≡ₚ a ∧ length a' = length a ∧
    (∀ q, (n ≤ q)%nat → a' !!! q = a !!! q) ∧
    (∀ B, (∀ m, (m < n)%nat → a !!! m ≤ B) → ∀ m, (m < n)%nat → a' !!! m ≤ B) ∧
    heap_from a' n lo.
Proof.
  induction fuel as [|fuel IH]; intros a n lo k Hk Hn Hsmall Hfuel Hinv; [lia|].
  cbn [heapify].
  rewrite (wrap_small (2 * Z.of_nat k)) by lia.
  rewrite (wrap_small (2 * Z.of_nat k + 1)), (wrap_small (2 * Z.of_nat k + 2)) by lia.
  replace (2 * Z.of_nat k + 1) with (Z.of_nat (2 * k + 1)) by lia.
  replace (2 * Z.of_nat k + 2) with (Z.of_nat (2 * k + 2)) by lia.
  destruct (largest_cases a n k) as (Hg & Hgn & _); [lia|].
  assert (child_max a n (2 * k + 1) k < n)%nat as Hg1.
  { destruct (child_max_cases a n (2 * k + 1) k) as ([->|[-> [? _]]] & _); lia. }
  destruct (decide (largest a n k = k)) as [Heq|Hne].
  - exists a. split_and!; [|done|done|done|by intros B HB; apply HB|
      apply (sift_done a n lo k); [lia|done|done]].
    eapply (returns_bind _ _ tt).
    { clear IH. destruct showHeapStructure; [|reflexivity].
      rewrite (index_total a k), bind_ret_l by lia. reflexivity. }
    rewrite (heapify_compare a n (2 * k + 1) k), bind_ret_l by lia.
    rewrite (heapify_compare a n (2 * k + 2)), bind_ret_l by lia.
    fold (largest a n k). rewrite Heq, Z.eqb_refl. reflexivity.
  - set (g := largest a n k) in *.
    destruct (IH (exchanged a k g) n lo g) as (a' & Hret & Hperm & Hlen & Hrest & Hbound & Hheap).
    { lia. } { rewrite exchanged_length. lia. } { done. } { lia. }
    { by apply sift_swap. }
    exists a'. split_and!.
    + eapply (returns_bind _ _ tt).
      { clear IH Hret. destruct showHeapStructure; [|reflexivity].
        rewrite (index_total a k), bind_ret_l by lia. reflexivity. }
      rewrite (heapify_compare a n (2 * k + 1) k), bind_ret_l by lia.
      rewrite (heapify_compare a n (2 * k + 2)), bind_ret_l by lia.
      fold (largest a n k). fold g.
      destruct (Z.eqb_spec (Z.of_nat g) (Z.of_nat k)); [lia|]. cbn [negb].
      rewrite swap_exchanged by lia. rewrite bind_ret_l.
      eapply (returns_bind _ _ tt); [|exact Hret].
      clear IH Hret. destruct showHeapStructure; [|reflexivity].
      rewrite (index_total _ g), bind_ret_l by (rewrite exchanged_length; lia).
      rewrite (index_total _ k), bind_ret_l by (rewrite exchanged_length; lia).
      reflexivity.
    + rewrite Hperm. apply exchanged_Permutation; lia.
    + by rewrite Hlen, exchanged_length.
    + intros q Hq. rewrite Hrest by done. rewrite exchanged_lookup by lia.
      rewrite !decide_False by lia. done.
    + intros B HB. apply Hbound. intros m Hm. rewrite exchanged_lookup by lia.
      repeat case_decide; apply HB; lia.
    + done.
Qed.

End HeapSort.

Lemma Sorted_lookup_total (a : list Z) :
  (∀ p q : nat, (p ≤ q < length a)%nat → a !!! p ≤ a !!! q) → Sorted Z.le a.
Proof.
  intros H. apply StronglySorted_Sorted. induction a as [|x a IH]; [constructor|].
  constructor.
  - apply IH. intros p q Hpq. apply (H (S p) (S q)). simpl. lia.
  - apply Forall_lookup. intros i y Hy.
    assert (i < length a)%nat by (by eapply lookup_lt_Some).
    specialize (H 0%nat (S i) ltac:(simpl; lia)). simpl in H.
    by rewrite (list_lookup_total_correct _ _ _ Hy) in H.
Qed.

(** The whole sort returns a sorted rearrangement of [arr]. *)
Lemma HeapSort_run_spec (arr : list Z) (parameters : gmap string Value) :
  len arr < 2 ^ 62 →
  ∃ arr', returns (sorting.HeapSort.run arr parameters) (VInts arr', None) ∧
    Sorted Z.le arr' ∧ arr' ≡ₚ arr.
Proof.
  intros Hsmall. unfold sorting.HeapSort.run, len in *.
  set (show := boolParam parameters "show_heap_structure" true).
  set (n := length arr) in *.
  (* Build max heap *)
  destruct (for_down_returns
    (λ j a, -1 ≤ j ∧ length a = n ∧ a ≡ₚ arr ∧ heap_from a n (Z.to_nat (j + 1)))
    (λ i sortedArr, sorting.HeapSort.heapify (S n) sortedArr (Z.of_nat n) i show 2)
    (Z.quot (Z.of_nat n) 2 - 1) (-1) arr) as (a1 & Hbuild & _ & Hlen1 & Hperm1 & Hheap1).
  { assert (0 ≤ Z.quot (Z.of_nat n) 2) by (apply Z.quot_pos; lia).
    split_and!; [lia|done|done|].
    intros j Hj c Hc Hcn.
    assert (Z.of_nat n = 2 * (Z.of_nat n ÷ 2) + Z.rem (Z.of_nat n) 2) as Hdiv
      by (apply Z.quot_rem'; lia).
    assert (0 ≤ Z.rem (Z.of_nat n) 2 < 2) by (apply Z.rem_bound_pos; lia). lia. }
  { intros j a Hj (_ & Hlen & Hperm & Hheap).
    assert (Z.of_nat n = 2 * (Z.of_nat n ÷ 2) + Z.rem (Z.of_nat n) 2) as Hdiv
      by (apply Z.quot_rem'; lia).
    assert (0 ≤ Z.rem (Z.of_nat n) 2 < 2) by (apply Z.rem_bound_pos; lia).
    destruct (heapify_spec show 2 (S n) a n (Z.to_nat j) (Z.to_nat j))
      as (a' & Hret & Hperm' & Hlen' & _ & _ & Hheap'); [lia..| |].
    { split; [|intros; lia].
      intros m Hm Hne. apply Hheap. lia. }
    exists a'. rewrite Z2Nat.id in Hret by lia. split; [done|].
    split_and!; [lia|congruence|by rewrite Hperm'|].
    replace (Z.to_nat (j - 1 + 1)) with (Z.to_nat j) by lia. done. }
  (* Extract elements from heap one by one *)
  destruct (for_down_returns
    (λ j a, -1 ≤ j ∧ length a = n ∧ a ≡ₚ arr ∧ heap_from a (Z.to_nat (j + 1)) 0 ∧ settled a j)
    (λ i sortedArr,
       sortedArr ← swap sortedArr 0 i;
       extracted ← index sortedArr i;
       remaining ← slice sortedArr 0 i;
       types.stepCallback {|
         StepNumber := -1;
         Action := "extract_max";
         Data := object [
           ("array", VInts sortedArr);
           ("extracted", VInt extracted);
           ("heap_size", VInt i);
           ("remaining", VInts remaining) ];
         Message := "Extracted max element: " +:+ itoa extracted |};;
       sorting.HeapSort.heapify (S n) sortedArr i 0 show (-1))
    (Z.of_nat n - 1) 0 a1) as (a2 & Hextract & _ & Hlen2 & Hperm2 & _ & Hsettled).
  { split_and!; [lia|done|done| |].
    - replace (Z.min (Z.quot (Z.of_nat n) 2 - 1) (-1)) with (-1) in Hheap1.
      2:{ assert (0 ≤ Z.quot (Z.of_nat n) 2) by (apply Z.quot_pos; lia). lia. }
      replace (Z.to_nat (Z.of_nat n - 1 + 1)) with n by lia. exact Hheap1.
    - intros p q Hpq Hq. unfold len in Hq. lia. }
  { intros j a Hj (_ & Hlen & Hperm & Hheap & Hsettled).
    assert (∃ k : nat, j = Z.of_nat k) as [k ->] by (exists (Z.to_nat j); lia).
    replace (Z.to_nat (Z.of_nat k + 1)) with (S k) in Hheap by lia.
    assert (0 < k < n)%nat as Hk by lia.
    set (a' := exchanged a 0 k).
    assert (length a' = n) as Hlen' by (unfold a'; by rewrite exchanged_length).
    destruct (heapify_spec show (-1) (S n) a' k 0%nat 0%nat)
      as (a'' & Hret & Hperm'' & Hlen'' & Hrest & Hbound & Hheap''); [lia..| |].
    { split; [|intros; lia].
      intros m Hm Hne c Hc Hcn. unfold a'. rewrite !exchanged_lookup by lia.
      rewrite !decide_False by lia. apply (Hheap m); [lia|done|lia]. }
    exists a''. split.
    - change 0 with (Z.of_nat 0).
      rewrite (swap_exchanged a 0 k), bind_ret_l by lia. fold a'.
      rewrite (index_total a' k), bind_ret_l by lia.
      rewrite (slice_total a' 0 k), bind_ret_l by lia.
      apply returns_emit. exact Hret.
    - split_and!; [lia|congruence| |..].
      + rewrite Hperm''. unfold a'. rewrite exchanged_Permutation by lia. done.
      + replace (Z.to_nat (Z.of_nat k - 1 + 1)) with k by lia. done.
      + assert (∀ m, (m < k)%nat → a'' !!! m ≤ a !!! 0%nat) as Hprefix.
        { apply Hbound. intros m Hm. unfold a'. rewrite exchanged_lookup by lia.
          repeat case_decide; apply (root_largest a (S k)); (done || lia). }
        assert (∀ q, (k ≤ q)%nat → a'' !!! q = if decide (q = k) then a !!! 0%nat else a !!! q)
          as Hsuffix.
        { intros q Hq. rewrite Hrest by done. unfold a'. rewrite exchanged_lookup by lia.
          repeat case_decide; (done || lia). }
        intros p q Hpq Hq. unfold len in Hq. rewrite Hlen'' in Hq.
        rewrite (Hsuffix q) by lia.
        destruct (decide (q = k)) as [->|Hqk].
        * destruct (decide (p = k)) as [->|Hpk].
          -- rewrite Hsuffix by lia. by rewrite decide_True.
          -- apply Hprefix. lia.
        * assert (a !!! 0%nat ≤ a !!! q) as Hroot.
          { apply Hsettled; [lia|unfold len; lia]. }
          destruct (Nat.lt_ge_cases p k) as [Hp|Hp].
          -- specialize (Hprefix p Hp). lia.
          -- rewrite Hsuffix by done. case_decide; [done|].
             apply Hsettled; [lia|unfold len; lia]. }
  exists a2. split_and!.
  - do 2 apply returns_emit.
    eapply returns_bind; [exact Hbuild|].
    eapply returns_bind; [exact Hextract|].
    apply returns_emit. reflexivity.
  - apply Sorted_lookup_total. intros p q Hpq.
    destruct (decide (q = 0%nat)) as [->|Hq0].
    + by replace p with 0%nat by lia.
    + apply Hsettled; [lia|unfold len; lia].
  - done.
Qed.

(** ** Slices inside a larger slice *)

Section SlicesMiddle.

Context {A : Type}.
Implicit Types (pre seg post : list A).

Lemma slice_middle pre seg post :
  slice (pre ++ seg ++ post) (len pre) (len pre + len seg) = mret seg.
Proof.
  unfold slice, len.
  destruct (Z.leb_spec 0 (Z.of_nat (length pre))); [|lia].
  destruct (Z.leb_spec (Z.of_nat (length pre)) (Z.of_nat (length pre) + Z.of_nat (length seg)));
    [|lia].
  rewrite !length_app.
  destruct (Z.leb_spec (Z.of_nat (length pre) + Z.of_nat (length seg))
              (Z.of_nat (length pre + (length seg + length post)))); [|lia].
  cbn [andb]. rewrite Nat2Z.id, drop_app_length.
  replace (Z.to_nat (Z.of_nat (length pre) + Z.of_nat (length seg) - Z.of_nat (length pre)))
    with (length seg) by lia.
  by rewrite take_app_length.
Qed.

Lemma slice_first pre seg post (lo hi : Z) :
  lo = len pre → hi = len pre + len seg → slice (pre ++ seg ++ post) lo hi = mret seg.
Proof. intros -> ->. apply slice_middle. Qed.

Lemma slice_second pre seg1 seg2 post (lo hi : Z) :
  lo = len pre + len seg1 → hi = len pre + len seg1 + len seg2 →
  slice (pre ++ seg1 ++ seg2 ++ post) lo hi = mret seg2.
Proof.
  intros -> ->. rewrite (app_assoc pre seg1).
  replace (len pre + len seg1) with (len (pre ++ seg1))
    by (unfold len; rewrite length_app; lia).
  apply slice_middle.
Qed.

Lemma store_middle pre (x y : A) post :
  store (pre ++ x :: post) (len pre) y = mret (pre ++ y :: post).
Proof.
  unfold len. rewrite store_in_range by (rewrite length_app; simpl; lia).
  by rewrite insert_app_r_alt, Nat.sub_diag by lia.
Qed.

End SlicesMiddle.

(** ** Merge sort *)

Lemma sorted_drop_le (l : list Z) (n : nat) (y : Z) :
  StronglySorted Z.le l → (n < length l)%nat → y ∈ drop (S n) l → l !!! n ≤ y.
Proof.
  intros Hl Hn Hy. rewrite <- (take_drop n l) in Hl.
  apply StronglySorted_app in Hl as (_ & _ & Hs).
  rewrite (drop_S l (l !!! n) n) in Hs by (by apply list_lookup_lookup_total_lt).
  apply StronglySorted_inv in Hs as [_ Hall]. rewrite Forall_forall in Hall. by apply Hall.
Qed.

Section MergeSort.

Import sorting.MergeSort.

(** [merge] replaces two adjacent sorted runs by their sorted merge and
    leaves the rest of the slice as it is. *)
Lemma merge_spec (pre L R post : list Z) (left mid right stepNumber0 : Z) :
  left = len pre → mid = len pre + len L - 1 → right = len pre + len L + len R - 1 →
  StronglySorted Z.le L → StronglySorted Z.le R →
  ∃ out,
    returns (merge (pre ++ L ++ R ++ post) left mid right stepNumber0) (pre ++ out ++ post) ∧
    out ≡ₚ L ++ R ∧ StronglySorted Z.le out.
Proof.
  intros -> -> -> HL HR. unfold merge.
  replace (len pre + len L - 1 - len pre + 1) with (Z.of_nat (length L)) by (unfold len; lia).
  replace (len pre + len L + len R - 1 - (len pre + len L - 1)) with (Z.of_nat (length R))
    by (unfold len; lia).
  rewrite !make_length, !bind_ret_l.
  replace (len pre + len L - 1 + 1) with (len pre + len L) by lia.
  replace (len pre + len L + len R - 1 + 1) with (len (pre ++ L) + len R)
    by (unfold len; rewrite length_app; lia).
  rewrite (slice_middle pre L (R ++ post)), bind_ret_l.
  replace (len pre + len L) with (len (pre ++ L)) by (unfold len; rewrite length_app; lia).
  rewrite (app_assoc pre L), (slice_middle (pre ++ L) R post), bind_ret_l.
  rewrite <- (app_assoc pre L).
  pose (Inv := λ v : Vars, ∃ (out : list Z) (ni nj : nat),
    arr v = pre ++ out ++ drop (length out) (L ++ R) ++ post ∧
    k v = len pre + len out ∧ i v = Z.of_nat ni ∧ j v = Z.of_nat nj ∧
    (ni ≤ length L)%nat ∧ (nj ≤ length R)%nat ∧ length out = (ni + nj)%nat ∧
    out ≡ₚ take ni L ++ take nj R ∧ StronglySorted Z.le out ∧
    (∀ x y, x ∈ out → y ∈ drop ni L ++ drop nj R → x ≤ y)).
  assert (∀ out y, (length out < length L + length R)%nat →
    store (pre ++ out ++ drop (length out) (L ++ R) ++ post) (len pre + len out) y
    = mret (pre ++ (out ++ [y]) ++ drop (length (out ++ [y])) (L ++ R) ++ post)) as Hstore.
  { intros out y Hlen.
    destruct (drop (length out) (L ++ R)) as [|x rest] eqn:Hdrop.
    { apply (f_equal length) in Hdrop. rewrite length_drop, length_app in Hdrop.
      simpl in Hdrop. lia. }
    replace (drop (length (out ++ [y])) (L ++ R)) with rest.
    2:{ rewrite length_app. simpl. rewrite <- drop_drop, Hdrop. done. }
    rewrite (app_assoc pre out). replace (len pre + len out) with (len (pre ++ out))
      by (unfold len; rewrite length_app; lia).
    simpl. rewrite store_middle. by rewrite <- !app_assoc. }
  assert (∀ v sn, Inv v → i v < len L →
    (j v < len R → L !!! Z.to_nat (i v) ≤ R !!! Z.to_nat (j v)) →
    index L (i v) = mret (L !!! Z.to_nat (i v)) ∧
    ∃ arr', store (arr v) (k v) (L !!! Z.to_nat (i v)) = mret arr' ∧
      Inv (mkVars arr' (i v + 1) (j v) (k v + 1) sn)) as Hleft.
  { intros [a vi vj vk vs] sn (out & ni & nj & Ha & Hk & Hi & Hj & Hni & Hnj & Hlen & Hperm
      & Hsorted & Hcross) Hlt Hle.
    cbn [arr i j k] in *. subst a vk vi vj. unfold len in Hlt, Hle. rewrite !Nat2Z.id in *.
    assert (ni < length L)%nat as Hni' by lia.
    split; [by apply index_total|].
    eexists. split; [apply Hstore; lia|].
    exists (out ++ [L !!! ni]), (S ni), nj. cbn [arr i j k].
    assert (drop ni L = L !!! ni :: drop (S ni) L) as HdropL.
    { apply drop_S. by apply list_lookup_lookup_total_lt. }
    split_and!; try done; try lia.
    - unfold len. rewrite length_app. simpl. lia.
    - rewrite length_app. simpl. lia.
    - rewrite (take_S_r L ni (L !!! ni)) by (by apply list_lookup_lookup_total_lt).
      rewrite Hperm, <- !app_assoc. apply Permutation_app_head. apply Permutation_app_comm.
    - apply StronglySorted_app. split_and!; [|done|repeat constructor].
      intros x y Hx ->%list_elem_of_singleton. apply Hcross; [done|].
      rewrite HdropL. apply elem_of_app. left. by left.
    - intros x y [Hx| ->%list_elem_of_singleton]%elem_of_app Hy.
      + apply Hcross; [done|]. rewrite HdropL.
        apply elem_of_app in Hy as [Hy|Hy]; apply elem_of_app; [left; by right|by right].
      + apply elem_of_app in Hy as [Hy|Hy]; [by apply sorted_drop_le|].
        destruct (decide (nj < length R)%nat) as [Hnj'|Hnj'].
        2:{ rewrite drop_ge in Hy by lia. by apply elem_of_nil in Hy. }
        specialize (Hle ltac:(lia)).
        rewrite (drop_S R (R !!! nj) nj) in Hy by (by apply list_lookup_lookup_total_lt).
        apply elem_of_cons in Hy as [->|Hy]; [done|].
        pose proof (sorted_drop_le R nj y HR Hnj' Hy). lia. }
  assert (∀ v sn, Inv v → j v < len R →
    (i v < len L → R !!! Z.to_nat (j v) < L !!! Z.to_nat (i v)) →
    index R (j v) = mret (R !!! Z.to_nat (j v)) ∧
    ∃ arr', store (arr v) (k v) (R !!! Z.to_nat (j v)) = mret arr' ∧
      Inv (mkVars arr' (i v) (j v + 1) (k v + 1) sn)) as Hright.
  { intros [a vi vj vk vs] sn (out & ni & nj & Ha & Hk & Hi & Hj & Hni & Hnj & Hlen & Hperm
      & Hsorted & Hcross) Hlt Hle.
    cbn [arr i j k] in *. subst a vk vi vj. unfold len in Hlt, Hle. rewrite !Nat2Z.id in *.
    assert (nj < length R)%nat as Hnj' by lia.
    split; [by apply index_total|].
    eexists. split; [apply Hstore; lia|].
    exists (out ++ [R !!! nj]), ni, (S nj). cbn [arr i j k].
    assert (drop nj R = R !!! nj :: drop (S nj) R) as HdropR.
    { apply drop_S. by apply list_lookup_lookup_total_lt. }
    split_and!; try done; try lia.
    - unfold len. rewrite length_app. simpl. lia.
    - rewrite length_app. simpl. lia.
    - rewrite (take_S_r R nj (R !!! nj)) by (by apply list_lookup_lookup_total_lt).
      rewrite Hperm, <- !app_assoc. done.
    - apply StronglySorted_app. split_and!; [|done|repeat constructor].
      intros x y Hx ->%list_elem_of_singleton. apply Hcross; [done|].
      rewrite HdropR. apply elem_of_app. right. by left.
    - intros x y [Hx| ->%list_elem_of_singleton]%elem_of_app Hy.
      + apply Hcross; [done|]. rewrite HdropR.
        apply elem_of_app in Hy as [Hy|Hy]; apply elem_of_app; [by left|right; by right].
      + apply elem_of_app in Hy as [Hy|Hy]; [|by apply sorted_drop_le].
        destruct (decide (ni < length L)%nat) as [Hni'|Hni'].
        2:{ rewrite drop_ge in Hy by lia. by apply elem_of_nil in Hy. }
        specialize (Hle ltac:(lia)).
        rewrite (drop_S L (L !!! ni) ni) in Hy by (by apply list_lookup_lookup_total_lt).
        apply elem_of_cons in Hy as [->|Hy]; [lia|].
        pose proof (sorted_drop_le L ni y HL Hni' Hy). lia. }
  assert (∀ v, Inv v → (Z.to_nat (len L - i v) + Z.to_nat (len R - j v) ≤
                         length L + length R)%nat) as Hmeasure.
  { intros v (out & ni & nj & _ & _ & -> & -> & _). unfold len. lia. }
  (* the comparing loop *)
  destruct (while_returns Inv (λ _, False)
    (λ v, (Z.to_nat (len L - i v) + Z.to_nat (len R - j v))%nat)
    (λ v, (i v <? len L) && (j v <? len R))
    (λ v,
       li ← index L (i v);
       rj ← index R (j v);
       types.stepCallback {|
         StepNumber := stepNumber v;
         Action := "compare_merge";
         Data := object [
           ("array", VInts (arr v));
           ("left_value", VInt li);
           ("right_value", VInt rj);
           ("left_index", VInt (i v));
           ("right_index", VInt (j v));
           ("target_index", VInt (k v)) ];
         Message := "Comparing " +:+ itoa li +:+ " and " +:+ itoa rj +:+ " for merge" |};;
       let stepNumber := incr (stepNumber v) in
       if li <=? rj then
         arr ← store (arr v) (k v) li;
         mret (Continue (mkVars arr (i v + 1) (j v) (k v + 1) stepNumber))
       else
         arr ← store (arr v) (k v) rj;
         mret (Continue (mkVars arr (i v) (j v + 1) (k v + 1) stepNumber)))
    (S (length L + length R)) (mkVars (pre ++ L ++ R ++ post) 0 0 (len pre) stepNumber0))
    as (v1 & Hloop1 & [[Hinv1 Hcond1]|[]]).
  { exists [], 0%nat, 0%nat. cbn [arr i j k]. split_and!; try done; try lia.
    - simpl. by rewrite drop_0, <- app_assoc.
    - unfold len. simpl. lia.
    - constructor.
    - intros x y Hx. by apply elem_of_nil in Hx. }
  { cbn [i j]. unfold len. lia. }
  { intros v Hinv [Hi Hj]%andb_true_iff.
    apply Z.ltb_lt in Hi, Hj.
    assert (index L (i v) = mret (L !!! Z.to_nat (i v))) as HiL.
    { destruct Hinv as (out & ni & nj & _ & _ & Hiv & _). rewrite Hiv in *.
      rewrite Nat2Z.id. apply index_total. unfold len in Hi. lia. }
    assert (index R (j v) = mret (R !!! Z.to_nat (j v))) as HjR.
    { clear HiL. destruct Hinv as (out & ni & nj & _ & _ & _ & Hjv & _). rewrite Hjv in *.
      rewrite Nat2Z.id. apply index_total. unfold len in Hj. lia. }
    rewrite HiL, bind_ret_l, HjR, bind_ret_l.
    destruct (Z.leb_spec (L !!! Z.to_nat (i v)) (R !!! Z.to_nat (j v))) as [Hle|Hgt].
    - destruct (Hleft v (incr (stepNumber v)) Hinv Hi) as (_ & arr' & Hst & Hinv'); [done|].
      exists (Continue (mkVars arr' (i v + 1) (j v) (k v + 1) (incr (stepNumber v)))).
      split.
      + apply returns_emit. rewrite Hst, bind_ret_l. reflexivity.
      + split; [done|]. cbn [i j]. lia.
    - destruct (Hright v (incr (stepNumber v)) Hinv Hj) as (_ & arr' & Hst & Hinv'); [done|].
      exists (Continue (mkVars arr' (i v) (j v + 1) (k v + 1) (incr (stepNumber v)))).
      split.
      + apply returns_emit. rewrite Hst, bind_ret_l. reflexivity.
      + split; [done|]. cbn [i j]. lia. }
  (* the loops that copy what remains *)
  destruct (while_returns (λ v, Inv v ∧ (i v < len L → len R ≤ j v)) (λ _, False)
    (λ v, Z.to_nat (len L - i v))
    (λ v, i v <? len L)
    (λ v,
       li ← index L (i v);
       arr ← store (arr v) (k v) li;
       mret (Continue (mkVars arr (i v + 1) (j v) (k v + 1) (stepNumber v))))
    (S (length L)) v1) as (v2 & Hloop2 & [[[Hinv2 _] Hcond2]|[]]).
  { split; [done|]. intros Hi. apply andb_false_iff in Hcond1 as [H|H]; lia. }
  { destruct Hinv1 as (? & ni & nj & _ & _ & Hiv & _). unfold len. lia. }
  { intros v [Hinv Hj] Hi%Z.ltb_lt.
    destruct (Hleft v (stepNumber v) Hinv Hi) as (HiL & arr' & Hst & Hinv'); [lia|].
    exists (Continue (mkVars arr' (i v + 1) (j v) (k v + 1) (stepNumber v))).
    split.
    - rewrite HiL, bind_ret_l, Hst, bind_ret_l. reflexivity.
    - cbn [i j]. split_and!; [done|lia|lia]. }
  destruct (while_returns (λ v, Inv v ∧ len L ≤ i v) (λ _, False)
    (λ v, Z.to_nat (len R - j v))
    (λ v, j v <? len R)
    (λ v,
       rj ← index R (j v);
       arr ← store (arr v) (k v) rj;
       mret (Continue (mkVars arr (i v) (j v + 1) (k v + 1) (stepNumber v))))
    (S (length R)) v2) as (v3 & Hloop3 & [[[Hinv3 Hi3] Hcond3]|[]]).
  { split; [done|]. lia. }
  { destruct Hinv2 as (? & ni & nj & _ & _ & _ & Hjv & _). unfold len. lia. }
  { intros v [Hinv Hi] Hj%Z.ltb_lt.
    destruct (Hright v (stepNumber v) Hinv Hj) as (HjR & arr' & Hst & Hinv'); [lia|].
    exists (Continue (mkVars arr' (i v) (j v + 1) (k v + 1) (stepNumber v))).
    split.
    - rewrite HjR, bind_ret_l, Hst, bind_ret_l. reflexivity.
    - cbn [i j]. split_and!; [done|lia|lia]. }
  destruct Hinv3 as (out & ni & nj & Ha & Hk & Hi & Hj & Hni & Hnj & Hlen & Hperm
    & Hsorted & _).
  apply Z.ltb_ge in Hcond3. unfold len in *.
  assert (ni = length L) as -> by lia. assert (nj = length R) as -> by lia.
  rewrite !take_ge in Hperm by lia.
  exists out. split_and!; [|done|done].
  eapply returns_bind; [exact Hloop1|].
  eapply returns_bind; [exact Hloop2|].
  eapply returns_bind; [exact Hloop3|].
  rewrite Ha, drop_ge by (rewrite length_app; lia). reflexivity.
Qed.

(** [mergeSort] sorts the part of the slice between [left] and [right]
    and leaves the rest as it is. *)
Lemma mergeSort_spec (showDivisions : bool) (fuel : nat) :
  ∀ (pre seg post : list Z) (left right sn : Z),
  left = len pre → right = len pre + len seg - 1 →
  (length seg ≤ fuel)%nat → (1 ≤ fuel)%nat →
  ∃ seg' sn',
    returns (mergeSort fuel (pre ++ seg ++ post) left right showDivisions sn)
            (pre ++ seg' ++ post, sn') ∧
    seg' ≡ₚ seg ∧ StronglySorted Z.le seg'.
Proof.
  induction fuel as [|fuel IH]; intros pre seg post left right sn Hleft Hright Hfuel Hpos; [lia|].
  cbn [mergeSort]. unfold len in Hleft, Hright.
  destruct (Z.ltb_spec left right) as [Hlt|Hge].
  2:{ exists seg, sn. split_and!; [reflexivity|done|].
      destruct seg as [|x [|y seg]]; simpl in Hright; [| |lia]; repeat constructor. }
  set (h := S ((length seg - 1) / 2)).
  assert (h < length seg)%nat as Hh.
  { unfold h. pose proof (Nat.div_mod_eq (length seg - 1) 2).
    pose proof (Nat.mod_upper_bound (length seg - 1) 2). lia. }
  assert (left + (right - left) ÷ 2 = left + Z.of_nat h - 1) as ->.
  { unfold h. rewrite Z.quot_div_nonneg by lia.
    replace (right - left) with (Z.of_nat (length seg - 1)) by lia.
    rewrite <- (Nat2Z.inj_div _ 2). lia. }
  set (L := take h seg). set (R := drop h seg).
  assert (length L = h) as HlenL by (unfold L; rewrite length_take; lia).
  assert (length R = (length seg - h)%nat) as HlenR by (unfold R; by rewrite length_drop).
  assert (seg = L ++ R) as Hseg by (unfold L, R; by rewrite take_drop).
  set (sn0 := if showDivisions then incr sn else sn).
  destruct (IH pre L (R ++ post) left (left + Z.of_nat h - 1) sn0)
    as (L' & sn1 & Hrun1 & HpermL & HsortedL); [unfold len; lia..|].
  assert (length L' = h) as HlenL' by (by rewrite HpermL).
  destruct (IH (pre ++ L') R post (left + Z.of_nat h - 1 + 1) right sn1)
    as (R' & sn2 & Hrun2 & HpermR & HsortedR); [unfold len; rewrite ?length_app; lia..|].
  assert (length R' = length R) as HlenR' by (by rewrite HpermR).
  destruct (merge_spec pre L' R' post left (left + Z.of_nat h - 1) right (incr sn2))
    as (out & Hmerge & Hperm & Hsorted); [unfold len; lia..|done|done|].
  exists out, (incr (incr sn2)). split_and!; [|by rewrite Hperm, HpermL, HpermR, Hseg|done].
  rewrite Hseg, <- (app_assoc L R post).
  eapply (returns_bind _ _ sn0).
  { unfold sn0. destruct showDivisions; [|reflexivity].
    rewrite (slice_first pre L (R ++ post) left), bind_ret_l by (unfold len; lia).
    rewrite (slice_second pre L R post), bind_ret_l by (unfold len; lia).
    apply returns_emit. reflexivity. }
  eapply returns_bind; [exact Hrun1|]. cbn beta iota.
  rewrite (app_assoc pre L').
  eapply returns_bind; [exact Hrun2|]. cbn beta iota.
  rewrite <- (app_assoc pre L').
  rewrite (slice_first pre L' (R' ++ post) left), bind_ret_l by (unfold len; lia).
  rewrite (slice_second pre L' R' post), bind_ret_l by (unfold len; lia).
  apply returns_emit.
  eapply returns_bind; [exact Hmerge|]. reflexivity.
Qed.

(** The whole sort returns a sorted rearrangement of [arr]. *)
Lemma MergeSort_run_spec (arr : list Z) (parameters : gmap string Value) :
  ∃ arr', returns (run arr parameters) (VInts arr', None) ∧
    Sorted Z.le arr' ∧ arr' ≡ₚ arr.
Proof.
  unfold run.
  destruct (mergeSort_spec (boolParam parameters "show_divisions" true) (S (length arr))
    [] arr [] 0 (len arr - 1) 1) as (arr' & sn & Hrun & Hperm & Hsorted);
    [unfold len; simpl; lia..|].
  exists arr'. split_and!; [|by apply StronglySorted_Sorted|done].
  apply returns_emit. simpl in Hrun. rewrite !app_nil_r in Hrun.
  eapply returns_bind; [exact Hrun|]. cbn beta iota.
  apply returns_emit. reflexivity.
Qed.

End MergeSort.

(** ** Quick sort *)

Lemma confined_refl a l e : confined a a l e.
Proof. split_and!; auto. Qed.

Lemma confined_trans a1 a2 a3 l e :
  confined a1 a2 l e → confined a2 a3 l e → confined a1 a3 l e.
Proof.
  intros (Hp1 & Hl1 & Ho1 & Hi1) (Hp2 & Hl2 & Ho2 & Hi2). split_and!.
  - by rewrite Hp2.
  - congruence.
  - intros q Hq. rewrite Ho2, Ho1; done.
  - intros P HP. apply Hi2, Hi1, HP.
Qed.

Lemma confined_weaken a a' l e l' e' :
  (l' ≤ l)%nat → (e ≤ e')%nat → confined a a' l e → confined a a' l' e'.
Proof.
  intros Hl He (Hp & Hlen & Ho & Hi). split_and!; [done|done| |].
  - intros q Hq. apply Ho. lia.
  - intros P HP q Hq. destruct (decide (l ≤ q < e)%nat) as [Hin|Hout].
    + apply Hi; [|done]. intros q' Hq'. apply HP. lia.
    + rewrite Ho by done. by apply HP.
Qed.

Lemma confined_exchanged a l e i j :
  (l ≤ i < e)%nat → (l ≤ j < e)%nat → (e ≤ length a)%nat →
  confined a (exchanged a i j) l e.
Proof.
  intros Hi Hj He. split_and!.
  - apply exchanged_Permutation; lia.
  - apply exchanged_length.
  - intros q Hq. rewrite exchanged_lookup by lia. rewrite !decide_False by lia. done.
  - intros P HP q Hq. rewrite exchanged_lookup by lia.
    repeat case_decide; apply HP; lia.
Qed.

Section QuickSort.

Import sorting.QuickSort.

Variable pivotStrategy : string.

(** [partition] moves a pivot of the part between [l] and [h] to the
    position it returns, the elements not larger than the pivot before it
    and the larger ones behind it. *)
Lemma partition_spec (a : list Z) (l h : nat) (stepNumber0 : Z) :
  (l < h < length a)%nat →
  ∃ a' p,
    returns (partition a (Z.of_nat l) (Z.of_nat h) pivotStrategy stepNumber0)
            (a', Z.of_nat p) ∧
    (l ≤ p ≤ h)%nat ∧ confined a a' l (S h) ∧
    (∀ q, (l ≤ q < p)%nat → a' !!! q ≤ a' !!! p) ∧
    (∀ q, (p < q ≤ h)%nat → a' !!! p < a' !!! q).
Proof.
  intros Hlh. unfold partition.
  match goal with |- context [index a ?e] => set (pivotIndex := e) end.
  assert (∃ pi : nat, pivotIndex = Z.of_nat pi ∧ (l ≤ pi ≤ h)%nat) as (pi & -> & Hpi).
  { assert (∃ m : nat, Z.of_nat l + (Z.of_nat h - Z.of_nat l) ÷ 2 = Z.of_nat m ∧
                       (l ≤ m ≤ h)%nat) as (m & Hm & Hlm).
    { exists (l + (h - l) / 2)%nat. rewrite Z.quot_div_nonneg by lia.
      replace (Z.of_nat h - Z.of_nat l) with (Z.of_nat (h - l)) by lia.
      rewrite <- (Nat2Z.inj_div _ 2).
      pose proof (Nat.div_mod_eq (h - l) 2). pose proof (Nat.mod_upper_bound (h - l) 2).
      lia. }
    unfold pivotIndex. repeat case_bool_decide.
    - exists l. lia.
    - exists h. lia.
    - by exists m.
    - by exists m. }

  rewrite (index_total a pi), bind_ret_l by lia.
  set (pivot := a !!! pi).
  rewrite (swap_exchanged a pi h) by lia.
  set (a1 := exchanged a pi h).
  assert (confined a a1 l (S h)) as Hconf1 by (apply confined_exchanged; lia).
  assert (a1 !!! h = pivot) as Hpivot1.
  { unfold a1. rewrite exchanged_lookup by lia. by rewrite decide_True. }
  destruct (for_range_returns
    (λ j v, ∃ ni nj : nat, j = Z.of_nat nj ∧ i v = Z.of_nat ni - 1 ∧ (l ≤ ni ≤ nj)%nat ∧
       confined a (arr v) l (S h) ∧ arr v !!! h = pivot ∧
       (∀ q, (l ≤ q < ni)%nat → arr v !!! q ≤ pivot) ∧
       (∀ q, (ni ≤ q < nj)%nat → pivot < arr v !!! q))
    (λ _, False)
    (λ j v,
       aj ← index (arr v) j;
       types.stepCallback {|
         StepNumber := stepNumber v;
         Action := "compare_pivot";
         Data := object [
           ("array", VInts (arr v));
           ("pivot_value", VInt pivot);
           ("current", VInt aj);
           ("j", VInt j);
           ("i", VInt (i v)) ];
         Message := "Comparing " +:+ itoa aj +:+ " with pivot " +:+ itoa pivot |};;
       let stepNumber := incr (stepNumber v) in
       if aj <=? pivot then
         let i := i v + 1 in
         arr ← swap (arr v) i j;
         bj ← index arr j;
         bi ← index arr i;
         types.stepCallback {|
           StepNumber := stepNumber;
           Action := "swap_partition";
           Data := object [
             ("array", VInts arr);
             ("swapped", VInts [i; j]);
             ("pivot_value", VInt pivot);
             ("i", VInt i);
             ("j", VInt j) ];
           Message := "Swapped " +:+ itoa bj +:+ " and " +:+ itoa bi |};;
         mret (Continue (mkVars arr i (incr stepNumber)))
       else mret (Continue (mkVars (arr v) (i v) stepNumber)))
    (Z.of_nat l) (Z.of_nat h) (mkVars a1 (Z.of_nat l - 1) (incr stepNumber0)))
    as (v & Hloop & [(ni & nj & Hj & Hi & Hni & Hconf & Hpivot & Hle & Hgt)|[]]).
  { exists l, l. cbn [arr i]. split_and!; try done; try lia; intros q Hq; lia. }
  { intros j [av iv sv] Hj (ni & nj & -> & Hi & Hni & Hconf & Hpivot & Hle & Hgt).
    cbn [arr i stepNumber] in *. subst iv.
    assert (length av = length a) as Hlen by apply Hconf.
    rewrite (index_total av nj), bind_ret_l by lia.
    destruct (Z.leb_spec (av !!! nj) pivot) as [Hcmp|Hcmp].
    - eexists. split.
      + apply returns_emit.
        replace (Z.of_nat ni - 1 + 1) with (Z.of_nat ni) by lia.
        rewrite (swap_exchanged av ni nj), bind_ret_l by lia.
        rewrite (index_total _ nj), bind_ret_l by (rewrite exchanged_length; lia).
        rewrite (index_total _ ni), bind_ret_l by (rewrite exchanged_length; lia).
        apply returns_emit. reflexivity.
      + exists (S ni), (S nj). cbn [arr i]. split_and!; try lia.
        * eapply confined_trans; [exact Hconf|]. apply confined_exchanged; lia.
        * rewrite exchanged_lookup by lia. rewrite !decide_False by lia. done.
        * intros q Hq. rewrite exchanged_lookup by lia.
          destruct (decide (q = nj)) as [->|?].
          { destruct (decide (ni = nj)) as [->|?]; [done|]. apply Hle. lia. }
          destruct (decide (q = ni)) as [->|?]; [done|]. apply Hle. lia.
        * intros q Hq. rewrite exchanged_lookup by lia.
          destruct (decide (q = nj)) as [->|?]; [apply Hgt; lia|].
          rewrite decide_False by lia. apply Hgt. lia.
    - eexists. split; [apply returns_emit; reflexivity|].
      exists ni, (S nj). cbn [arr i]. split_and!; try done; try lia.
      intros q Hq. destruct (decide (q = nj)) as [->|?]; [lia|]. apply Hgt. lia. }
  destruct v as [av iv sv]. cbn [arr i stepNumber] in *. subst iv.
  assert (nj = h) as -> by lia.
  assert (length av = length a) as Hlen by apply Hconf.
  exists (exchanged av ni h), ni. split_and!.
  - apply returns_emit. rewrite bind_ret_l.
    eapply returns_bind; [exact Hloop|]. cbn [arr i stepNumber].
    replace (Z.of_nat ni - 1 + 1) with (Z.of_nat ni) by lia.
    rewrite (swap_exchanged av ni h), bind_ret_l by lia.
    apply returns_emit. reflexivity.
  - lia.
  - lia.
  - eapply confined_trans; [exact Hconf|]. apply confined_exchanged; lia.
  - intros q Hq. rewrite !exchanged_lookup by lia.
    rewrite (decide_False (P := q = h)) by lia. rewrite (decide_False (P := q = ni)) by lia.
    destruct (decide (ni = h)) as [->|?]; [rewrite Hpivot; apply Hle; lia|].
    rewrite decide_True by done. rewrite Hpivot. apply Hle. lia.
  - intros q Hq. rewrite !exchanged_lookup by lia.
    assert (ni ≠ h) by lia. rewrite (decide_False (P := ni = h)) by done.
    rewrite (decide_True (P := ni = ni)) by done. rewrite Hpivot.
    destruct (decide (q = h)) as [->|?]; [apply Hgt; lia|].
    rewrite decide_False by lia. apply Hgt. lia.
Qed.

(** [quickSort] sorts the part between [l] (included) and [e] (excluded)
    and leaves the rest as it is. *)
Lemma quickSort_spec (fuel : nat) : ∀ (a : list Z) (l e : nat) (high stepNumber : Z),
  high = Z.of_nat e - 1 → (e ≤ length a)%nat → (e - l ≤ fuel)%nat → (1 ≤ fuel)%nat →
  ∃ a' stepNumber',
    returns (quickSort fuel a (Z.of_nat l) high pivotStrategy stepNumber) (a', stepNumber') ∧
    confined a a' l e ∧
    (∀ q1 q2, (l ≤ q1)%nat → (q1 ≤ q2)%nat → (q2 < e)%nat → a' !!! q1 ≤ a' !!! q2).
Proof.
  induction fuel as [|fuel IH]; intros a l e high sn -> He Hfuel Hpos; [lia|].
  cbn [quickSort].
  destruct (Z.ltb_spec (Z.of_nat l) (Z.of_nat e - 1)) as [Hlt|Hge].
  2:{ exists a, sn. split_and!; [reflexivity|apply confined_refl|].
      intros q1 q2 H1 H2 H3. by replace q2 with q1 by lia. }
  destruct (partition_spec a l (e - 1) sn) as (a1 & p & Hpart & Hp & Hconf1 & Hle & Hgt); [lia|].
  replace (S (e - 1)) with e in Hconf1 by lia.
  replace (Z.of_nat (e - 1)) with (Z.of_nat e - 1) in Hpart by lia.
  assert (length a1 = length a) as Hlen1 by apply Hconf1.
  destruct (IH a1 l p (Z.of_nat p - 1) (incr sn)) as (a2 & sn2 & Hrun2 & Hconf2 & Hsorted2);
    [lia..|].
  assert (length a2 = length a) as Hlen2 by (destruct Hconf2 as (_ & -> & _); done).
  destruct (IH a2 (S p) e (Z.of_nat e - 1) sn2) as (a3 & sn3 & Hrun3 & Hconf3 & Hsorted3);
    [lia..|].
  exists a3, sn3. split_and!.
  - eapply returns_bind; [exact Hpart|]. cbn beta iota.
    eapply returns_bind; [exact Hrun2|]. cbn beta iota.
    replace (Z.of_nat p + 1) with (Z.of_nat (S p)) by lia.
    eapply returns_bind; [exact Hrun3|]. reflexivity.
  - eapply confined_trans; [exact Hconf1|].
    eapply confined_trans; [eapply confined_weaken; [| |exact Hconf2]; lia|].
    eapply confined_weaken; [| |exact Hconf3]; lia.
  - destruct Hconf2 as (_ & _ & Hout2 & Hin2), Hconf3 as (_ & _ & Hout3 & Hin3).
    assert (a3 !!! p = a1 !!! p) as Hp3 by (rewrite Hout3, Hout2 by lia; done).
    assert (∀ q, (l ≤ q < p)%nat → a3 !!! q ≤ a1 !!! p) as Hleft.
    { intros q Hq. rewrite Hout3 by lia. by apply (Hin2 (λ x, x ≤ a1 !!! p)). }
    assert (∀ q, (p < q < e)%nat → a1 !!! p < a3 !!! q) as Hright.
    { intros q Hq. apply (Hin3 (λ x, a1 !!! p < x)); [|lia].
      intros q' Hq'. rewrite Hout2 by lia. apply Hgt. lia. }
    intros q1 q2 H1 H2 H3.
    destruct (Nat.lt_trichotomy q2 p) as [Hq2|[->|Hq2]].
    + rewrite !Hout3 by lia. apply Hsorted2; lia.
    + destruct (decide (q1 = p)) as [->|?]; [done|]. rewrite Hp3. apply Hleft. lia.
    + destruct (Nat.lt_trichotomy q1 p) as [Hq1|[->|Hq1]].
      * specialize (Hleft q1 ltac:(lia)). specialize (Hright q2 ltac:(lia)). lia.
      * rewrite Hp3. specialize (Hright q2 ltac:(lia)). lia.
      * apply Hsorted3; lia.
Qed.

End QuickSort.

(** The whole sort returns a sorted rearrangement of [arr], whichever way
    the pivot is chosen. *)
Lemma QuickSort_run_spec (arr : list Z) (parameters : gmap string Value) :
  ∃ arr', returns (sorting.QuickSort.run arr parameters) (VInts arr', None) ∧
    Sorted Z.le arr' ∧ arr' ≡ₚ arr.
Proof.
  unfold sorting.QuickSort.run.
  destruct (quickSort_spec (stringParam parameters "pivot_strategy" "middle")
    (S (length arr)) arr 0 (length arr) (len arr - 1) 1)
    as (arr' & sn & Hrun & Hconf & Hsorted); [done|lia..|].
  exists arr'. split_and!.
  - apply returns_emit. eapply returns_bind; [exact Hrun|]. cbn beta iota.
    apply returns_emit. reflexivity.
  - apply Sorted_lookup_total. intros p q Hpq. apply Hsorted; try lia.
    destruct Hconf as (_ & <- & _). lia.
  - apply Hconf.
Qed.

(** ** Counting sort *)

Section Counting.

Implicit Types (l : list Z) (v w : Z).

Lemma occ_nil v : occ [] v = 0%nat.
Proof. reflexivity. Qed.

Lemma occ_app l1 l2 v : occ (l1 ++ l2) v = (occ l1 v + occ l2 v)%nat.
Proof. unfold occ. by rewrite filter_app, length_app. Qed.

Lemma occ_take_S l (i : nat) v :
  (i < length l)%nat →
  occ (take (S i) l) v = (occ (take i l) v + if decide (l !!! i = v) then 1 else 0)%nat.
Proof.
  intros Hi. rewrite (take_S_r l i (l !!! i)) by (by apply list_lookup_lookup_total_lt).
  rewrite occ_app. f_equal. unfold occ. rewrite filter_cons, filter_nil.
  by destruct (decide (l !!! i = v)).
Qed.

Lemma below_succ l v : below l (v + 1) = (below l v + occ l v)%nat.
Proof.
  unfold below, occ. induction l as [|x l IH]; [done|].
  rewrite !filter_cons.
  destruct (decide (x < v + 1)), (decide (x < v)), (decide (x = v)); simpl; lia.
Qed.

Lemma below_mono l v w : v ≤ w → (below l v ≤ below l w)%nat.
Proof.
  intros Hvw. unfold below. induction l as [|x l IH]; [done|].
  rewrite !filter_cons. destruct (decide (x < v)), (decide (x < w)); simpl; lia.
Qed.

Lemma below_none l v : Forall (λ x, v ≤ x) l → below l v = 0%nat.
Proof.
  unfold below. induction 1 as [|x l Hx _ IH]; [done|].
  rewrite filter_cons. destruct (decide (x < v)); [lia|done].
Qed.

Lemma below_all l v : Forall (λ x, x < v) l → below l v = length l.
Proof.
  unfold below. induction 1 as [|x l Hx _ IH]; [done|].
  rewrite filter_cons. destruct (decide (x < v)); [simpl; lia|lia].
Qed.

Lemma below_Permutation l l' v : l ≡ₚ l' → below l v = below l' v.
Proof. intros H. unfold below. by rewrite H. Qed.

(** In a sorted list the elements smaller than [v] come first. *)
Lemma sorted_below l v (p : nat) :
  StronglySorted Z.le l → (p < length l)%nat → (p < below l v)%nat ↔ l !!! p < v.
Proof.
  intros Hs. revert p. induction Hs as [|x l Hs IH Hall]; intros p Hp; [simpl in Hp; lia|].
  unfold below in *. rewrite filter_cons. destruct (decide (x < v)) as [Hx|Hx].
  - destruct p as [|p]; simpl; [split; [done|lia]|].
    rewrite <- IH by (simpl in Hp; lia). lia.
  - assert (length (filter (λ y, y < v) l) = 0%nat) as ->.
    { apply (below_none l v). eapply Forall_impl; [exact Hall|]. simpl. lia. }
    split; [lia|]. intros Hlt. destruct p as [|p]; simpl in Hlt; [lia|].
    rewrite Forall_forall in Hall.
    assert (l !!! p ∈ l) as Hin.
    { apply list_elem_of_lookup_total_2. simpl in Hp. lia. }
    specialize (Hall _ Hin). lia.
Qed.

(** Every position lies in the block of one value. *)
Lemma block_exists l (p k : nat) :
  Forall (λ x, 0 ≤ x) l → (p < below l (Z.of_nat k))%nat →
  ∃ v : nat, (v < k)%nat ∧ (below l (Z.of_nat v) ≤ p < below l (Z.of_nat v + 1))%nat.
Proof.
  intros Hpos. induction k as [|k IH]; intros Hp.
  - rewrite below_none in Hp by done. lia.
  - destruct (decide (p < below l (Z.of_nat k))%nat) as [Hlt|Hge].
    + destruct (IH Hlt) as (v & Hv & Hblock). exists v. split; [lia|done].
    + exists k. split; [lia|]. replace (Z.of_nat k + 1) with (Z.of_nat (S k)) by lia. lia.
Qed.

(** A list that holds [v] all over the block of [v], for every value
    [v] of [l], is the sorted arrangement of [l]. *)
Lemma blocks_sorted l out (k : nat) :
  Forall (λ x, 0 ≤ x < Z.of_nat k) l → length out = length l →
  (∀ (v p : nat), (v < k)%nat →
     (below l (Z.of_nat v) ≤ p < below l (Z.of_nat v) + occ l (Z.of_nat v))%nat →
     out !!! p = Z.of_nat v) →
  out = merge_sort Z.le l.
Proof.
  intros Hrange Hlen Hout.
  assert (StronglySorted Z.le (merge_sort Z.le l)) as Hsorted.
  { apply (StronglySorted_merge_sort _). }
  assert (merge_sort Z.le l ≡ₚ l) as Hperm by apply merge_sort_Permutation.
  apply list_eq_same_length with (length l); [by rewrite Hperm|done|].
  intros p x y Hp Hx Hy.
  apply list_lookup_total_correct in Hx, Hy. subst x y.
  destruct (block_exists l p k) as (v & Hv & Hblock).
  { eapply Forall_impl; [exact Hrange|]. simpl. lia. }
  { rewrite below_all; [done|]. eapply Forall_impl; [exact Hrange|]. simpl. lia. }
  rewrite (Hout v p Hv) by (rewrite below_succ in Hblock; lia).
  rewrite !(below_Permutation l _ _ (symmetry Hperm)) in Hblock.
  assert (p < length (merge_sort Z.le l))%nat as Hp' by (by rewrite Hperm).
  pose proof (sorted_below _ (Z.of_nat v) p Hsorted Hp') as H1.
  pose proof (sorted_below _ (Z.of_nat v + 1) p Hsorted Hp') as H2.
  assert (¬ (merge_sort Z.le l !!! p < Z.of_nat v)) by (rewrite <- H1; lia).
  assert (merge_sort Z.le l !!! p < Z.of_nat v + 1) by (rewrite <- H2; lia).
  lia.
Qed.

(** The maximum that the first loop of [run] computes. *)
Lemma foldl_max l (m : Z) :
  let r := foldl (λ max v, if max <? v then v else max) m l in
  m ≤ r ∧ Forall (λ x, x ≤ r) l ∧ (r = m ∨ r ∈ l).
Proof.
  revert m. induction l as [|x l IH]; intros m; simpl.
  - split_and!; [lia|constructor|by left].
  - destruct (IH (if m <? x then x else m)) as (H1 & H2 & H3).
    destruct (Z.ltb_spec m x).
    + split_and!; [lia| |].
      * constructor; [done|done].
      * right. destruct H3 as [->|H3]; [by left|by right].
    + split_and!; [lia| |].
      * constructor; [lia|done].
      * destruct H3 as [->|H3]; [by left|right; by right].
Qed.

End Counting.

Lemma index_total_Z {A} `{!Inhabited A} (arr : list A) (i : Z) :
  0 ≤ i < len arr → index arr i = mret (arr !!! Z.to_nat i).
Proof.
  intros Hi. unfold len in Hi. rewrite <- (Z2Nat.id i) at 1 by lia.
  apply index_total. lia.
Qed.

Lemma occ_take_le (l : list Z) (n : nat) (v : Z) : (occ (take n l) v ≤ occ l v)%nat.
Proof. rewrite <- (take_drop n l) at 2. rewrite occ_app. lia. Qed.

Lemma below_le_length (l : list Z) (v : Z) : (below l v ≤ length l)%nat.
Proof. unfold below. apply length_filter. Qed.

(** On a non-empty array of non-negative ints, counting sort returns the
    sorted arrangement of the array. *)
Lemma CountingSort_run_spec (arr : list Z) :
  arr ≠ [] → Forall (λ x, 0 ≤ x < 2 ^ 63 - 1) arr →
  returns (sorting.CountingSort.run arr) (VInts (merge_sort Z.le arr), None).
Proof.
  intros Hne Hrange. unfold sorting.CountingSort.run.
  apply returns_emit.
  destruct arr as [|a0 rest] eqn:Harr; [done|]. rewrite <- Harr in *.
  assert (index arr 0 = mret a0) as -> by (by subst arr).
  rewrite bind_ret_l.
  pose proof (foldl_max arr a0) as Hmax. cbv zeta in Hmax.
  set (max := foldl (λ max v, if max <? v then v else max) a0 arr) in *.
  destruct Hmax as (_ & Hle & Hin).
  assert (max ∈ arr) as Hmaxin.
  { destruct Hin as [->|?]; [|done]. subst arr. by left. }
  rewrite Forall_forall in Hrange, Hle.
  pose proof (Hrange max Hmaxin) as Hmaxrange.
  assert (∃ M : nat, max = Z.of_nat M) as [M HM] by (exists (Z.to_nat max); lia).
  assert (Forall (λ x, 0 ≤ x < Z.of_nat (S M)) arr) as Hbounded.
  { apply Forall_forall. intros x Hx. specialize (Hrange x Hx). specialize (Hle x Hx).
    simpl in Hle. lia. }
  assert (∀ i : nat, (i < length arr)%nat → 0 ≤ arr !!! i ≤ Z.of_nat M) as Helem.
  { intros i Hi. rewrite Forall_forall in Hbounded.
    specialize (Hbounded (arr !!! i) (list_elem_of_lookup_total_2 _ _ Hi)). simpl in Hbounded.
    lia. }
  assert (Z.of_nat M < 2 ^ 63 - 1) as HMsmall by lia.
  clearbody max. subst max. clear Hle Hin Hmaxin Hrange Hmaxrange Harr Hne a0 rest.
  set (n := length arr) in *.
  apply returns_emit.
  rewrite (wrap_small (Z.of_nat M + 1)) by lia.
  replace (Z.of_nat M + 1) with (Z.of_nat (S M)) by lia.
  rewrite make_length, bind_ret_l. unfold len. fold n.
  rewrite make_length, bind_ret_l.
  apply returns_emit.
  (* Count occurrences *)
  eapply (for_range_bind
    (λ j count, ∃ nj : nat, j = Z.of_nat nj ∧ (nj ≤ n)%nat ∧ length count = S M ∧
       ∀ v : nat, (v ≤ M)%nat → count !!! v = Z.of_nat (occ (take nj arr) (Z.of_nat v)))
    (λ _, False)).
  { exists 0%nat. split_and!; [done|lia|by rewrite length_replicate|].
    intros v Hv. rewrite lookup_total_replicate_2 by lia. done. }
  { intros j count Hj (nj & -> & Hnj & Hlen & Hcount).
    pose proof (Helem nj ltac:(lia)) as Hai.
    set (ai := arr !!! nj) in *.
    assert (∃ va : nat, ai = Z.of_nat va ∧ (va ≤ M)%nat) as (va & Hva & HvaM)
      by (exists (Z.to_nat ai); lia).
    eexists. split.
    - rewrite (index_total arr nj), bind_ret_l by lia. fold ai. rewrite Hva.
      rewrite (index_total count va), bind_ret_l by lia.
      rewrite store_in_range, bind_ret_l by lia.
      rewrite (index_total _ va), bind_ret_l by (rewrite length_insert; lia).
      apply returns_emit. reflexivity.
    - exists (S nj). split_and!; [lia|lia|by rewrite length_insert|].
      intros v Hv. rewrite occ_take_S by lia. fold ai. rewrite Hva.
      destruct (decide (v = va)) as [->|Hne].
      + rewrite list_lookup_total_insert_eq by lia. rewrite decide_True by done.
        rewrite Hcount by done. lia.
      + rewrite list_lookup_total_insert_ne by done. rewrite decide_False by lia.
        rewrite Hcount by done. lia. }
  intros count1 [(nj & Hnj & Hnj' & Hlen1 & Hcount1)|[]].
  assert (nj = n) as -> by lia. rewrite take_ge in Hcount1 by done. clear Hnj Hnj'.
  apply returns_emit.
  (* Modify count array to store actual position *)
  eapply (for_range_bind
    (λ i count, ∃ ni : nat, i = Z.of_nat ni ∧ (1 ≤ ni ≤ S M)%nat ∧ length count = S M ∧
       ∀ v : nat, (v ≤ M)%nat →
         count !!! v = Z.of_nat (if decide (v < ni)%nat then below arr (Z.of_nat v + 1)
                                 else occ arr (Z.of_nat v)))
    (λ _, False)).
  { exists 1%nat. split_and!; [done|lia|lia|done|].
    intros v Hv. rewrite Hcount1 by done. case_decide; [|done].
    assert (v = 0%nat) as -> by lia. rewrite below_succ, below_none; [done|].
    eapply Forall_impl; [exact Hbounded|]. simpl. lia. }
  { intros i count Hi (ni & -> & Hni & Hlen & Hcount).
    eexists. split.
    - rewrite (index_total count ni), bind_ret_l by lia.
      replace (Z.of_nat ni - 1) with (Z.of_nat (ni - 1)) by lia.
      rewrite (index_total count (ni - 1)), bind_ret_l by lia.
      rewrite store_in_range, bind_ret_l by lia.
      rewrite (index_total _ ni), bind_ret_l by (rewrite length_insert; lia).
      apply returns_emit. reflexivity.
    - exists (S ni). split_and!; [lia|lia|lia|by rewrite length_insert|].
      intros v Hv. destruct (decide (v = ni)) as [->|Hne].
      + rewrite list_lookup_total_insert_eq by lia. rewrite decide_True by lia.
        rewrite !Hcount by lia. rewrite decide_False by lia. rewrite decide_True by lia.
        replace (Z.of_nat (ni - 1) + 1) with (Z.of_nat ni) by lia.
        rewrite below_succ. lia.
      + rewrite list_lookup_total_insert_ne by done. rewrite Hcount by done.
        repeat case_decide; (done || lia). }
  intros count2 [(ni & Hni & Hni' & Hlen2 & Hcount2)|[]].
  assert (ni = S M) as -> by lia. clear Hni Hni'.
  apply returns_emit.
  (* Build output array *)
  eapply (for_down_bind
    (λ j (s : list Z * list Z), ∃ nj : nat, j = Z.of_nat nj - 1 ∧ (nj ≤ n)%nat ∧
       length s.1 = S M ∧ length s.2 = n ∧
       (∀ v : nat, (v ≤ M)%nat →
          s.1 !!! v = Z.of_nat (below arr (Z.of_nat v) + occ (take nj arr) (Z.of_nat v))) ∧
       (∀ v p : nat, (v ≤ M)%nat →
          (below arr (Z.of_nat v) + occ (take nj arr) (Z.of_nat v) ≤ p
           < below arr (Z.of_nat v) + occ arr (Z.of_nat v))%nat →
          s.2 !!! p = Z.of_nat v))).
  { exists n. cbn [fst snd]. split_and!; [lia|lia|done|by rewrite length_replicate| |].
    - intros v Hv. rewrite Hcount2 by done. rewrite decide_True by lia.
      rewrite take_ge by done. by rewrite below_succ.
    - intros v p Hv Hp. rewrite take_ge in Hp by done. lia. }
  { intros j [count output] Hj (nj & -> & Hnj & Hlenc & Hleno & Hcount & Hout).
    cbn [fst snd] in *.
    destruct nj as [|m]; [lia|].
    replace (Z.of_nat (S m) - 1) with (Z.of_nat m) by lia.
    pose proof (Helem m ltac:(lia)) as Hai.
    set (ai := arr !!! m) in *.
    assert (∃ va : nat, ai = Z.of_nat va ∧ (va ≤ M)%nat) as (va & Hva & HvaM)
      by (exists (Z.to_nat ai); lia).
    pose proof (Hcount va HvaM) as Hc.
    rewrite occ_take_S in Hc by lia. fold ai in Hc. rewrite decide_True in Hc by done.
    set (pos := (below arr (Z.of_nat va) + occ (take m arr) (Z.of_nat va))%nat) in *.
    assert (pos < n)%nat as Hpos.
    { pose proof (occ_take_S arr m (Z.of_nat va) ltac:(lia)) as H1.
      fold ai in H1. rewrite decide_True in H1 by done.
      pose proof (occ_take_le arr (S m) (Z.of_nat va)).
      pose proof (below_succ arr (Z.of_nat va)).
      pose proof (below_le_length arr (Z.of_nat va + 1)). unfold pos. lia. }
    exists (<[va := Z.of_nat pos]> count, <[pos := ai]> output). split.
    - rewrite (index_total arr m), bind_ret_l by lia. fold ai. rewrite Hva.
      rewrite (index_total count va), bind_ret_l by lia. rewrite Hc.
      replace (Z.of_nat (below arr (Z.of_nat va) + (occ (take m arr) (Z.of_nat va) + 1)) - 1)
        with (Z.of_nat pos) by (unfold pos; lia).
      rewrite (store_in_range output pos), bind_ret_l by lia.
      rewrite (store_in_range count va), bind_ret_l by lia.
      rewrite (index_total _ va), bind_ret_l by (rewrite length_insert; lia).
      apply returns_emit. reflexivity.
    - exists m. cbn [fst snd].
      split_and!; [lia|lia|by rewrite length_insert|by rewrite length_insert| |].
      + intros v Hv. destruct (decide (v = va)) as [->|Hne].
        * by rewrite list_lookup_total_insert_eq by lia.
        * rewrite list_lookup_total_insert_ne by done. rewrite Hcount by done.
          rewrite occ_take_S by lia. fold ai. rewrite decide_False by lia. lia.
      + intros v p Hv Hp.
        pose proof (below_succ arr (Z.of_nat v)) as Hbv.
        pose proof (below_succ arr (Z.of_nat va)) as Hbva.
        pose proof (occ_take_le arr (S m) (Z.of_nat va)) as Hoccva.
        pose proof (occ_take_S arr m (Z.of_nat va) ltac:(lia)) as Hocc1.
        fold ai in Hocc1. rewrite decide_True in Hocc1 by done.
        destruct (decide (p = pos)) as [->|Hne].
        * rewrite list_lookup_total_insert_eq by lia. rewrite Hva. f_equal.
          destruct (Nat.lt_trichotomy v va) as [Hlt|[->|Hgt]]; [|done|].
          -- pose proof (below_mono arr (Z.of_nat v + 1) (Z.of_nat va) ltac:(lia)).
             unfold pos in Hp. lia.
          -- pose proof (below_mono arr (Z.of_nat va + 1) (Z.of_nat v) ltac:(lia)).
             unfold pos in Hp. lia.
        * rewrite list_lookup_total_insert_ne by done. apply Hout; [done|].
          rewrite occ_take_S by lia. fold ai.
          destruct (decide (v = va)) as [->|Hvne].
          -- rewrite decide_True by done. unfold pos in Hne. lia.
          -- rewrite decide_False by lia. lia. }
  intros [count3 output3] (nj & Hnj & _ & _ & Hleno & _ & Hout). cbn [fst snd] in *.
  assert (nj = 0%nat) as -> by lia.
  apply returns_emit.
  rewrite (blocks_sorted arr output3 (S M) Hbounded Hleno); [reflexivity|].
  intros v p Hv Hp. apply Hout; [lia|]. rewrite take_0, occ_nil. lia.
Qed.

Lemma make_cases {A} (zero : A) (size : Z) :
  panics (make zero size) ∨ ∃ k : nat, make zero size = mret (replicate k zero).
Proof.
  unfold make. destruct (size <? 0); [left; by eexists|right; by eexists].
Qed.

(** Counting sort indexes its count array by the elements: the empty
    array and a negative element make it panic. *)
Lemma CountingSort_run_panics (arr : list Z) :
  arr = [] ∨ (∃ x, x ∈ arr ∧ x < 0) → panics (sorting.CountingSort.run arr).
Proof.
  intros Hbad. unfold sorting.CountingSort.run. apply panics_emit.
  destruct arr as [|a0 rest] eqn:Harr.
  { apply panics_bind_l. by eexists. }
  destruct Hbad as [?|(x & Hx & Hneg)]; [done|]. rewrite <- Harr in *.
  assert (index arr 0 = mret a0) as -> by (rewrite Harr; reflexivity).
  rewrite bind_ret_l. apply panics_emit.
  match goal with |- context [make 0 (wrap ?m)] =>
    destruct (make_cases 0 (wrap m)) as [Hpanic|[k ->]] end;
    [by apply panics_bind_l|]. rewrite bind_ret_l.
  unfold len. rewrite make_length, bind_ret_l. apply panics_emit.
  apply list_elem_of_lookup in Hx as [p Hp].
  assert (p < length arr)%nat as Hlt by (by eapply lookup_lt_Some).
  apply panics_bind_l. apply (for_range_panics _ 0 _ (Z.of_nat p)); [lia| |].
  - intros j count Hj.
    assert (∃ nj : nat, j = Z.of_nat nj) as [nj ->] by (exists (Z.to_nat j); lia).
    rewrite (index_total arr nj), bind_ret_l by lia.
    destruct (returns_or_panics_index count (arr !!! nj)) as [Hpanic|(c & Hc & Hrange)].
    + left. by apply panics_bind_l.
    + right. eexists. rewrite Hc, bind_ret_l.
      rewrite store_in_range_Z, bind_ret_l by done.
      rewrite (index_total_Z _ (arr !!! nj)), bind_ret_l
        by (unfold len in *; by rewrite length_insert).
      apply returns_emit. reflexivity.
  - intros count. rewrite (index_total arr p), bind_ret_l by lia.
    rewrite (list_lookup_total_correct _ _ _ Hp).
    apply panics_bind_l. rewrite index_out_of_range by lia. by eexists.
Qed.

(** ** The array generator of counting sort *)

Lemma cyclic_S (n : nat) (maxValue : Z) :
  cyclic (S n) maxValue = cyclic n maxValue ++ [Z.rem (Z.of_nat n) maxValue + 1].
Proof. unfold cyclic. by rewrite seq_S, fmap_app. Qed.

Lemma length_cyclic (n : nat) (maxValue : Z) : length (cyclic n maxValue) = n.
Proof. unfold cyclic. by rewrite length_fmap, length_seq. Qed.

Lemma generateRandomArrayWithMax_cyclic (n : nat) (maxValue : Z) :
  maxValue ≠ 0 →
  sorting.CountingSort.generateRandomArrayWithMax (Z.of_nat n) maxValue
  = mret (cyclic n maxValue).
Proof.
  intros Hmax. unfold sorting.CountingSort.generateRandomArrayWithMax.
  rewrite make_length, bind_ret_l.
  destruct (for_range_spec
    (λ i arr t, t = [] ∧ 0 ≤ i ≤ Z.of_nat n ∧
       arr = cyclic (Z.to_nat i) maxValue ++ replicate (n - Z.to_nat i) 0)
    (λ _ _, False)
    (λ i arr, r ← modulo i maxValue; arr' ← store arr i (r + 1); mret (Continue arr'))
    0 (Z.of_nat n) (replicate n 0) []) as (t & arr & Heq & [(Ht & _ & Harr)|[]]).
  - split; [done|]. split; [lia|]. simpl. by rewrite Nat.sub_0_r.
  - intros j arr t Hj (-> & _ & ->).
    exists [], (Continue (cyclic (Z.to_nat (j + 1)) maxValue
                          ++ replicate (n - Z.to_nat (j + 1)) 0)).
    split; [|split; [done|split; [lia|done]]].
    unfold modulo. destruct (Z.eqb_spec maxValue 0); [done|]. rewrite bind_ret_l.
    rewrite store_in_range_Z, bind_ret_l.
    2:{ unfold len. rewrite length_app, length_cyclic, length_replicate. lia. }
    do 2 f_equal.
    replace (Z.to_nat (j + 1)) with (S (Z.to_nat j)) by lia.
    rewrite insert_app_r_alt by (rewrite length_cyclic; lia).
    rewrite length_cyclic, Nat.sub_diag, cyclic_S, <- app_assoc.
    replace (n - Z.to_nat j)%nat with (S (n - S (Z.to_nat j))) by lia.
    simpl. rewrite Z2Nat.id by lia. reflexivity.
  - rewrite Heq. simpl in Ht. subst t.
    change (@pair (list ExecutionStep) (Outcome (list Z)) [] (Returned arr))
      with (@mret Run Run_ret _ arr).
    rewrite bind_ret_l. rewrite shuffle_noop. do 2 f_equal.
    rewrite Harr. replace (Z.to_nat (0 `max` Z.of_nat n)) with n by lia.
    rewrite Nat.sub_diag. simpl. by rewrite app_nil_r.
Qed.

Lemma generateRandomArrayWithMax_zero (size : Z) :
  0 < size → panics (sorting.CountingSort.generateRandomArrayWithMax size 0).
Proof.
  intros Hsize. unfold sorting.CountingSort.generateRandomArrayWithMax.
  replace size with (Z.of_nat (Z.to_nat size)) by lia.
  rewrite make_length, bind_ret_l. apply panics_bind_l.
  apply (for_range_panics _ 0 _ 0); [lia| |].
  - intros j s Hj. lia.
  - intros s. apply panics_bind_l. by eexists.
Qed.

Lemma cyclic_range (n : nat) (maxValue : Z) :
  0 < maxValue → Forall (λ x, 1 ≤ x ≤ maxValue) (cyclic n maxValue).
Proof.
  intros Hmax. unfold cyclic. apply Forall_fmap, Forall_forall. intros i _. simpl.
  pose proof (Z.rem_bound_pos (Z.of_nat i) maxValue ltac:(lia) Hmax). lia.
Qed.

(** ** Linear search, by outcome *)

Section LinearSearchResult.

Import searching.LinearSearch.

Variables (arr : list Z) (parameters : gmap string Value).

Local Abbreviation target := (intParam parameters "target" 5).

(** The result when [k] is the first position that holds the target. *)
Lemma LinearSearch_run_found (k : nat) :
  arr !! k = Some target → (∀ j : nat, (j < k)%nat → arr !! j ≠ Some target) →
  returns (run arr parameters)
    (VMap (object [
       ("found", VBool true);
       ("index", VInt (Z.of_nat k));
       ("value", VInt target);
       ("comparisons", VInt (wrap (Z.of_nat k + 1))) ]), None).
Proof.
  intros Hk Hfirst. unfold run. cbv zeta. apply returns_emit.
  assert (k < length arr)%nat as Hlen by (by eapply lookup_lt_Some).
  eapply (for_range_bind
    (λ j (r : option Result), r = None ∧ 0 ≤ j ≤ Z.of_nat k)
    (λ r, r = Some (VMap (object [
       ("found", VBool true);
       ("index", VInt (Z.of_nat k));
       ("value", VInt target);
       ("comparisons", VInt (wrap (Z.of_nat k + 1))) ]), None))).
  { split; [done|lia]. }
  { intros j r Hj [-> Hjk]. unfold check.
    assert (∃ nj : nat, j = Z.of_nat nj) as [nj ->] by (exists (Z.to_nat j); lia).
    destruct (lookup_lt_is_Some_2 arr nj) as [aj Haj]; [lia|].
    rewrite (index_lookup arr nj aj), bind_ret_l by done.
    rewrite (slice_in_range arr 0 (Z.of_nat nj + 1)), bind_ret_l by (unfold len in *; lia).
    rewrite (slice_in_range arr (Z.of_nat nj + 1) (len arr)), bind_ret_l by (unfold len in *; lia).
    destruct (decide (nj = k)) as [->|Hne].
    - assert (aj = target) as -> by congruence. rewrite Z.eqb_refl.
      eexists. split; [do 2 apply returns_emit; reflexivity|]. reflexivity.
    - destruct (Z.eqb_spec aj target) as [->|Hneq].
      + destruct (Hfirst nj); [lia|done].
      + eexists. split; [apply returns_emit; reflexivity|]. split; [done|lia]. }
  intros r [[_ Hge]| ->]; [unfold len in Hge; lia|]. reflexivity.
Qed.

(** The result when the target does not occur. *)
Lemma LinearSearch_run_absent :
  target ∉ arr →
  returns (run arr parameters)
    (VMap (object [
       ("found", VBool false);
       ("index", VInt (-1));
       ("value", VNil);
       ("comparisons", VInt (len arr)) ]), None).
Proof.
  intros Habsent. unfold run. cbv zeta. apply returns_emit.
  eapply (for_range_bind (λ j (r : option Result), r = None) (λ _, False)); [done| |].
  { intros j r Hj ->. unfold check.
    assert (∃ nj : nat, j = Z.of_nat nj) as [nj ->] by (exists (Z.to_nat j); lia).
    destruct (lookup_lt_is_Some_2 arr nj) as [aj Haj]; [unfold len in Hj; lia|].
    rewrite (index_lookup arr nj aj), bind_ret_l by done.
    rewrite (slice_in_range arr 0 (Z.of_nat nj + 1)), bind_ret_l by (unfold len in *; lia).
    rewrite (slice_in_range arr (Z.of_nat nj + 1) (len arr)), bind_ret_l by (unfold len in *; lia).
    destruct (Z.eqb_spec aj target) as [->|Hneq].
    - destruct Habsent. by eapply list_elem_of_lookup_2.
    - eexists. split; [apply returns_emit; reflexivity|]. done. }
  intros r [->|[]]. apply returns_emit. reflexivity.
Qed.

End LinearSearchResult.

(** Every element that occurs in a list has a first position. *)
Lemma first_position (l : list Z) (x : Z) :
  x ∈ l → ∃ k : nat, l !! k = Some x ∧ ∀ j : nat, (j < k)%nat → l !! j ≠ Some x.
Proof.
  induction l as [|y l IH]; intros Hin; [by apply elem_of_nil in Hin|].
  destruct (decide (y = x)) as [->|Hne].
  - exists 0%nat. split; [done|]. intros j Hj. lia.
  - apply elem_of_cons in Hin as [->|Hin]; [done|].
    destruct (IH Hin) as (k & Hk & Hfirst). exists (S k). split; [done|].
    intros [|j] Hj; simpl; [congruence|]. apply Hfirst. lia.
Qed.

(** ** Binary search, by outcome *)

Lemma StronglySorted_lookup_le (l : list Z) (i j : nat) (x y : Z) :
  StronglySorted Z.le l → (i ≤ j)%nat → l !! i = Some x → l !! j = Some y → x ≤ y.
Proof.
  intros Hs. revert i j. induction Hs as [|z l Hs IH Hall]; intros i j Hij Hi Hj; [done|].
  destruct i as [|i], j as [|j]; simpl in *; try lia.
  - by simplify_eq.
  - simplify_eq. rewrite Forall_forall in Hall. apply Hall. by eapply list_elem_of_lookup_2.
  - apply (IH i j); [lia|done|done].
Qed.

Section BinarySearchResult.

Import searching.BinarySearch.

Variables (arr : list Z) (target : Z).

Hypothesis arr_sorted : StronglySorted Z.le arr.
Hypothesis arr_fits : len arr < 2 ^ 62.

(** The search loop returns the position of the target when it occurs,
    after at most [log2 (len arr) + 1] comparisons. *)
Lemma search_returns :
  ∃ v, returns (while (S (length arr)) (λ v, left v <=? right v) (probe arr target)
                  (mkVars 0 (len arr - 1) 0 None)) v ∧
    (comparisons v = 0 ∨ (1 ≤ comparisons v ∧ 2 ^ (comparisons v - 1) ≤ len arr)) ∧
    (((target ∉ arr) ∧ returned v = None) ∨
     (∃ k : nat, arr !! k = Some target ∧
       returned v = Some (VMap (object [
         ("found", VBool true);
         ("index", VInt (Z.of_nat k));
         ("value", VInt target);
         ("comparisons", VInt (comparisons v)) ]), None))).
Proof.
  destruct (while_returns
    (λ v, 0 ≤ left v ∧ right v < len arr ∧ left v ≤ right v + 1 ∧ returned v = None ∧
          0 ≤ comparisons v ∧ comparisons v + (right v - left v + 1) ≤ len arr ∧
          (right v - left v + 1) * 2 ^ comparisons v ≤ len arr ∧
          (comparisons v = 0 ∨ (1 ≤ comparisons v ∧ 2 ^ (comparisons v - 1) ≤ len arr)) ∧
          (∀ k : nat, arr !! k = Some target → left v ≤ Z.of_nat k ≤ right v))
    (λ v, (1 ≤ comparisons v ∧ 2 ^ (comparisons v - 1) ≤ len arr) ∧
          ∃ k : nat, arr !! k = Some target ∧
            returned v = Some (VMap (object [
              ("found", VBool true);
              ("index", VInt (Z.of_nat k));
              ("value", VInt target);
              ("comparisons", VInt (comparisons v)) ]), None))
    (λ v, Z.to_nat (right v - left v + 1))
    (λ v, left v <=? right v) (probe arr target) (S (length arr))
    (mkVars 0 (len arr - 1) 0 None)) as (v & Hloop & Hpost).
  - cbn [left right comparisons returned]. unfold len.
    split_and!; try (done || lia).
    intros k Hk. apply lookup_lt_Some in Hk. lia.
  - cbn [left right]. unfold len. lia.
  - intros [l r c ret] (Hl & Hr & Hlr & Hret & Hc & Hsum & Hpow & Hlog & Hin) Hcond.
    cbn [left right comparisons returned] in *. subst ret. apply Z.leb_le in Hcond.
    assert (∃ mid : nat, l + (r - l) `quot` 2 = Z.of_nat mid ∧ l ≤ Z.of_nat mid ≤ r ∧
              2 * (r - Z.of_nat mid) ≤ r - l + 1 ∧ 2 * (Z.of_nat mid - l) ≤ r - l + 1)
      as (mid & Hmid & Hbounds & Hhalf1 & Hhalf2).
    { exists (Z.to_nat (l + (r - l) `quot` 2)).
      assert (r - l = 2 * ((r - l) ÷ 2) + Z.rem (r - l) 2) as Hdiv by (apply Z.quot_rem'; lia).
      assert (0 ≤ Z.rem (r - l) 2 < 2) by (apply Z.rem_bound_pos; lia).
      lia. }
    assert (incr c = c + 1) as Hincr by (unfold incr; apply wrap_small; lia).
    assert (0 < 2 ^ c) as Hpos by (apply Z.pow_pos_nonneg; lia).
    assert (2 ^ (c + 1) = 2 * 2 ^ c) as Hsucc by (rewrite Z.pow_add_r, Z.pow_1_r by lia; lia).
    assert (2 ^ c ≤ len arr) as Hlog' by nia.
    unfold probe. cbn [left right comparisons returned]. rewrite Hmid, Hincr.
    destruct (lookup_lt_is_Some_2 arr mid) as [amid Hamid]; [unfold len in *; lia|].
    rewrite (index_lookup arr mid amid), bind_ret_l by done.
    destruct (Z.eqb_spec amid target) as [->|Hne]; [|destruct (Z.ltb_spec amid target)].
    + eexists. split; [do 2 apply returns_emit; reflexivity|].
      cbn [comparisons returned]. split.
      * split; [lia|]. by replace (c + 1 - 1) with c by lia.
      * by exists mid.
    + eexists. split; [apply returns_emit; reflexivity|].
      cbn [left right comparisons returned]. split; [|lia]. split_and!; try (done || lia).
      * rewrite Hsucc. nia.
      * right. split; [lia|]. by replace (c + 1 - 1) with c by lia.
      * intros k Hk. specialize (Hin k Hk).
        destruct (decide (k ≤ mid)%nat) as [Hle|Hgt]; [|lia].
        pose proof (StronglySorted_lookup_le arr k mid target amid arr_sorted Hle Hk Hamid).
        lia.
    + eexists. split; [apply returns_emit; reflexivity|].
      cbn [left right comparisons returned]. split; [|lia]. split_and!; try (done || lia).
      * rewrite Hsucc. nia.
      * right. split; [lia|]. by replace (c + 1 - 1) with c by lia.
      * intros k Hk. specialize (Hin k Hk).
        destruct (decide (mid ≤ k)%nat) as [Hle|Hgt]; [|lia].
        pose proof (StronglySorted_lookup_le arr mid k amid target arr_sorted Hle Hamid Hk).
        lia.
  - exists v. split; [done|].
    destruct Hpost as [[(Hl & Hr & Hlr & Hret & Hc & Hsum & Hpow & Hlog & Hin) Hcond]|[Hlog Hk]].
    + split; [done|]. left. split; [|done]. apply Z.leb_gt in Hcond.
      intros [k Hk]%list_elem_of_lookup. specialize (Hin k Hk). lia.
    + split; [by right|]. by right.
Qed.

End BinarySearchResult.

(** The whole search: the outcome on the sorted copy of [arr0]. *)
Lemma BinarySearch_run_result (arr0 : list Z) (parameters : gmap string Value) :
  let target := intParam parameters "target" 5 in
  len arr0 < 2 ^ 62 →
  ∃ c, (c = 0 ∨ (1 ≤ c ∧ 2 ^ (c - 1) ≤ len arr0)) ∧
    (((target ∉ arr0) ∧
      returns (searching.BinarySearch.run arr0 parameters)
        (VMap (object [
           ("found", VBool false);
           ("index", VInt (-1));
           ("value", VNil);
           ("comparisons", VInt c) ]), None)) ∨
     (∃ k : nat, searching.sort_Ints arr0 !! k = Some target ∧
      returns (searching.BinarySearch.run arr0 parameters)
        (VMap (object [
           ("found", VBool true);
           ("index", VInt (Z.of_nat k));
           ("value", VInt target);
           ("comparisons", VInt c) ]), None))).
Proof.
  intros target Hfits. unfold searching.BinarySearch.run. fold target.
  set (arr := searching.sort_Ints arr0).
  assert (arr ≡ₚ arr0) as Hperm by apply sort_Ints_permutation.
  assert (len arr = len arr0) as Hlen by (unfold len; by rewrite Hperm).
  assert (StronglySorted Z.le arr) as Hsorted.
  { apply (StronglySorted_merge_sort _). }
  destruct (search_returns arr target Hsorted ltac:(lia)) as (v & Hloop & Hlog & Hres).
  exists (searching.BinarySearch.comparisons v). rewrite <- Hlen. split; [done|].
  destruct Hres as [[Habsent Hret]|(k & Hk & Hret)].
  - left. split; [by rewrite <- Hperm|].
    apply returns_emit. eapply returns_bind; [exact Hloop|]. rewrite Hret.
    apply returns_emit. reflexivity.
  - right. exists k. split; [done|].
    apply returns_emit. eapply returns_bind; [exact Hloop|]. rewrite Hret. reflexivity.
Qed.

(** ** Hash lookup *)

Lemma decodeRune_nonneg (b0 : Z) (rest : list Z) : 0 ≤ b0 → 0 ≤ (decodeRune b0 rest).1.
Proof.
  intros Hb0. unfold decodeRune, RuneError.
  repeat (case_match; simpl; try lia);
    repeat (apply Z.lor_nonneg; split);
    try (apply Z.shiftl_nonneg); apply Z.land_nonneg; lia.
Qed.

Lemma runesFrom_nonneg (p : list Z) : ∀ skip,
  Forall (λ b, 0 ≤ b) p → Forall (λ r, 0 ≤ r) (runesFrom skip p).
Proof.
  induction p as [|b0 rest IH]; intros skip Hp; [constructor|].
  apply Forall_cons in Hp as [Hb0 Hrest]. simpl. destruct skip as [|skip]; [|by apply IH].
  pose proof (decodeRune_nonneg b0 rest Hb0) as Hr.
  destruct (decodeRune b0 rest) as [r size]. constructor; [done|by apply IH].
Qed.

Lemma runes_nonneg (s : string) : Forall (λ r, 0 ≤ r) (runes s).
Proof.
  unfold runes. apply runesFrom_nonneg. unfold bytes. apply Forall_fmap, Forall_forall.
  intros c _. simpl. lia.
Qed.

Lemma modulo_nonzero (a b : Z) : b ≠ 0 → modulo a b = mret (Z.rem a b).
Proof. intros Hb. unfold modulo. by destruct (Z.eqb_spec b 0). Qed.

(** The loop of the hash, for a divisor other than zero. *)
Lemma hash_loop (l : list Z) (size : Z) : ∀ h0,
  size ≠ 0 →
  for_each l (λ char hash, modulo (hash + char) size) h0
  = mret (foldl (λ hash char, Z.rem (hash + char) size) h0 l).
Proof.
  induction l as [|c l IH]; intros h0 Hsize; [reflexivity|]. cbn [for_each foldl].
  rewrite (modulo_nonzero (h0 + c) size), bind_ret_l by done. by apply IH.
Qed.

Lemma hashFunction_hashOf (key : string) (tableSize : Z) :
  tableSize ≠ 0 →
  searching.HashLookup.hashFunction key tableSize = mret (hashOf key tableSize).
Proof. intros H. unfold searching.HashLookup.hashFunction. by apply hash_loop. Qed.

(** For an empty table and a non-empty key, the hash divides by zero. *)
Lemma hashFunction_zero (key : string) :
  key ≠ EmptyString → panics (searching.HashLookup.hashFunction key 0).
Proof.
  intros Hkey. unfold searching.HashLookup.hashFunction, runes.
  destruct key as [|c key]; [done|]. unfold bytes. simpl.
  destruct (decodeRune _ _) as [r size]. simpl. by eexists.
Qed.

Lemma hashOf_range (key : string) (size : Z) : 0 < size → 0 ≤ hashOf key size < size.
Proof.
  intros Hsize. unfold hashOf.
  assert (∀ l h0, Forall (λ r, 0 ≤ r) l → 0 ≤ h0 < size →
    0 ≤ foldl (λ hash char, Z.rem (hash + char) size) h0 l < size) as Hfold.
  { induction l as [|c l IH]; intros h0 Hl Hh0; [done|].
    apply Forall_cons in Hl as [Hc Hl]. simpl. apply IH; [done|].
    apply Z.rem_bound_pos; lia. }
  apply Hfold; [apply runes_nonneg|lia].
Qed.

Lemma stored_S (size : Z) (n : nat) :
  (n < 10)%nat → Z.of_nat n < size →
  take (S n) sampleEntries =
  take n sampleEntries ++
    [{| Key := sampleKeys !!! n; Value_ := sampleValues !!! n |}].
Proof.
  intros Hn _. do 10 (destruct n as [|n]; [reflexivity|]). lia.
Qed.

(** [generateHashTable] files every stored entry under the hash of its
    key, in the order of the sample data. *)
Lemma generateHashTable_spec (size : Z) :
  size ≠ 0 →
  ∃ hashTable, searching.HashLookup.generateHashTable size = mret hashTable ∧
    ∀ h, default [] (hashTable !! h)
           = filter (λ e, hashOf (Key e) size = h) (stored size).
Proof.
  intros Hsize. unfold searching.HashLookup.generateHashTable.
  destruct (for_range_spec
    (λ j (T : gmap Z (list HashEntry)) t, t = [] ∧
       ∃ nj : nat, j = Z.of_nat nj ∧ (nj ≤ 10)%nat ∧ Z.of_nat nj ≤ Z.max size 0 ∧
         ∀ h, default [] (T !! h)
                = filter (λ e, hashOf (Key e) size = h) (take nj sampleEntries))
    (λ T t, t = [] ∧
       ∀ h, default [] (T !! h) = filter (λ e, hashOf (Key e) size = h) (stored size))
    (λ i (hashTable : gmap Z (list HashEntry)),
       key ← index sampleKeys i;
       if size <=? i then mret (Break hashTable)
       else
         hash ← for_each (runes key) (λ char hash, modulo (hash + char) size) 0;
         value ← index sampleValues i;
         let entry := {| Key := key; Value_ := value |} in
         mret (Continue (<[hash := default [] (hashTable !! hash) ++ [entry]]> hashTable)))
    0 10 ∅ []) as (t & T & Heq & Hpost).
  - split; [done|]. exists 0%nat. split_and!; [done|lia|lia|]. intros h. by rewrite lookup_empty.
  - intros j T t Hj (-> & nj & -> & Hnj & Hsz & HT).
    rewrite (index_total sampleKeys nj), bind_ret_l by (simpl; lia).
    destruct (Z.leb_spec size (Z.of_nat nj)) as [Hle|Hgt].
    + exists [], (Break T). split; [reflexivity|]. split; [done|].
      intros h. rewrite HT. unfold stored. do 2 f_equal. lia.
    + rewrite hash_loop, bind_ret_l by done.
      rewrite (index_total sampleValues nj), bind_ret_l by (simpl; lia).
      eexists [], _. split; [reflexivity|]. split; [done|].
      exists (S nj). split_and!; [lia|lia|lia|].
      intros h. rewrite (stored_S size nj) by lia.
      rewrite filter_app, filter_cons, filter_nil. cbn [Key].
      fold (hashOf (sampleKeys !!! nj) size).
      set (key := _ !!! nj). set (value := _ !!! nj).
      destruct (decide (hashOf key size = h)) as [<-|Hne].
      * rewrite lookup_insert_eq. simpl. by rewrite HT.
      * rewrite lookup_insert_ne by done. by rewrite HT, app_nil_r.
  - exists T.
    assert (t = [] ∧ ∀ h, default [] (T !! h)
                          = filter (λ e, hashOf (Key e) size = h) (stored size)) as [-> HT].
    { destruct Hpost as [(Ht & nj & Hnj & _ & Hsz & HT)|[Ht HT]]; [|done].
      simpl in Ht. split; [done|]. intros h. rewrite HT. unfold stored.
      assert (nj = 10%nat) as -> by lia.
      rewrite !take_ge; [done|simpl; lia|simpl; lia]. }
    split; [|done]. exact Heq.
Qed.

Section BucketSearch.

Import searching.HashLookup.

Variables (hashTable : gmap Z (list HashEntry)) (key : string) (hash : Z).

(** The search within a bucket stops at the first entry that has the
    key. *)
Lemma bucket_search (bucket : list HashEntry) :
  (∃ (k : nat) (e : HashEntry), bucket !! k = Some e ∧ Key e = key ∧
     (∀ (j : nat) e', (j < k)%nat → bucket !! j = Some e' → Key e' ≠ key) ∧
     returns (for_range 0 (len bucket) (checkEntry hashTable key hash bucket) None)
       (Some (VMap (object [
          ("found", VBool true);
          ("key", VString key);
          ("value", VString (Value_ e));
          ("hash", VInt hash);
          ("collisions", VInt (len bucket - 1)) ]), None))) ∨
  ((∀ e, e ∈ bucket → Key e ≠ key) ∧
   returns (for_range 0 (len bucket) (checkEntry hashTable key hash bucket) None) None).
Proof.
  destruct (for_range_returns
    (λ j (r : option Result), r = None ∧
       ∀ (i : nat) e, Z.of_nat i < j → bucket !! i = Some e → Key e ≠ key)
    (λ r, ∃ (k : nat) (e : HashEntry), bucket !! k = Some e ∧ Key e = key ∧
       (∀ (j : nat) e', (j < k)%nat → bucket !! j = Some e' → Key e' ≠ key) ∧
       r = Some (VMap (object [
          ("found", VBool true);
          ("key", VString key);
          ("value", VString (Value_ e));
          ("hash", VInt hash);
          ("collisions", VInt (len bucket - 1)) ]), None))
    (checkEntry hashTable key hash bucket) 0 (len bucket) None) as (r & Hloop & Hpost).
  - split; [done|]. intros i e Hi. lia.
  - intros j r Hj [-> Hbefore]. unfold checkEntry.
    assert (∃ nj : nat, j = Z.of_nat nj) as [nj ->] by (exists (Z.to_nat j); lia).
    destruct (lookup_lt_is_Some_2 bucket nj) as [e He]; [unfold len in Hj; lia|].
    rewrite (index_lookup bucket nj e), bind_ret_l by done.
    case_bool_decide as Hkey.
    + eexists. split; [do 2 apply returns_emit; reflexivity|].
      exists nj, e. split_and!; [done|done| |done].
      intros i e' Hi. apply Hbefore. lia.
    + eexists. split; [apply returns_emit; reflexivity|]. split; [done|].
      intros i e' Hi He'. destruct (decide (i = nj)) as [->|Hne].
      * by simplify_eq.
      * apply (Hbefore i); [lia|done].
  - destruct Hpost as [[-> Hnone]|(k & e & Hk & Hkey & Hfirst & ->)].
    + right. split; [|done]. intros e [i Hi]%list_elem_of_lookup.
      apply (Hnone i); [|done]. apply lookup_lt_Some in Hi. unfold len. lia.
    + left. by exists k, e.
Qed.

End BucketSearch.

Lemma NoDup_fmap_eq {A B} (f : A → B) (l : list A) (x y : A) :
  NoDup (f <$> l) → x ∈ l → y ∈ l → f x = f y → x = y.
Proof.
  induction l as [|z l IH]; intros Hnd Hx Hy Hf; [by apply elem_of_nil in Hx|].
  rewrite fmap_cons in Hnd. apply NoDup_cons in Hnd as [Hz Hnd].
  apply elem_of_cons in Hx as [->|Hx], Hy as [->|Hy]; [done| | |by apply IH].
  - destruct Hz. rewrite Hf. by apply list_elem_of_fmap_2.
  - destruct Hz. rewrite <- Hf. by apply list_elem_of_fmap_2.
Qed.

Lemma sampleEntries_NoDup : NoDup (Key <$> sampleEntries).
Proof. apply (bool_decide_unpack _). vm_compute. exact I. Qed.

Lemma stored_subseteq (size : Z) (e : HashEntry) : e ∈ stored size → e ∈ sampleEntries.
Proof. unfold stored. apply subseteq_take. Qed.

(** The lookup finds the value of every stored key and no other key. *)
Lemma HashLookup_Execute_spec (input : Value) (parameters : gmap string Value) :
  let tableSize := intParam parameters "table_size" 10 in
  let key := stringParam parameters "key" "key5" in
  tableSize ≠ 0 →
  (∃ e, e ∈ stored tableSize ∧ Key e = key ∧
     returns (searching.HashLookup.Execute input parameters)
       (VMap (object [
          ("found", VBool true);
          ("key", VString key);
          ("value", VString (Value_ e));
          ("hash", VInt (hashOf key tableSize));
          ("collisions",
           VInt (len (filter (λ e, hashOf (Key e) tableSize = hashOf key tableSize)
                        (stored tableSize)) - 1)) ]), None)) ∨
  ((key ∉ Key <$> stored tableSize) ∧
   returns (searching.HashLookup.Execute input parameters)
     (VMap (object [
        ("found", VBool false);
        ("key", VString key);
        ("value", VNil);
        ("hash", VInt (hashOf key tableSize)) ]), None)).
Proof.
  intros tableSize key Hsize. unfold searching.HashLookup.Execute. fold tableSize key.
  destruct (generateHashTable_spec tableSize Hsize) as (T & -> & HT).
  rewrite bind_ret_l, hashFunction_hashOf by done.
  set (h := hashOf key tableSize).
  set (bucket := filter (λ e, hashOf (Key e) tableSize = h) (stored tableSize)).
  assert (∀ e, e ∈ bucket ↔ e ∈ stored tableSize ∧ hashOf (Key e) tableSize = h) as Hbucket.
  { intros e. unfold bucket. rewrite list_elem_of_filter. tauto. }
  specialize (HT h). fold bucket in HT.
  destruct (bucket_search T key h bucket)
    as [(k & e & Hk & Hkey & _ & Hsearch)|[Hnone Hsearch]].
  - left. exists e. split_and!; [|done|].
    { apply list_elem_of_lookup_2 in Hk. by apply Hbucket in Hk as [? _]. }
    apply returns_emit. rewrite bind_ret_l. apply returns_emit.
    destruct (T !! h) as [b|] eqn:HTh; simpl in HT.
    + subst b. eapply (returns_bind _ _ (Some _)).
      { apply returns_emit. exact Hsearch. }
      reflexivity.
    + rewrite <- HT in Hk. done.
  - right. split.
    { intros (e & Hkey & He)%list_elem_of_fmap.
      apply (Hnone e); [|done]. apply Hbucket. split; [done|]. unfold h. by rewrite Hkey. }
    apply returns_emit. rewrite bind_ret_l. apply returns_emit.
    destruct (T !! h) as [b|] eqn:HTh; simpl in HT.
    + subst b. eapply (returns_bind _ _ None).
      { apply returns_emit. exact Hsearch. }
      apply returns_emit. reflexivity.
    + rewrite bind_ret_l. apply returns_emit. reflexivity.
Qed.

(** ** Graph traversals *)

Section Graph.

Variable n : nat.

Lemma neighborsOf_range (i x : Z) :
  0 ≤ i < Z.of_nat n → x ∈ neighborsOf (Z.of_nat n) i → 0 ≤ x < Z.of_nat n.
Proof.
  intros Hi. unfold neighborsOf.
  rewrite !elem_of_app. repeat case_match;
    rewrite ?list_elem_of_singleton, ?elem_of_nil; intros [?|[?|?]]; try done;
    repeat match goal with H : (_ <? _) = true |- _ => apply Z.ltb_lt in H end; lia.
Qed.

Lemma neighborsOf_succ (i : Z) : i < Z.of_nat n - 1 → i + 1 ∈ neighborsOf (Z.of_nat n) i.
Proof.
  intros Hi. unfold neighborsOf. rewrite !elem_of_app. right. left.
  destruct (Z.ltb_spec i (Z.of_nat n - 1)); [by left|lia].
Qed.

Lemma neighborsOf_pred (i : Z) : 0 < i → i - 1 ∈ neighborsOf (Z.of_nat n) i.
Proof.
  intros Hi. unfold neighborsOf. rewrite !elem_of_app. left.
  destruct (Z.ltb_spec 0 i); [by left|lia].
Qed.

Lemma neighborsOf_length (i : Z) : (length (neighborsOf (Z.of_nat n) i) ≤ 3)%nat.
Proof. unfold neighborsOf. repeat case_match; simpl; lia. Qed.

Lemma generatedGraph_length : length (generatedGraph n) = n.
Proof. unfold generatedGraph. by rewrite length_fmap, length_seq. Qed.

Lemma generatedGraph_lookup (i : nat) :
  (i < n)%nat → generatedGraph n !! i = Some (neighborsOf (Z.of_nat n) (Z.of_nat i)).
Proof.
  intros Hi. unfold generatedGraph. rewrite list_lookup_fmap, lookup_seq_lt by done. done.
Qed.

End Graph.

Lemma generateGraph_spec (n : nat) :
  searching.generateGraph (Z.of_nat n) = mret (generatedGraph n).
Proof.
  unfold searching.generateGraph. rewrite make_length, bind_ret_l.
  destruct (for_range_spec
    (λ i (graph : list (list Z)) t, t = [] ∧ 0 ≤ i ≤ Z.of_nat n ∧
       graph = ((λ i, neighborsOf (Z.of_nat n) (Z.of_nat i)) <$> seq 0 (Z.to_nat i))
               ++ replicate (n - Z.to_nat i) [])
    (λ _ _, False)
    (λ i graph,
       let neighbors := [] in
       let neighbors := if 0 <? i then neighbors ++ [i - 1] else neighbors in
       let neighbors := if i <? Z.of_nat n - 1 then neighbors ++ [i + 1] else neighbors in
       let neighbors := if i + 2 <? Z.of_nat n then neighbors ++ [i + 2] else neighbors in
       graph ← store graph i neighbors;
       mret (Continue graph))
    0 (Z.of_nat n) (replicate n []) []) as (t & graph & Heq & [(Ht & _ & Hgraph)|[]]).
  - split; [done|]. split; [lia|]. simpl. by rewrite Nat.sub_0_r.
  - intros j graph t Hj (-> & _ & ->).
    eexists [], (Continue _). split; [|split; [done|split; [lia|reflexivity]]].
    cbv zeta. rewrite store_in_range_Z, bind_ret_l.
    2:{ unfold len. rewrite length_app, length_fmap, length_seq, length_replicate. lia. }
    do 2 f_equal.
    replace (Z.to_nat (j + 1)) with (S (Z.to_nat j)) by lia.
    rewrite insert_app_r_alt by (rewrite length_fmap, length_seq; lia).
    rewrite length_fmap, length_seq, Nat.sub_diag, seq_S, fmap_app, <- app_assoc.
    replace (n - Z.to_nat j)%nat with (S (n - S (Z.to_nat j))) by lia.
    simpl. rewrite Z2Nat.id by lia. do 2 f_equal.
    unfold neighborsOf. by repeat case_match.
  - simpl in Ht. subst t. etrans; [exact Heq|]. unfold mret, Run_ret, ret. do 2 f_equal.
    rewrite Hgraph. replace (Z.to_nat (0 `max` Z.of_nat n)) with n by lia.
    rewrite Nat.sub_diag. simpl. by rewrite app_nil_r.
Qed.

Lemma unvisited_mark (visited : list bool) (i : nat) :
  visited !! i = Some false →
  (unvisited (<[i := true]> visited) + 1 = unvisited visited)%nat.
Proof.
  intros Hi. apply list_elem_of_split_length in Hi as (l1 & l2 & -> & ->).
  rewrite insert_app_r_alt, Nat.sub_diag by lia. simpl.
  unfold unvisited. rewrite !filter_app, !filter_cons, !length_app.
  rewrite decide_False by done. rewrite decide_True by done. simpl. lia.
Qed.

(** The loop that pushes the unmarked neighbours. *)
Lemma push_spec (visited : list bool) (neighbors : list Z) : ∀ pending : list Z,
  Forall (λ x, 0 ≤ x < len visited) neighbors →
  for_each neighbors
    (λ neighbor pending,
       seen ← index visited neighbor;
       mret (if negb (seen : bool) then pending ++ [neighbor] else pending)) pending
  = mret (pending ++ filter (λ x, visited !! Z.to_nat x = Some false) neighbors).
Proof.
  induction neighbors as [|x neighbors IH]; intros pending Hrange.
  - simpl. by rewrite app_nil_r.
  - apply Forall_cons in Hrange as [Hx Hrange]. cbn [for_each].
    destruct (lookup_lt_is_Some_2 visited (Z.to_nat x)) as [b Hb]; [unfold len in Hx; lia|].
    rewrite (index_in_range visited x b), bind_ret_l by (done || lia).
    rewrite bind_ret_l, IH by done. rewrite filter_cons.
    destruct b; simpl.
    + rewrite decide_False by congruence. done.
    + rewrite decide_True by done. by rewrite <- app_assoc.
Qed.

Section Traversing.

Variables (n : nat) (start target : Z).

Implicit Types (visited : list bool) (pending path rest : list Z) (current : Z).

Lemma traversing_init :
  0 ≤ start < Z.of_nat n → traversing n start target (replicate n false) [start] [].
Proof.
  intros Hstart. unfold traversing. split_and!.
  - by rewrite length_replicate.
  - by apply Forall_singleton.
  - constructor.
  - intros x Hx. rewrite lookup_replicate_2 by lia. split; [done|].
    intros H. by apply elem_of_nil in H.
  - constructor.
  - apply not_elem_of_nil.
  - intros x y H. by apply elem_of_nil in H.
  - by left.
Qed.

Lemma traversing_seen visited pending path current rest :
  traversing n start target visited pending path →
  pending ≡ₚ current :: rest → visited !! Z.to_nat current = Some true →
  traversing n start target visited rest path ∧ (length rest < length pending)%nat.
Proof.
  intros (Hlen & Hpending & Hpath & Hmarked & Hnodup & Htarget & Hclosed & Hhead) Hperm Hseen.
  rewrite Hperm in Hpending. apply Forall_cons in Hpending as [Hcurrent Hrest].
  assert (current ∈ path) as Hin by (by apply Hmarked).
  split; [|rewrite Hperm; simpl; lia].
  unfold traversing. split_and!; try done.
  - intros x y Hx Hy. destruct (Hclosed x y Hx Hy) as [?|Hy']; [by left|].
    rewrite Hperm in Hy'. apply elem_of_cons in Hy' as [->|?]; [by left|by right].
  - destruct Hhead as [[-> _]|?]; [by apply elem_of_nil in Hin|by right].
Qed.

Lemma traversing_mark visited pending path current rest :
  traversing n start target visited pending path →
  pending ≡ₚ current :: rest → visited !! Z.to_nat current = Some false →
  let visited' := <[Z.to_nat current := true]> visited in
  let pushed := filter (λ x, visited' !! Z.to_nat x = Some false)
                  (neighborsOf (Z.of_nat n) current) in
  0 ≤ current < Z.of_nat n ∧
  head (path ++ [current]) = Some start ∧ NoDup (path ++ [current]) ∧
  Forall (λ x, 0 ≤ x < Z.of_nat n) (path ++ [current]) ∧
  (3 * unvisited visited' + length (rest ++ pushed)
   < 3 * unvisited visited + length pending)%nat ∧
  (current ≠ target →
   traversing n start target visited' (rest ++ pushed) (path ++ [current])).
Proof.
  intros (Hlen & Hpending & Hpath & Hmarked & Hnodup & Htarget & Hclosed & Hhead) Hperm Hseen
    visited' pushed.
  assert (Forall (λ x, 0 ≤ x < Z.of_nat n) (current :: rest)) as Hall by (by rewrite <- Hperm).
  apply Forall_cons in Hall as [Hcurrent Hrest].
  assert (current ∉ path) as Hnotin.
  { intros Hin. apply Hmarked in Hin; [|done]. congruence. }
  assert (Forall (λ x, 0 ≤ x < Z.of_nat n) pushed) as Hpushed.
  { apply Forall_forall. intros x [_ Hx]%list_elem_of_filter.
    by apply (neighborsOf_range n current). }
  assert (head (path ++ [current]) = Some start) as Hhead'.
  { destruct Hhead as [[-> Hp]|Hhead].
    - rewrite Hp in Hperm. apply Permutation_singleton_l in Hperm. by simplify_eq.
    - destruct path; [done|]. done. }
  assert (NoDup (path ++ [current])) as Hnodup'.
  { apply NoDup_app. split_and!; [done| |apply NoDup_singleton].
    intros x Hx ->%list_elem_of_singleton. done. }
  assert (∀ x, 0 ≤ x < Z.of_nat n →
            (visited' !! Z.to_nat x = Some true ↔ x ∈ path ++ [current])) as Hmarked'.
  { intros x Hx. unfold visited'. rewrite elem_of_app, list_elem_of_singleton.
    destruct (decide (x = current)) as [->|Hne].
    - rewrite list_lookup_insert_eq by lia. split; [by right|done].
    - rewrite list_lookup_insert_ne by lia. rewrite Hmarked by done. split; [by left|].
      by intros [?|?]. }
  split_and!; [lia|lia|done|done| | |].
  - apply Forall_app. split; [done|]. by apply Forall_singleton.
  - pose proof (unvisited_mark visited (Z.to_nat current) Hseen) as Hcount.
    fold visited' in Hcount.
    assert (length pushed ≤ 3)%nat.
    { etrans; [apply length_filter|]. apply neighborsOf_length. }
    rewrite Hperm, length_app. simpl. lia.
  - intros Hne. unfold traversing. split_and!; try done.
    + unfold visited'. by rewrite length_insert.
    + by apply Forall_app.
    + apply Forall_app. split; [done|]. by apply Forall_singleton.
    + intros Hin. apply elem_of_app in Hin as [?|?%list_elem_of_singleton]; done.
    + intros x y Hx Hy. rewrite !elem_of_app, list_elem_of_singleton.
      apply elem_of_app in Hx as [Hx| ->%list_elem_of_singleton].
      * destruct (Hclosed x y Hx Hy) as [?|Hy']; [left; by left|].
        rewrite Hperm in Hy'. apply elem_of_cons in Hy' as [->|?]; [left; by right|].
        right. by left.
      * pose proof (neighborsOf_range n current y Hcurrent Hy) as Hrange.
        destruct (lookup_lt_is_Some_2 visited' (Z.to_nat y)) as [[|] Hb].
        { unfold visited'. rewrite length_insert. lia. }
        -- left. apply Hmarked' in Hb; [|done].
           apply elem_of_app in Hb as [?|?%list_elem_of_singleton]; [by left|by right].
        -- right. right. by apply list_elem_of_filter.
    + by right.
Qed.

(** When nothing is pending, every node has been visited. *)
Lemma traversing_done visited path :
  0 ≤ start < Z.of_nat n → traversing n start target visited [] path →
  ∀ x, 0 ≤ x < Z.of_nat n → x ∈ path.
Proof.
  intros Hstart (Hlen & _ & Hpath & Hmarked & Hnodup & Htarget & Hclosed & Hhead).
  assert (start ∈ path) as Hin.
  { destruct Hhead as [[_ ?]|Hhead]; [done|]. destruct path; [done|].
    simpl in Hhead. simplify_eq. by left. }
  assert (∀ x y, x ∈ path → y ∈ neighborsOf (Z.of_nat n) x → y ∈ path) as Hstep.
  { intros x y Hx Hy. destruct (Hclosed x y Hx Hy) as [?|?%elem_of_nil]; done. }
  assert (∀ k : nat, start + Z.of_nat k < Z.of_nat n → start + Z.of_nat k ∈ path) as Hup.
  { induction k as [|k IH]; intros Hk; [by rewrite Z.add_0_r|].
    replace (start + Z.of_nat (S k)) with (start + Z.of_nat k + 1) by lia.
    apply (Hstep (start + Z.of_nat k)); [apply IH; lia|]. apply neighborsOf_succ. lia. }
  assert (∀ k : nat, 0 ≤ start - Z.of_nat k → start - Z.of_nat k ∈ path) as Hdown.
  { induction k as [|k IH]; intros Hk; [by rewrite Z.sub_0_r|].
    replace (start - Z.of_nat (S k)) with (start - Z.of_nat k - 1) by lia.
    apply (Hstep (start - Z.of_nat k)); [apply IH; lia|]. apply neighborsOf_pred. lia. }
  intros x Hx. destruct (Z.le_gt_cases start x).
  - replace x with (start + Z.of_nat (Z.to_nat (x - start))) by lia. apply Hup. lia.
  - replace x with (start - Z.of_nat (Z.to_nat (start - x))) by lia. apply Hdown. lia.
Qed.

End Traversing.

(** Popping the last element of a slice and the first one. *)
Lemma index_last {A} (l : list A) (x : A) : index (l ++ [x]) (len (l ++ [x]) - 1) = mret x.
Proof.
  replace (len (l ++ [x]) - 1) with (len l) by (unfold len; rewrite length_app; simpl; lia).
  apply index_middle.
Qed.

Lemma slice_init {A} (l : list A) (x : A) :
  slice (l ++ [x]) 0 (len (l ++ [x]) - 1) = mret l.
Proof.
  rewrite slice_in_range by (unfold len; rewrite length_app; simpl; lia).
  replace (Z.to_nat (len (l ++ [x]) - 1 - 0)) with (length l)
    by (unfold len; rewrite length_app; simpl; lia).
  change (Z.to_nat 0) with 0%nat. by rewrite drop_0, take_app_length.
Qed.

Lemma slice_tail {A} (l : list A) (x : A) : slice (x :: l) 1 (len (x :: l)) = mret l.
Proof.
  rewrite slice_in_range by (unfold len; simpl; lia).
  replace (Z.to_nat (len (x :: l) - 1)) with (length l) by (unfold len; simpl; lia).
  change (Z.to_nat 1) with 1%nat. simpl. by rewrite take_ge.
Qed.

Section Visit.

Import searching.

Variables (n : nat) (start target : Z).

(** The two traversals differ by the end of [pending] they pop. *)
Lemma visit_spec (visit : list (list Z) → Z → Traversal → Run (Ctl Traversal))
    (v : Traversal) (current : Z) (rest : list Z) :
  (∀ (b : bool), visited v !! Z.to_nat current = Some b → 0 ≤ current →
     returns (visit (generatedGraph n) target v)
       (if b then Continue (mkTraversal (visited v) rest (path v) (stepNumber v) None)
        else
          let visited' := <[Z.to_nat current := true]> (visited v) in
          let path' := path v ++ [current] in
          if current =? target then
            Break (mkTraversal visited' rest path' (incr (stepNumber v))
                     (Some (VMap (object [
                        ("found", VBool true);
                        ("target", VInt target);
                        ("path", VInts path');
                        ("visited", VBools visited') ]), None)))
          else
            Continue (mkTraversal visited'
                        (rest ++ filter (λ x, visited' !! Z.to_nat x = Some false)
                                   (neighborsOf (Z.of_nat n) current))
                        path' (incr (incr (stepNumber v))) None))) →
  pending v ≡ₚ current :: rest →
  traversing n start target (visited v) (pending v) (path v) →
  ∃ c, returns (visit (generatedGraph n) target v) c ∧
    match c with
    | Continue v' =>
        (traversing n start target (visited v') (pending v') (path v') ∧
         returned v' = None) ∧
        (3 * unvisited (visited v') + length (pending v')
         < 3 * unvisited (visited v) + length (pending v))%nat
    | Break v' => foundResult n start target (returned v')
    end.
Proof.
  intros Hvisit Hperm Hinv.
  assert (0 ≤ current < Z.of_nat n) as Hcurrent.
  { destruct Hinv as (_ & Hpending & _). rewrite Hperm in Hpending.
    by apply Forall_cons in Hpending as [? _]. }
  assert (length (visited v) = n) as Hlen by apply Hinv.
  destruct (lookup_lt_is_Some_2 (visited v) (Z.to_nat current)) as [b Hb]; [lia|].
  specialize (Hvisit b Hb ltac:(lia)). destruct b.
  - eexists. split; [exact Hvisit|]. cbn [visited pending path returned].
    destruct (traversing_seen n start target _ _ _ _ _ Hinv Hperm Hb) as [Hinv' Hless].
    split; [done|]. lia.
  - destruct (traversing_mark n start target _ _ _ _ _ Hinv Hperm Hb)
      as (_ & Hhead & Hnodup & Hrange & Hless & Hinv').
    cbv zeta in Hvisit. destruct (Z.eqb_spec current target) as [Heq|Hne].
    + eexists. split; [exact Hvisit|]. cbn [returned].
      eexists _, _. split_and!; [reflexivity|done| |done|done].
      by rewrite last_snoc, Heq.
    + eexists. split; [exact Hvisit|]. cbn [visited pending path returned].
      split; [|done]. split; [|done]. by apply Hinv'.
Qed.

Lemma DFS_visit_spec (v : Traversal) :
  traversing n start target (visited v) (pending v) (path v) →
  (0 <? len (pending v)) = true →
  ∃ c, returns (searching.DFS.visit (generatedGraph n) target v) c ∧
    match c with
    | Continue v' =>
        (traversing n start target (visited v') (pending v') (path v') ∧
         returned v' = None) ∧
        (3 * unvisited (visited v') + length (pending v')
         < 3 * unvisited (visited v) + length (pending v))%nat
    | Break v' => foundResult n start target (returned v')
    end.
Proof.
  intros Hinv Hcond. apply Z.ltb_lt in Hcond.
  assert (∃ stack current, pending v = stack ++ [current]) as (stack & current & Hpending).
  { destruct (pending v) as [|x l _] using rev_ind; [unfold len in Hcond; simpl in *; lia|].
    by eexists _, _. }
  apply (visit_spec DFS.visit v current stack);
    [|by rewrite Hpending, Permutation_app_comm|done].
  intros b Hb Hpos. unfold searching.DFS.visit. rewrite Hpending.
  rewrite index_last, bind_ret_l, slice_init, bind_ret_l.
  rewrite (index_in_range _ current b), bind_ret_l by done.
  assert (0 ≤ current < Z.of_nat n) as Hcurrent.
  { destruct Hinv as (Hlen & _). apply lookup_lt_Some in Hb. lia. }
  assert (length (visited v) = n) as Hlen by apply Hinv.
  destruct b; [reflexivity|].
  rewrite store_in_range_Z, bind_ret_l by (unfold len; lia).
  apply returns_emit. destruct (current =? target); [apply returns_emit; reflexivity|].
  rewrite (index_in_range _ current (neighborsOf (Z.of_nat n) current)), bind_ret_l.
  2:{ lia. }
  2:{ rewrite <- (Z2Nat.id current) at 2 by lia. apply generatedGraph_lookup. lia. }
  rewrite push_spec, bind_ret_l.
  2:{ apply Forall_forall. intros x Hx. unfold len. rewrite length_insert, Hlen.
      by apply (neighborsOf_range n current). }
  apply returns_emit. reflexivity.
Qed.

Lemma BFS_visit_spec (v : Traversal) :
  traversing n start target (visited v) (pending v) (path v) →
  (0 <? len (pending v)) = true →
  ∃ c, returns (searching.BFS.visit (generatedGraph n) target v) c ∧
    match c with
    | Continue v' =>
        (traversing n start target (visited v') (pending v') (path v') ∧
         returned v' = None) ∧
        (3 * unvisited (visited v') + length (pending v')
         < 3 * unvisited (visited v) + length (pending v))%nat
    | Break v' => foundResult n start target (returned v')
    end.
Proof.
  intros Hinv Hcond. apply Z.ltb_lt in Hcond.
  assert (∃ current queue, pending v = current :: queue) as (current & queue & Hpending).
  { destruct (pending v) as [|x l]; [unfold len in Hcond; simpl in *; lia|].
    by eexists _, _. }
  apply (visit_spec BFS.visit v current queue); [|by rewrite Hpending|done].
  intros b Hb Hpos. unfold searching.BFS.visit. rewrite Hpending.
  change (index (current :: queue) 0) with (@mret Run Run_ret _ current).
  rewrite bind_ret_l, slice_tail, bind_ret_l.
  rewrite (index_in_range _ current b), bind_ret_l by done.
  assert (0 ≤ current < Z.of_nat n) as Hcurrent.
  { destruct Hinv as (Hlen & _). apply lookup_lt_Some in Hb. lia. }
  assert (length (visited v) = n) as Hlen by apply Hinv.
  destruct b; [reflexivity|].
  rewrite store_in_range_Z, bind_ret_l by (unfold len; lia).
  apply returns_emit. destruct (current =? target); [apply returns_emit; reflexivity|].
  rewrite (index_in_range _ current (neighborsOf (Z.of_nat n) current)), bind_ret_l.
  2:{ lia. }
  2:{ rewrite <- (Z2Nat.id current) at 2 by lia. apply generatedGraph_lookup. lia. }
  rewrite push_spec, bind_ret_l.
  2:{ apply Forall_forall. intros x Hx. unfold len. rewrite length_insert, Hlen.
      by apply (neighborsOf_range n current). }
  apply returns_emit. reflexivity.
Qed.

End Visit.

Lemma unvisited_replicate (n : nat) : unvisited (replicate n false) = n.
Proof.
  unfold unvisited. induction n as [|n IH]; [done|]. cbn [replicate].
  rewrite filter_cons, decide_True by done. simpl. by rewrite IH.
Qed.

Section TraversalLoop.

Import searching.

Variables (n : nat) (start target : Z).

Variable visit : list (list Z) → Z → Traversal → Run (Ctl Traversal).

Hypothesis visit_step : ∀ v : Traversal,
  traversing n start target (visited v) (pending v) (path v) →
  (0 <? len (pending v)) = true →
  ∃ c, returns (visit (generatedGraph n) target v) c ∧
    match c with
    | Continue v' =>
        (traversing n start target (visited v') (pending v') (path v') ∧
         returned v' = None) ∧
        (3 * unvisited (visited v') + length (pending v')
         < 3 * unvisited (visited v) + length (pending v))%nat
    | Break v' => foundResult n start target (returned v')
    end.

(** The loop ends within its fuel; it has then found the target or
    visited every node. *)
Lemma traversal_loop :
  0 ≤ start < Z.of_nat n →
  ∃ v r,
    returns (while (traversalFuel (Z.of_nat n)) (λ v, 0 <? len (pending v))
               (visit (generatedGraph n) target)
               (mkTraversal (replicate n false) [start] [] 1 None)) v ∧
    traversalResult n start target r ∧
    (returned v = Some r ∨
     (returned v = None ∧
      r = (VMap (object [
             ("found", VBool false);
             ("target", VInt target);
             ("path", VInts (path v));
             ("visited", VBools (visited v)) ]), None))).
Proof.
  intros Hstart.
  destruct (while_returns
    (λ v, traversing n start target (visited v) (pending v) (path v) ∧ returned v = None)
    (λ v, foundResult n start target (returned v))
    (λ v, (3 * unvisited (visited v) + length (pending v))%nat)
    (λ v, 0 <? len (pending v)) (visit (generatedGraph n) target)
    (traversalFuel (Z.of_nat n)) (mkTraversal (replicate n false) [start] [] 1 None))
    as (v & Hloop & Hpost).
  - cbn [visited pending path returned]. split; [by apply traversing_init|done].
  - cbn [visited pending]. rewrite unvisited_replicate. unfold traversalFuel. simpl. lia.
  - intros v [Hinv Hret] Hcond. by apply visit_step.
  - exists v.
    destruct Hpost
      as [[[Hinv Hret] Hcond]|(path & visited & Hret & Hhead & Hlast & Hnodup & Hrange)].
    + assert (pending v = []) as Hpending.
      { apply Z.ltb_ge in Hcond. unfold len in Hcond. destruct (pending v); [done|].
        simpl in Hcond. lia. }
      rewrite Hpending in Hinv.
      pose proof (traversing_done n start target _ _ Hstart Hinv) as Hall.
      destruct Hinv as (Hlen & _ & Hpath & Hmarked & Hnodup & Htarget & _ & Hhead).
      assert (searching.visited v = replicate n true) as Hvisited.
      { apply list_eq_same_length with n; [by rewrite length_replicate|done|].
        intros i x y Hi Hx Hy. apply lookup_replicate in Hy as [-> _].
        assert (searching.visited v !! Z.to_nat (Z.of_nat i) = Some true) as Hi'.
        { apply Hmarked; [lia|]. apply Hall. lia. }
        rewrite Nat2Z.id in Hi'. congruence. }
      eexists. split_and!; [done| |right; done].
      exists (searching.path v), (searching.visited v). split_and!; [|done|done|].
      { destruct Hhead as [[_ ?]|?]; done. }
      right. split_and!.
      * intros Hin. by apply Htarget, Hall.
      * apply NoDup_Permutation; [done|apply NoDup_seqZ|].
        intros x. rewrite elem_of_seqZ. split; [|intros ?; apply Hall; lia].
        intros Hx. rewrite Forall_forall in Hpath. specialize (Hpath x Hx). lia.
      * by rewrite Hvisited.
    + eexists. split_and!; [done| |left; exact Hret].
      exists path, visited. split_and!; [done..|]. left. split; [|by split].
      rewrite Forall_forall in Hrange. apply Hrange.
      apply last_Some in Hlast as [l ->]. apply elem_of_app. right. by left.
Qed.

End TraversalLoop.

Section TraversalExecute.

Variables (input : Value) (parameters : gmap string Value) (n : nat).

Local Abbreviation start := (intParam parameters "start_node" 0).
Local Abbreviation target := (intParam parameters "target_node" 5).

Hypothesis graph_size : intParam parameters "graph_size" 6 = Z.of_nat n.

Lemma DFS_Execute_spec :
  0 ≤ start < Z.of_nat n →
  ∃ r, returns (searching.DFS.Execute input parameters) r ∧ traversalResult n start target r.
Proof.
  intros Hstart. unfold searching.DFS.Execute. rewrite graph_size. cbv zeta.
  destruct (traversal_loop n start target searching.DFS.visit
    (DFS_visit_spec n start target) Hstart) as (v & r & Hloop & Hr & Hret).
  exists r. split; [|done].
  rewrite generateGraph_spec, bind_ret_l. apply returns_emit.
  rewrite make_length, bind_ret_l.
  eapply returns_bind; [exact Hloop|].
  destruct Hret as [->|[-> ->]]; [reflexivity|]. apply returns_emit. reflexivity.
Qed.

Lemma BFS_Execute_spec :
  0 ≤ start < Z.of_nat n →
  ∃ r, returns (searching.BFS.Execute input parameters) r ∧ traversalResult n start target r.
Proof.
  intros Hstart. unfold searching.BFS.Execute. rewrite graph_size. cbv zeta.
  destruct (traversal_loop n start target searching.BFS.visit
    (BFS_visit_spec n start target) Hstart) as (v & r & Hloop & Hr & Hret).
  exists r. split; [|done].
  rewrite generateGraph_spec, bind_ret_l. apply returns_emit.
  rewrite make_length, bind_ret_l.
  eapply returns_bind; [exact Hloop|].
  destruct Hret as [->|[-> ->]]; [reflexivity|]. apply returns_emit. reflexivity.
Qed.

(** A start node outside the graph makes the first iteration read
    [visited] out of range. *)
Lemma traversal_start_panics :
  ¬ (0 ≤ start < Z.of_nat n) →
  panics (searching.DFS.Execute input parameters) ∧
  panics (searching.BFS.Execute input parameters).
Proof.
  intros Hstart.
  assert (index (replicate n false) start = panic "index out of range") as Hindex.
  { apply index_out_of_range. unfold len. rewrite length_replicate. lia. }
  assert (searching.traversalFuel (Z.of_nat n) = S (3 * n + 1)) as Hfuel
    by (unfold searching.traversalFuel; lia).
  split.
  - unfold searching.DFS.Execute. rewrite graph_size. cbv zeta.
    rewrite generateGraph_spec, bind_ret_l. apply panics_emit.
    rewrite make_length, bind_ret_l. apply panics_bind_l.
    rewrite Hfuel. cbn [while searching.pending]. change (0 <? len [start]) with true.
    cbn iota. apply panics_bind_l. unfold searching.DFS.visit. cbn [searching.pending searching.visited].
    change (index [start] (len [start] - 1)) with (@mret Run Run_ret _ start).
    rewrite bind_ret_l.
    change (slice [start] 0 (len [start] - 1)) with (@mret Run Run_ret (list Z) []).
    rewrite bind_ret_l, Hindex. by eexists.
  - unfold searching.BFS.Execute. rewrite graph_size. cbv zeta.
    rewrite generateGraph_spec, bind_ret_l. apply panics_emit.
    rewrite make_length, bind_ret_l. apply panics_bind_l.
    rewrite Hfuel. cbn [while searching.pending]. change (0 <? len [start]) with true.
    cbn iota. apply panics_bind_l. unfold searching.BFS.visit. cbn [searching.pending searching.visited].
    change (index [start] 0) with (@mret Run Run_ret _ start).
    rewrite bind_ret_l.
    change (slice [start] 1 (len [start])) with (@mret Run Run_ret (list Z) []).
    rewrite bind_ret_l, Hindex. by eexists.
Qed.

End TraversalExecute.

(** ** The registry, listed *)

Lemma sameCategory_eq (c1 c2 : AlgorithmCategory) : sameCategory c1 c2 = true ↔ c1 = c2.
Proof. destruct c1, c2; simpl; split; (done || discriminate). Qed.

Lemma GetAlgorithm_RegisterAlgorithm (a : AlgorithmExecutor) (r : Registry) (id : string) :
  GetAlgorithm (RegisterAlgorithm a r) id
  = if decide (ID (GetMetadata a) = id) then Some a else GetAlgorithm r id.
Proof.
  unfold GetAlgorithm, RegisterAlgorithm. cbn [entries]. apply lookup_insert.
Qed.

Lemma registerAll_keyed (l : list AlgorithmExecutor) : keyed (registerAll l).
Proof.
  unfold registerAll.
  induction l as [|a l IH] using rev_ind; [intros id a' H; cbn in H; by rewrite lookup_empty in H|].
  rewrite foldl_app. cbn [foldl]. intros id a' H.
  unfold RegisterAlgorithm in H. cbn [entries] in H.
  apply lookup_insert_Some in H as [[<- <-]|[_ H]]; [done|by apply IH].
Qed.

Lemma GetAllAlgorithms_fmap (r : Registry) :
  GetAllAlgorithms r = (λ entry, GetMetadata entry.2) <$> map_to_list (entries r).
Proof.
  unfold GetAllAlgorithms. generalize (map_to_list (entries r)). intros l.
  induction l as [|e l IH] using rev_ind; [done|].
  by rewrite foldl_app, fmap_app, IH.
Qed.

Lemma GetAlgorithmsByCategory_filter (r : Registry) (category : AlgorithmCategory) :
  GetAlgorithmsByCategory r category
  = filter (λ metadata, sameCategory (Category metadata) category) (GetAllAlgorithms r).
Proof.
  rewrite GetAllAlgorithms_fmap. unfold GetAlgorithmsByCategory.
  generalize (map_to_list (entries r)). intros l.
  induction l as [|e l IH] using rev_ind; [done|].
  rewrite foldl_app, fmap_app, filter_app, IH. cbn [foldl fmap list_fmap].
  rewrite filter_cons, filter_nil.
  destruct (sameCategory _ _) eqn:Hc.
  - rewrite decide_True; [done|]. by apply Is_true_true.
  - rewrite decide_False; [by rewrite app_nil_r|]. by apply Is_true_false.
Qed.

(** The listing holds the metadata of each registered executor, once. *)
Lemma GetAllAlgorithms_spec (r : Registry) :
  keyed r →
  len (GetAllAlgorithms r) = Z.of_nat (size (entries r)) ∧
  NoDup (ID <$> GetAllAlgorithms r) ∧
  (∀ metadata, metadata ∈ GetAllAlgorithms r ↔
     ∃ a, GetAlgorithm r (ID metadata) = Some a ∧ GetMetadata a = metadata) ∧
  (∀ category metadata, metadata ∈ GetAlgorithmsByCategory r category ↔
     metadata ∈ GetAllAlgorithms r ∧ Category metadata = category).
Proof.
  intros Hkeyed. rewrite GetAllAlgorithms_fmap. split_and!.
  - unfold len. by rewrite length_fmap, length_map_to_list.
  - rewrite <- list_fmap_compose.
    assert (ID ∘ (λ entry : string * AlgorithmExecutor, GetMetadata entry.2)
              <$> map_to_list (entries r) = (map_to_list (entries r)).*1) as ->.
    { apply list_fmap_ext. intros i [id a] Hi. simpl.
      apply list_elem_of_lookup_2, elem_of_map_to_list in Hi. by apply Hkeyed. }
    apply NoDup_fst_map_to_list.
  - intros metadata. rewrite list_elem_of_fmap. unfold GetAlgorithm. split.
    + intros ([id a] & -> & Hin). simpl. apply elem_of_map_to_list in Hin.
      exists a. split; [|done]. by rewrite (Hkeyed id a Hin).
    + intros (a & Ha & <-). exists (ID (GetMetadata a), a). split; [done|].
      by apply elem_of_map_to_list.
  - intros category metadata.
    rewrite GetAlgorithmsByCategory_filter, list_elem_of_filter, GetAllAlgorithms_fmap.
    rewrite Is_true_true, sameCategory_eq. tauto.
Qed.

(** ** The environment *)

Lemma getEnv_nonempty (environ : gmap string string) (key defaultValue : string) :
  defaultValue ≠ EmptyString → config.getEnv environ key defaultValue ≠ EmptyString.
Proof.
  intros Hd. unfold config.getEnv. cbn zeta. case_bool_decide; done.
Qed.

Lemma getEnv_empty_unset (environ : gmap string string) (key key' defaultValue : string) :
  config.getEnv (<[key' := EmptyString]> environ) key defaultValue
  = config.getEnv (delete key' environ) key defaultValue.
Proof.
  unfold config.getEnv, os_Getenv.
  destruct (decide (key' = key)) as [->|Hne].
  - by rewrite lookup_insert_eq, lookup_delete_eq.
  - by rewrite lookup_insert_ne, lookup_delete_ne.
Qed.

Lemma Load_spec (environ : gmap string string) :
  config.Port (config.Load environ) ≠ EmptyString ∧
  config.Environment (config.Load environ) ≠ EmptyString ∧
  (config.Debug (config.Load environ) = true ↔ environ !! "DEBUG" = Some "true") ∧
  (∀ key, config.Load (<[key := EmptyString]> environ) = config.Load (delete key environ)).
Proof.
  split_and!.
  - by apply getEnv_nonempty.
  - by apply getEnv_nonempty.
  - unfold config.Load, config.getEnv, os_Getenv. cbn [config.Debug]. cbn zeta.
    destruct (environ !! "DEBUG") as [v|]; cbn [default].
    + destruct (decide (v = EmptyString)) as [->|Hv].
      * rewrite (bool_decide_eq_false_2 (EmptyString ≠ EmptyString)) by (by intros ?).
        split; [by intros ?%bool_decide_eq_true|done].
      * rewrite (bool_decide_eq_true_2 _ Hv), bool_decide_eq_true.
        naive_solver.
    + rewrite (bool_decide_eq_false_2 (EmptyString ≠ EmptyString)) by (by intros ?).
      split; [by intros ?%bool_decide_eq_true|done].
  - intros key. unfold config.Load. by rewrite !getEnv_empty_unset.
Qed.

Lemma listenAddress_Load (environ : gmap string string) :
  main.listenAddress environ = ":" +:+ config.Port (config.Load environ).
Proof.
  unfold main.listenAddress, config.Load, config.getEnv. cbn [config.Port]. cbn zeta.
  destruct (decide (os_Getenv environ "PORT" = EmptyString)) as [He|Hne].
  - by rewrite (bool_decide_eq_true_2 _ He), bool_decide_eq_false_2 by (by intros ?).
  - by rewrite (bool_decide_eq_false_2 _ Hne), bool_decide_eq_true_2.
Qed.

(** ** Executions that cannot crash *)

Lemma intParam_decoded (parameters : gmap string Value) (name : string) (d : Z) :
  decodedMap parameters → intParam parameters name d = d.
Proof.
  intros Hd. unfold intParam. destruct (parameters !! name) as [v|] eqn:Hv; [|done].
  apply Hd in Hv. by destruct v.
Qed.

Lemma checkIntRange_bounds (parameters : gmap string Value) (name : string)
    (lo hi d : Z) (msg : string) :
  checkIntRange parameters name lo hi msg = None → lo ≤ d ≤ hi →
  lo ≤ intParam parameters name d ≤ hi.
Proof.
  unfold checkIntRange, intParam. intros Hc Hd.
  destruct (parameters !! name) as [[]|]; try done.
  destruct (Z.ltb_spec n lo), (Z.ltb_spec hi n); try discriminate Hc. lia.
Qed.

Lemma ascending_fits (n : nat) : Forall (λ x, 1 ≤ x ≤ Z.of_nat n) (ascending n).
Proof.
  induction n as [|n IH]; [by constructor|].
  rewrite ascending_S. apply Forall_app. split.
  - eapply Forall_impl; [exact IH|]. simpl. lia.
  - apply Forall_singleton. lia.
Qed.

(** The comparison sorts on the array they generate. *)
Lemma sorts_generated (parameters : gmap string Value) (n : nat) :
  intParam parameters "array_size" 10 = Z.of_nat n → Z.of_nat n < 2 ^ 62 →
  returns (sorting.BubbleSort.Execute VNil parameters) (VInts (ascending n), None) ∧
  returns (sorting.HeapSort.Execute VNil parameters) (VInts (ascending n), None) ∧
  returns (sorting.MergeSort.Execute VNil parameters) (VInts (ascending n), None) ∧
  returns (sorting.QuickSort.Execute VNil parameters) (VInts (ascending n), None).
Proof.
  intros Hsize Hfits.
  cbn [sorting.BubbleSort.Execute sorting.HeapSort.Execute sorting.MergeSort.Execute
       sorting.QuickSort.Execute].
  rewrite Hsize, sorting_generateRandomArray_ascending, !bind_ret_l.
  split_and!.
  - destruct (BubbleSort_run_spec (ascending n) parameters)
      as (t & arr' & final & c & Heq & Hs & Hp & _).
    apply (sorted_permutation_ascending n) in Hp as ->; [|done].
    unfold returns. by rewrite Heq.
  - destruct (HeapSort_run_spec (ascending n) parameters) as (arr' & Hr & Hs & Hp).
    { unfold len. by rewrite length_ascending. }
    by apply (sorted_permutation_ascending n) in Hp as ->.
  - destruct (MergeSort_run_spec (ascending n) parameters) as (arr' & Hr & Hs & Hp).
    by apply (sorted_permutation_ascending n) in Hp as ->.
  - destruct (QuickSort_run_spec (ascending n) parameters) as (arr' & Hr & Hs & Hp).
    by apply (sorted_permutation_ascending n) in Hp as ->.
Qed.

Lemma LinearSearch_run_returns (arr : list Z) (parameters : gmap string Value) :
  ∃ result, returns (searching.LinearSearch.run arr parameters) result.
Proof.
  destruct (decide (intParam parameters "target" 5 ∈ arr)) as [Hin|Hout].
  - apply first_position in Hin as (k & Hk & Hfirst).
    eexists. by apply (LinearSearch_run_found arr parameters k).
  - eexists. by apply LinearSearch_run_absent.
Qed.

Lemma BinarySearch_run_returns (arr : list Z) (parameters : gmap string Value) :
  len arr < 2 ^ 62 →
  ∃ result, returns (searching.BinarySearch.run arr parameters) result.
Proof.
  intros Hfits.
  destruct (BinarySearch_run_result arr parameters Hfits) as (c & _ & [[_ Hr]|(k & _ & Hr)]);
    eexists; exact Hr.
Qed.

Lemma cyclic_nonempty (n : nat) (maxValue : Z) : (0 < n)%nat → cyclic n maxValue ≠ [].
Proof.
  intros Hn Heq. apply (f_equal length) in Heq. rewrite length_cyclic in Heq. simpl in Heq. lia.
Qed.

(** Counting sort on the array it generates. *)
Lemma CountingSort_generated (parameters : gmap string Value) (n : nat) (maxValue : Z) :
  intParam parameters "array_size" 10 = Z.of_nat n →
  intParam parameters "max_value" 20 = maxValue →
  (0 < n)%nat → 0 < maxValue < 2 ^ 62 →
  returns (sorting.CountingSort.Execute VNil parameters)
    (VInts (merge_sort Z.le (cyclic n maxValue)), None).
Proof.
  intros Hsize Hmax Hn Hrange.
  unfold sorting.CountingSort.Execute, sorting.CountingSort.chooseArray.
  rewrite Hsize, Hmax, generateRandomArrayWithMax_cyclic, !bind_ret_l by lia.
  apply CountingSort_run_spec; [by apply cyclic_nonempty|].
  eapply Forall_impl; [apply cyclic_range; lia|]. simpl. lia.
Qed.

(** With parameters that have passed validation, an execution without
    input returns, but for a traversal whose start node is not a node
    of the graph. *)
Lemma validated_Execute (id : string) (a : AlgorithmExecutor)
    (parameters : gmap string Value) :
  GetAlgorithm NewRegistry id = Some a →
  ValidateParameters a parameters = None →
  (∃ result, returns (Execute a VNil parameters) result) ∨
  ((id = "dfs" ∨ id = "bfs") ∧
   ¬ (0 ≤ intParam parameters "start_node" 0 < intParam parameters "graph_size" 6) ∧
   panics (Execute a VNil parameters)).
Proof.
  intros Ha Hv.
  assert (∀ lo hi d msg, checkIntRange parameters "array_size" lo hi msg = None →
            0 < lo → lo ≤ d ≤ hi → hi ≤ 100 →
            ∃ n : nat, intParam parameters "array_size" d = Z.of_nat n ∧ (0 < n)%nat ∧
                       Z.of_nat n < 2 ^ 62) as Hsize.
  { intros lo hi d msg Hc Hlo Hd Hhi.
    pose proof (checkIntRange_bounds parameters "array_size" lo hi d msg Hc Hd).
    exists (Z.to_nat (intParam parameters "array_size" d)). lia. }
  apply NewRegistry_lookup in Ha as [Ha <-]; unfold registered in Ha;
  repeat (apply elem_of_cons in Ha as [->|Ha]); [..|by apply elem_of_nil in Ha];
  cbn [ValidateParameters sorting.BubbleSort.New sorting.MergeSort.New
       sorting.QuickSort.New sorting.HeapSort.New sorting.CountingSort.New
       searching.LinearSearch.New searching.BinarySearch.New searching.DFS.New
       searching.BFS.New searching.HashLookup.New Execute GetMetadata ID] in *.
  - (* bubble sort *)
    destruct (Hsize _ _ 10 _ Hv) as (n & Hn & _ & Hfits); [lia..|].
    left. eexists. apply (sorts_generated parameters n Hn Hfits).
  - (* merge sort *)
    destruct (Hsize _ _ 10 _ Hv) as (n & Hn & _ & Hfits); [lia..|].
    left. eexists. apply (sorts_generated parameters n Hn Hfits).
  - (* quick sort *)
    unfold sorting.QuickSort.ValidateParameters in Hv.
    destruct (checkIntRange parameters "array_size" _ _ _) eqn:Hc; [discriminate|].
    destruct (Hsize _ _ 10 _ Hc) as (n & Hn & _ & Hfits); [lia..|].
    left. eexists. apply (sorts_generated parameters n Hn Hfits).
  - (* heap sort *)
    destruct (Hsize _ _ 10 _ Hv) as (n & Hn & _ & Hfits); [lia..|].
    left. eexists. apply (sorts_generated parameters n Hn Hfits).
  - (* counting sort *)
    unfold sorting.CountingSort.ValidateParameters in Hv.
    destruct (checkIntRange parameters "array_size" _ _ _) eqn:Hc; [discriminate|].
    destruct (Hsize _ _ 10 _ Hc) as (n & Hn & Hpos & _); [lia..|].
    pose proof (checkIntRange_bounds parameters "max_value" _ _ 20 _ Hv ltac:(lia)).
    left. eexists. apply (CountingSort_generated parameters n _ Hn eq_refl Hpos). lia.
  - (* linear search *)
    destruct (Hsize _ _ 10 _ Hv) as (n & Hn & _ & Hfits); [lia..|].
    left. cbn [searching.LinearSearch.Execute].
    rewrite Hn, searching_generateRandomArray_ascending, bind_ret_l.
    apply LinearSearch_run_returns.
  - (* binary search *)
    destruct (Hsize _ _ 10 _ Hv) as (n & Hn & _ & Hfits); [lia..|].
    left. cbn [searching.BinarySearch.Execute].
    rewrite Hn, searching_generateRandomArray_ascending, bind_ret_l.
    apply BinarySearch_run_returns. unfold len. by rewrite length_ascending.
  - (* depth-first search *)
    pose proof (checkIntRange_bounds parameters "graph_size" _ _ 6 _ Hv ltac:(lia)) as Hg.
    assert (intParam parameters "graph_size" 6
            = Z.of_nat (Z.to_nat (intParam parameters "graph_size" 6))) as Hn by lia.
    destruct (decide (0 ≤ intParam parameters "start_node" 0
                      < intParam parameters "graph_size" 6)) as [Hs|Hs].
    + left. destruct (DFS_Execute_spec VNil parameters _ Hn) as (r & Hr & _); [lia|].
      by exists r.
    + right. split_and!; [left; reflexivity|done|].
      apply (traversal_start_panics VNil parameters _ Hn). lia.
  - (* breadth-first search *)
    pose proof (checkIntRange_bounds parameters "graph_size" _ _ 6 _ Hv ltac:(lia)) as Hg.
    assert (intParam parameters "graph_size" 6
            = Z.of_nat (Z.to_nat (intParam parameters "graph_size" 6))) as Hn by lia.
    destruct (decide (0 ≤ intParam parameters "start_node" 0
                      < intParam parameters "graph_size" 6)) as [Hs|Hs].
    + left. destruct (BFS_Execute_spec VNil parameters _ Hn) as (r & Hr & _); [lia|].
      by exists r.
    + right. split_and!; [right; reflexivity|done|].
      apply (traversal_start_panics VNil parameters _ Hn). lia.
  - (* hash lookup *)
    pose proof (checkIntRange_bounds parameters "table_size" _ _ 10 _ Hv ltac:(lia)) as Hg.
    left. destruct (HashLookup_Execute_spec VNil parameters) as [(e & _ & _ & Hr)|[_ Hr]];
      [lia|eexists; exact Hr..].
Qed.

(** An input that is neither absent nor a [[]int] is refused by the
    algorithms that work on an array, before any step. *)
Lemma arrayAlgorithms_input (a : AlgorithmExecutor) (input : Value)
    (parameters : gmap string Value) :
  a ∈ arrayAlgorithms →
  input ≠ VNil → (∀ inputArr, input ≠ VInts inputArr) →
  Execute a input parameters
  = ([], Returned (VNil, Some "invalid input type, expected []int")).
Proof.
  intros Ha Hnil Hints. unfold arrayAlgorithms in Ha.
  repeat (apply elem_of_cons in Ha as [->|Ha]); [..|by apply elem_of_nil in Ha];
    destruct input; try done; try (by destruct (Hints l)).
Qed.

Lemma decoded_not_ints (input : Value) (inputArr : list Z) :
  decoded input → input ≠ VInts inputArr.
Proof. intros Hd ->. exact Hd. Qed.

(** On what a request body can carry, every registered algorithm
    returns. *)
Lemma decoded_Execute_returns (id : string) (a : AlgorithmExecutor)
    (input : Value) (parameters : gmap string Value) :
  GetAlgorithm NewRegistry id = Some a →
  decodedMap parameters → decoded input →
  ∃ result, returns (Execute a input parameters) result.
Proof.
  intros Ha Hp Hi.
  assert (∀ name d, intParam parameters name d = d) as Hint
    by (intros; by apply intParam_decoded).
  assert (a ∈ arrayAlgorithms ∨ a ∈ [searching.DFS.New; searching.BFS.New;
                                      searching.HashLookup.New]) as [Harr|Hrest].
  { apply NewRegistry_lookup in Ha as [Ha _]. unfold registered in Ha.
    unfold arrayAlgorithms.
    repeat (apply elem_of_cons in Ha as [->|Ha]); [..|by apply elem_of_nil in Ha];
      first [ left; repeat first [apply list_elem_of_here | apply list_elem_of_further]; fail
            | right; repeat first [apply list_elem_of_here | apply list_elem_of_further] ]. }
  - assert (input = VNil ∨ input ≠ VNil) as [->|Hnil]
      by (destruct input; [by left|by right..]).
    + assert (intParam parameters "array_size" 10 = Z.of_nat 10) as Hn by apply Hint.
      assert (Z.of_nat 10 < 2 ^ 62) as Hfits by done.
      destruct (sorts_generated parameters 10 Hn Hfits) as (Hb & Hh & Hm & Hq).
      unfold arrayAlgorithms in Harr.
      repeat (apply elem_of_cons in Harr as [->|Harr]); [..|by apply elem_of_nil in Harr];
        cbn [Execute sorting.BubbleSort.New sorting.MergeSort.New
             sorting.QuickSort.New sorting.HeapSort.New sorting.CountingSort.New
             searching.LinearSearch.New searching.BinarySearch.New].
      * by eexists.
      * by eexists.
      * by eexists.
      * by eexists.
      * eexists. apply (CountingSort_generated parameters 10 20 Hn); [apply Hint|lia|done].
      * cbn [searching.LinearSearch.Execute].
        rewrite Hn, searching_generateRandomArray_ascending, bind_ret_l.
        apply LinearSearch_run_returns.
      * cbn [searching.BinarySearch.Execute].
        rewrite Hn, searching_generateRandomArray_ascending, bind_ret_l.
        apply BinarySearch_run_returns. done.
    + eexists. apply returns_eq. eexists.
      apply arrayAlgorithms_input; [done..|]. intros l. by apply decoded_not_ints.
  - assert (intParam parameters "graph_size" 6 = Z.of_nat 6) as Hn by apply Hint.
    assert (0 ≤ intParam parameters "start_node" 0 < Z.of_nat 6) as Hs
      by (rewrite Hint; lia).
    repeat (apply elem_of_cons in Hrest as [->|Hrest]); [..|by apply elem_of_nil in Hrest];
      cbn [Execute searching.DFS.New searching.BFS.New searching.HashLookup.New].
    + destruct (DFS_Execute_spec input parameters 6 Hn Hs) as (r & Hr & _). by exists r.
    + destruct (BFS_Execute_spec input parameters 6 Hn Hs) as (r & Hr & _). by exists r.
    + destruct (HashLookup_Execute_spec input parameters) as [(e & _ & _ & Hr)|[_ Hr]];
        [rewrite Hint; lia|eexists; exact Hr..].
Qed.

(** A request served over HTTP runs to its end. *)
Lemma decoded_request_served (now : Z) (r : Request) (a : AlgorithmExecutor)
    (request : RequestBody) :
  GetAlgorithm NewRegistry (vars_id r) = Some a →
  body r = Some request →
  decodedMap (ReqParameters request) → decoded (ReqInput request) →
  ValidateParameters a (ReqParameters request) = None →
  ∃ t emitted final,
    serve (NewHandlers NewRegistry) now r = (started ("exec_" +:+ itoa now), Some t) ∧
    crashed t = false ∧
    hub t = (stepEnvelope <$> emitted) ++ [final] ∧
    terminal final = true ∧
    filter (λ m, terminal m = true) (hub t) = [final].
Proof.
  intros Ha Hb Hp Hi Hv.
  destruct (decoded_Execute_returns _ a (ReqInput request) (ReqParameters request) Ha Hp Hi)
    as ([output err] & Hr).
  apply returns_eq in Hr as [emitted Hr].
  unfold serve. rewrite (ExecuteAlgorithm_accepts (NewHandlers NewRegistry) now r a request Ha Hb Hv).
  cbn [fmap option_fmap option_map algorithm execution].
  erewrite executeAlgorithmAsync_returned by exact Hr.
  eexists _, emitted, _. split; [reflexivity|]. cbn [crashed hub app].
  split_and!; [done|reflexivity|by destruct err|].
  change Hub with (list WebSocketMessage).
  rewrite filter_app, filter_terminal_steps. by destruct err.
Qed.

(** The input of a request never reaches an algorithm that works on an
    array: [json.Decode] gives no [[]int]. *)
Lemma decoded_input_refused (now : Z) (r : Request) (a : AlgorithmExecutor)
    (request : RequestBody) :
  GetAlgorithm NewRegistry (vars_id r) = Some a →
  a ∈ arrayAlgorithms →
  body r = Some request →
  decoded (ReqInput request) → ReqInput request ≠ VNil →
  ValidateParameters a (ReqParameters request) = None →
  received (NewHandlers NewRegistry) now r
  = [errorEnvelope ("exec_" +:+ itoa now) "invalid input type, expected []int"].
Proof.
  intros Ha Harr Hb Hi Hnil Hv.
  unfold received, serve. rewrite (ExecuteAlgorithm_accepts (NewHandlers NewRegistry) now r a request Ha Hb Hv).
  cbn [fmap option_fmap option_map algorithm execution snd].
  erewrite executeAlgorithmAsync_returned;
    [|apply arrayAlgorithms_input; [done..|]; intros l; by apply decoded_not_ints].
  reflexivity.
Qed.

(** * Further properties of the algorithms *)

(** ** Sorting *)

(** X1. On every input array of fewer than 2^62 elements,
    [HeapSort.Execute] returns without error an array that is
    non-decreasing and is a rearrangement of the input. *)
Theorem X1_HeapSort_Execute_sorts (inputArr : list Z) (parameters : gmap string Value) :
  len inputArr < 2 ^ 62 →
  ∃ arr',
    returns (sorting.HeapSort.Execute (VInts inputArr) parameters) (VInts arr', None) ∧
    Sorted Z.le arr' ∧ arr' ≡ₚ inputArr.
Proof. exact (HeapSort_run_spec inputArr parameters). Qed.

Lemma X1_HeapSort_Execute_sorts_witness :
  ∃ arr',
    returns (sorting.HeapSort.Execute (VInts [3; 1; 2]) ∅) (VInts arr', None) ∧
    Sorted Z.le arr' ∧ arr' ≡ₚ [3; 1; 2].
Proof. apply X1_HeapSort_Execute_sorts. reflexivity. Defined.

(** X2. [heapify] restores the heap. When, among the first [n] elements
    of the array, every node after [k] is not smaller than its children,
    [heapify] at [k] returns an array in which every node from [k] on is
    not smaller than its children; the array is a rearrangement of the
    one given and has the same elements from position [n] on. It needs
    at most [n - k] nested calls. *)
Theorem X2_heapify_restores_heap (a : list Z) (n k fuel : nat)
    (showHeapStructure : bool) (stepNumber : Z) :
  (k < n ≤ length a)%nat → Z.of_nat n < 2 ^ 62 → (n - k ≤ fuel)%nat →
  heap_from a n (S k) →
  ∃ a',
    returns (sorting.HeapSort.heapify fuel a (Z.of_nat n) (Z.of_nat k)
               showHeapStructure stepNumber) a' ∧
    a' ≡ₚ a ∧ (∀ q, (n ≤ q)%nat → a' !!! q = a !!! q) ∧ heap_from a' n k.
Proof.
  intros Hk Hn Hfuel Hheap.
  destruct (heapify_spec showHeapStructure stepNumber fuel a n k k)
    as (a' & Hr & Hp & _ & Hrest & _ & Hheap'); [lia|lia|done|done| |by exists a'].
  split.
  - intros j Hj Hne. apply Hheap. lia.
  - intros p c Hp Hkp. lia.
Qed.

Lemma X2_heapify_restores_heap_witness :
  ∃ a',
    returns (sorting.HeapSort.heapify 3 [1; 3; 2] (Z.of_nat 3) (Z.of_nat 0) true 2) a' ∧
    a' ≡ₚ [1; 3; 2] ∧ (∀ q, (3 ≤ q)%nat → a' !!! q = [1; 3; 2] !!! q) ∧
    heap_from a' 3 0.
Proof.
  apply X2_heapify_restores_heap.
  - simpl. lia.
  - reflexivity.
  - lia.
  - intros j Hj c Hc Hcn. lia.
Defined.

(** X3. On every input array, [MergeSort.Execute] returns without error
    an array that is non-decreasing and is a rearrangement of the
    input. *)
Theorem X3_MergeSort_Execute_sorts (inputArr : list Z) (parameters : gmap string Value) :
  ∃ arr',
    returns (sorting.MergeSort.Execute (VInts inputArr) parameters) (VInts arr', None) ∧
    Sorted Z.le arr' ∧ arr' ≡ₚ inputArr.
Proof. exact (MergeSort_run_spec inputArr parameters). Qed.

(** X4. [merge] replaces two adjacent non-decreasing runs of the array,
    [arr[left..mid]] and [arr[mid+1..right]], by one non-decreasing run
    that holds the elements of both, and leaves the array before [left]
    and after [right] as it is. *)
Theorem X4_merge_sorted_runs (pre L R post : list Z) (stepNumber : Z) :
  StronglySorted Z.le L → StronglySorted Z.le R →
  ∃ out,
    returns (sorting.MergeSort.merge (pre ++ L ++ R ++ post)
               (len pre) (len pre + len L - 1) (len pre + len L + len R - 1) stepNumber)
            (pre ++ out ++ post) ∧
    out ≡ₚ L ++ R ∧ StronglySorted Z.le out.
Proof. intros HL HR. by apply merge_spec. Qed.

Lemma X4_merge_sorted_runs_witness :
  ∃ out,
    returns (sorting.MergeSort.merge ([9] ++ [1; 4] ++ [2; 3] ++ [0])
               (len [9]) (len [9] + len [1; 4] - 1)
               (len [9] + len [1; 4] + len [2; 3] - 1) 7)
            ([9] ++ out ++ [0]) ∧
    out ≡ₚ [1; 4] ++ [2; 3] ∧ StronglySorted Z.le out.
Proof.
  apply X4_merge_sorted_runs.
  - repeat constructor; lia.
  - repeat constructor; lia.
Defined.

(** X5. On every input array, [QuickSort.Execute] returns without error
    an array that is non-decreasing and is a rearrangement of the input,
    whichever pivot strategy the parameters name. *)
Theorem X5_QuickSort_Execute_sorts (inputArr : list Z) (parameters : gmap string Value) :
  ∃ arr',
    returns (sorting.QuickSort.Execute (VInts inputArr) parameters) (VInts arr', None) ∧
    Sorted Z.le arr' ∧ arr' ≡ₚ inputArr.
Proof. exact (QuickSort_run_spec inputArr parameters). Qed.

(** X6. [partition] on the part [arr[low..high]], [low < high], returns
    a position [p] within the part such that the elements of the part
    before [p] are not larger than the one at [p] and those after it are
    larger; the part is rearranged within itself and the rest of the
    array is left as it is. *)
Theorem X6_partition_splits (arr : list Z) (low high : nat) (pivotStrategy : string)
    (stepNumber : Z) :
  (low < high < length arr)%nat →
  ∃ arr' p,
    returns (sorting.QuickSort.partition arr (Z.of_nat low) (Z.of_nat high)
               pivotStrategy stepNumber) (arr', Z.of_nat p) ∧
    (low ≤ p ≤ high)%nat ∧
    arr' ≡ₚ arr ∧
    (∀ q, ¬ (low ≤ q ≤ high)%nat → arr' !!! q = arr !!! q) ∧
    (∀ q, (low ≤ q < p)%nat → arr' !!! q ≤ arr' !!! p) ∧
    (∀ q, (p < q ≤ high)%nat → arr' !!! p < arr' !!! q).
Proof.
  intros Hlh.
  destruct (partition_spec pivotStrategy arr low high stepNumber Hlh)
    as (arr' & p & Hr & Hp & (Hperm & _ & Hout & _) & Hle & Hgt).
  exists arr', p. split; [done|]. split; [lia|]. split; [done|]. split; [|by split].
  intros q Hq. apply Hout. lia.
Qed.

Lemma X6_partition_splits_witness :
  ∃ arr' p,
    returns (sorting.QuickSort.partition [3; 1; 2] (Z.of_nat 0) (Z.of_nat 2)
               "middle" 1) (arr', Z.of_nat p) ∧
    (0 ≤ p ≤ 2)%nat ∧
    arr' ≡ₚ [3; 1; 2] ∧
    (∀ q, ¬ (0 ≤ q ≤ 2)%nat → arr' !!! q = [3; 1; 2] !!! q) ∧
    (∀ q, (0 ≤ q < p)%nat → arr' !!! q ≤ arr' !!! p) ∧
    (∀ q, (p < q ≤ 2)%nat → arr' !!! p < arr' !!! q).
Proof. apply X6_partition_splits. simpl. lia. Defined.

(** X7. On every input array that is not empty and holds ints from 0 up
    to 2^32 only, [CountingSort.Execute] returns without error the array
    sorted: a non-decreasing rearrangement of the input. *)
Theorem X7_CountingSort_Execute_sorts (inputArr : list Z) (parameters : gmap string Value) :
  inputArr ≠ [] → Forall (λ x, 0 ≤ x < 2 ^ 32) inputArr →
  ∃ arr',
    returns (sorting.CountingSort.Execute (VInts inputArr) parameters) (VInts arr', None) ∧
    Sorted Z.le arr' ∧ arr' ≡ₚ inputArr.
Proof.
  intros Hne Hrange. exists (merge_sort Z.le inputArr). split_and!.
  - unfold sorting.CountingSort.Execute, sorting.CountingSort.chooseArray.
    rewrite bind_ret_l. apply CountingSort_run_spec; [done|].
    eapply Forall_impl; [exact Hrange|]. simpl. lia.
  - apply (Sorted_merge_sort _).
  - apply merge_sort_Permutation.
Qed.

Lemma X7_CountingSort_Execute_sorts_witness :
  ∃ arr',
    returns (sorting.CountingSort.Execute (VInts [3; 0; 2]) ∅) (VInts arr', None) ∧
    Sorted Z.le arr' ∧ arr' ≡ₚ [3; 0; 2].
Proof.
  apply X7_CountingSort_Execute_sorts.
  - discriminate.
  - repeat constructor; lia.
Defined.

(** X8. [CountingSort.Execute] panics on an input array that is empty
    or holds a negative int: it reads [arr[0]] and indexes the counts by
    the elements. *)
Theorem X8_CountingSort_Execute_panics (inputArr : list Z) (parameters : gmap string Value) :
  inputArr = [] ∨ (∃ x, x ∈ inputArr ∧ x < 0) →
  panics (sorting.CountingSort.Execute (VInts inputArr) parameters).
Proof.
  intros Hbad. unfold sorting.CountingSort.Execute, sorting.CountingSort.chooseArray.
  rewrite bind_ret_l. by apply CountingSort_run_panics.
Qed.

Lemma X8_CountingSort_Execute_panics_witness :
  panics (sorting.CountingSort.Execute (VInts [2; -1]) ∅).
Proof.
  apply X8_CountingSort_Execute_panics. right. exists (-1). split; [|lia].
  apply list_elem_of_further, list_elem_of_here.
Defined.

(** X9. For a positive [maxValue], [generateRandomArrayWithMax] returns
    the array of the asked length whose element at index [i] is
    [i % maxValue + 1]: the shuffle leaves the array as it was filled,
    and the elements lie between 1 and [maxValue]. For [maxValue = 0] and
    a positive size it panics on the division. *)
Theorem X9_generateRandomArrayWithMax_cyclic (n : nat) (maxValue : Z) :
  0 < maxValue →
  returns (sorting.CountingSort.generateRandomArrayWithMax (Z.of_nat n) maxValue)
          (cyclic n maxValue) ∧
  length (cyclic n maxValue) = n ∧
  Forall (λ x, 1 ≤ x ≤ maxValue) (cyclic n maxValue) ∧
  ((0 < n)%nat →
   panics (sorting.CountingSort.generateRandomArrayWithMax (Z.of_nat n) 0)).
Proof.
  intros Hmax. split_and!.
  - rewrite generateRandomArrayWithMax_cyclic by lia. reflexivity.
  - apply length_cyclic.
  - by apply cyclic_range.
  - intros Hn. apply generateRandomArrayWithMax_zero. lia.
Qed.

Lemma X9_generateRandomArrayWithMax_cyclic_witness :
  returns (sorting.CountingSort.generateRandomArrayWithMax (Z.of_nat 10) 5)
          (cyclic 10 5) ∧
  length (cyclic 10 5) = 10%nat ∧
  Forall (λ x, 1 ≤ x ≤ 5) (cyclic 10 5) ∧
  ((0 < 10)%nat →
   panics (sorting.CountingSort.generateRandomArrayWithMax (Z.of_nat 10) 0)).
Proof. apply X9_generateRandomArrayWithMax_cyclic. lia. Defined.

(** X10. Without an input, for an [array_size] of [n] with
    [0 ≤ n < 2^62] (10 when the parameters hold no int under that name),
    each of the four comparison sorts returns without error the array
    [1, 2, ..., n]. *)
Theorem X10_sorts_generated_input (parameters : gmap string Value) (n : nat) :
  intParam parameters "array_size" 10 = Z.of_nat n → Z.of_nat n < 2 ^ 62 →
  returns (sorting.BubbleSort.Execute VNil parameters) (VInts (ascending n), None) ∧
  returns (sorting.HeapSort.Execute VNil parameters) (VInts (ascending n), None) ∧
  returns (sorting.MergeSort.Execute VNil parameters) (VInts (ascending n), None) ∧
  returns (sorting.QuickSort.Execute VNil parameters) (VInts (ascending n), None).
Proof. apply sorts_generated. Qed.

Lemma X10_sorts_generated_input_witness :
  returns (sorting.BubbleSort.Execute VNil (<["array_size" := VInt 4]> ∅))
    (VInts (ascending 4), None) ∧
  returns (sorting.HeapSort.Execute VNil (<["array_size" := VInt 4]> ∅))
    (VInts (ascending 4), None) ∧
  returns (sorting.MergeSort.Execute VNil (<["array_size" := VInt 4]> ∅))
    (VInts (ascending 4), None) ∧
  returns (sorting.QuickSort.Execute VNil (<["array_size" := VInt 4]> ∅))
    (VInts (ascending 4), None).
Proof. apply X10_sorts_generated_input; reflexivity. Defined.

(** ** Searching *)

(** X11. On every input array, [LinearSearch.Execute] returns without
    error: when the target occurs, the result holds the index of its
    first occurrence and the number of comparisons is that index plus one
    (in 64-bit arithmetic); when it does not occur, the result is "not
    found" after as many comparisons as the array has elements. *)
Theorem X11_LinearSearch_Execute_first (inputArr : list Z) (parameters : gmap string Value) :
  returns (searching.LinearSearch.Execute (VInts inputArr) parameters)
    (match list_find (λ x, x = intParam parameters "target" 5) inputArr with
     | Some (k, _) =>
         (VMap (object [
            ("found", VBool true);
            ("index", VInt (Z.of_nat k));
            ("value", VInt (intParam parameters "target" 5));
            ("comparisons", VInt (wrap (Z.of_nat k + 1))) ]), None)
     | None =>
         (VMap (object [
            ("found", VBool false);
            ("index", VInt (-1));
            ("value", VNil);
            ("comparisons", VInt (len inputArr)) ]), None)
     end).
Proof.
  cbn [searching.LinearSearch.Execute].
  destruct (list_find _ inputArr) as [[k x]|] eqn:Hfind.
  - apply list_find_Some in Hfind as (Hk & -> & Hfirst).
    apply LinearSearch_run_found; [done|].
    intros j Hj Hlookup. by apply (Hfirst j _ Hlookup).
  - apply list_find_None in Hfind. apply LinearSearch_run_absent.
    intros Hin. by apply (proj1 (Forall_forall _ _) Hfind _ Hin).
Qed.

(** X12. On every input array of fewer than 2^62 elements,
    [BinarySearch.Execute] returns without error after a number [c] of
    comparisons with [2^(c-1) ≤ len] unless [c = 0]: "not found" when the
    target does not occur, and otherwise an index at which the sorted
    copy of the array holds the target. *)
Theorem X12_BinarySearch_Execute_result (inputArr : list Z)
    (parameters : gmap string Value) :
  len inputArr < 2 ^ 62 →
  ∃ c, (c = 0 ∨ (1 ≤ c ∧ 2 ^ (c - 1) ≤ len inputArr)) ∧
    (((intParam parameters "target" 5 ∉ inputArr) ∧
      returns (searching.BinarySearch.Execute (VInts inputArr) parameters)
        (VMap (object [
           ("found", VBool false);
           ("index", VInt (-1));
           ("value", VNil);
           ("comparisons", VInt c) ]), None)) ∨
     (∃ k : nat,
        searching.sort_Ints inputArr !! k = Some (intParam parameters "target" 5) ∧
        returns (searching.BinarySearch.Execute (VInts inputArr) parameters)
          (VMap (object [
             ("found", VBool true);
             ("index", VInt (Z.of_nat k));
             ("value", VInt (intParam parameters "target" 5));
             ("comparisons", VInt c) ]), None))).
Proof. exact (BinarySearch_run_result inputArr parameters). Qed.

Lemma X12_BinarySearch_Execute_result_witness :
  ∃ c, (c = 0 ∨ (1 ≤ c ∧ 2 ^ (c - 1) ≤ len [5; 1; 3])) ∧
    (((intParam ∅ "target" 5 ∉ [5; 1; 3]) ∧
      returns (searching.BinarySearch.Execute (VInts [5; 1; 3]) ∅)
        (VMap (object [
           ("found", VBool false);
           ("index", VInt (-1));
           ("value", VNil);
           ("comparisons", VInt c) ]), None)) ∨
     (∃ k : nat,
        searching.sort_Ints [5; 1; 3] !! k = Some (intParam ∅ "target" 5) ∧
        returns (searching.BinarySearch.Execute (VInts [5; 1; 3]) ∅)
          (VMap (object [
             ("found", VBool true);
             ("index", VInt (Z.of_nat k));
             ("value", VInt (intParam ∅ "target" 5));
             ("comparisons", VInt c) ]), None))).
Proof. apply X12_BinarySearch_Execute_result. reflexivity. Defined.

(** X13. For a table size between 1 and 2^62, [hashFunction] returns
    for every key a bucket index from 0 up to the table size; for a table
    size of 0 and a key that is not empty it panics on the division. *)
Theorem X13_hashFunction_range (key : string) (tableSize : Z) :
  0 < tableSize < 2 ^ 62 →
  (∃ hash, returns (searching.HashLookup.hashFunction key tableSize) hash ∧
           0 ≤ hash < tableSize) ∧
  (key ≠ EmptyString → panics (searching.HashLookup.hashFunction key 0)).
Proof.
  intros Hsize. split.
  - exists (hashOf key tableSize). split; [|apply hashOf_range; lia].
    rewrite hashFunction_hashOf by lia. reflexivity.
  - apply hashFunction_zero.
Qed.

Lemma X13_hashFunction_range_witness :
  (∃ hash, returns (searching.HashLookup.hashFunction "key5" 10) hash ∧
           0 ≤ hash < 10) ∧
  ("key5" ≠ EmptyString → panics (searching.HashLookup.hashFunction "key5" 0)).
Proof. apply X13_hashFunction_range. lia. Defined.

(** X14. For a size between 1 and 2^62, [generateHashTable] returns a
    table that holds the first [size] sample entries (all ten from size
    10 on) and nothing else: the bucket at [h] lists, in the order of the
    sample data, the entries whose key hashes to [h]. *)
Theorem X14_generateHashTable_buckets (size : Z) :
  0 < size < 2 ^ 62 →
  ∃ hashTable,
    returns (searching.HashLookup.generateHashTable size) hashTable ∧
    ∀ h, default [] (hashTable !! h)
         = filter (λ e, hashOf (Key e) size = h) (stored size).
Proof.
  intros Hsize. destruct (generateHashTable_spec size) as (hashTable & Heq & Hb); [lia|].
  exists hashTable. split; [by rewrite Heq|done].
Qed.

Lemma X14_generateHashTable_buckets_witness :
  ∃ hashTable,
    returns (searching.HashLookup.generateHashTable 7) hashTable ∧
    ∀ h, default [] (hashTable !! h)
         = filter (λ e, hashOf (Key e) 7 = h) (stored 7).
Proof. apply X14_generateHashTable_buckets. lia. Defined.

(** X15. For a table size between 1 and 2^62, [HashLookup.Execute]
    returns without error: for a key of a stored entry, "found" with the
    value of that entry, the hash of the key and the number of other
    entries in its bucket; for any other key, "not found" with the
    hash. *)
Theorem X15_HashLookup_Execute_result (input : Value) (parameters : gmap string Value)
    (tableSize : Z) (key : string) :
  intParam parameters "table_size" 10 = tableSize →
  stringParam parameters "key" "key5" = key →
  0 < tableSize < 2 ^ 62 →
  (∃ e, e ∈ stored tableSize ∧ Key e = key ∧
     returns (searching.HashLookup.Execute input parameters)
       (VMap (object [
          ("found", VBool true);
          ("key", VString key);
          ("value", VString (Value_ e));
          ("hash", VInt (hashOf key tableSize));
          ("collisions",
           VInt (len (filter (λ e, hashOf (Key e) tableSize = hashOf key tableSize)
                        (stored tableSize)) - 1)) ]), None)) ∨
  ((key ∉ Key <$> stored tableSize) ∧
   returns (searching.HashLookup.Execute input parameters)
     (VMap (object [
        ("found", VBool false);
        ("key", VString key);
        ("value", VNil);
        ("hash", VInt (hashOf key tableSize)) ]), None)).
Proof.
  intros <- <- Hsize. apply HashLookup_Execute_spec. lia.
Qed.

Lemma X15_HashLookup_Execute_result_witness :
  (∃ e, e ∈ stored 10 ∧ Key e = "zz" ∧
     returns (searching.HashLookup.Execute VNil (<["key" := VString "zz"]> ∅))
       (VMap (object [
          ("found", VBool true);
          ("key", VString "zz");
          ("value", VString (Value_ e));
          ("hash", VInt (hashOf "zz" 10));
          ("collisions",
           VInt (len (filter (λ e, hashOf (Key e) 10 = hashOf "zz" 10)
                        (stored 10)) - 1)) ]), None)) ∨
  (("zz" ∉ Key <$> stored 10) ∧
   returns (searching.HashLookup.Execute VNil (<["key" := VString "zz"]> ∅))
     (VMap (object [
        ("found", VBool false);
        ("key", VString "zz");
        ("value", VNil);
        ("hash", VInt (hashOf "zz" 10)) ]), None)).
Proof. apply X15_HashLookup_Execute_result; [reflexivity|reflexivity|lia]. Defined.

(** X16. [generateGraph], for a size [n ≥ 0], returns a graph of [n]
    nodes in which the neighbours of node [i] are, in this order, [i-1]
    if [i > 0], [i+1] if [i < n-1] and [i+2] if [i+2 < n]: at most three
    neighbours, all of them nodes of the graph. For a negative size it
    panics. *)
Theorem X16_generateGraph_neighbors (n : nat) :
  (∃ graph,
     returns (searching.generateGraph (Z.of_nat n)) graph ∧ length graph = n ∧
     ∀ (i : nat) (neighbors : list Z), graph !! i = Some neighbors →
       neighbors = neighborsOf (Z.of_nat n) (Z.of_nat i) ∧
       Forall (λ x, 0 ≤ x < Z.of_nat n) neighbors ∧ (length neighbors ≤ 3)%nat) ∧
  (∀ size, size < 0 → panics (searching.generateGraph size)).
Proof.
  split.
  - exists (generatedGraph n). rewrite generateGraph_spec.
    split_and!; [reflexivity|apply generatedGraph_length|].
    intros i neighbors Hi.
    assert (i < n)%nat as Hlt.
    { apply lookup_lt_Some in Hi. by rewrite generatedGraph_length in Hi. }
    rewrite generatedGraph_lookup in Hi by done. injection Hi as <-.
    split_and!; [done| |apply neighborsOf_length].
    apply Forall_forall. intros x Hx. apply (neighborsOf_range n (Z.of_nat i)); [lia|done].
  - intros size Hsize. unfold searching.generateGraph, make.
    destruct (Z.ltb_spec size 0); [|lia]. by eexists.
Qed.

(** X17. For a graph of [n] nodes and a start node of the graph, the
    two traversals return without error. When the target is a node of
    the graph, the result is "found" with the path of the nodes visited,
    which starts at the start node, ends at the target and visits no node
    twice; otherwise it is "not found" after every node of the graph has
    been visited once. *)
Theorem X17_traversals_result (input : Value) (parameters : gmap string Value) (n : nat) :
  intParam parameters "graph_size" 6 = Z.of_nat n →
  0 ≤ intParam parameters "start_node" 0 < Z.of_nat n →
  (∃ r, returns (searching.DFS.Execute input parameters) r ∧
        traversalResult n (intParam parameters "start_node" 0)
          (intParam parameters "target_node" 5) r) ∧
  (∃ r, returns (searching.BFS.Execute input parameters) r ∧
        traversalResult n (intParam parameters "start_node" 0)
          (intParam parameters "target_node" 5) r).
Proof.
  intros Hn Hstart. split.
  - by apply DFS_Execute_spec.
  - by apply BFS_Execute_spec.
Qed.

Lemma X17_traversals_result_witness :
  (∃ r, returns (searching.DFS.Execute VNil ∅) r ∧
        traversalResult 6 (intParam ∅ "start_node" 0) (intParam ∅ "target_node" 5) r) ∧
  (∃ r, returns (searching.BFS.Execute VNil ∅) r ∧
        traversalResult 6 (intParam ∅ "start_node" 0) (intParam ∅ "target_node" 5) r).
Proof. apply X17_traversals_result; [reflexivity|]. split; [by vm_compute|reflexivity]. Defined.

Lemma checkIntRange_intParam (parameters : gmap string Value) (name : string)
    (lo hi d : Z) (msg : string) :
  lo ≤ intParam parameters name d ≤ hi → checkIntRange parameters name lo hi msg = None.
Proof.
  unfold checkIntRange, intParam. intros Hd.
  destruct (parameters !! name) as [[]|]; try done.
  destruct (Z.ltb_spec n lo), (Z.ltb_spec hi n); try done; lia.
Qed.

(** X18. A start node that is not a node of the graph is not rejected by
    [ValidateParameters] of the traversals, for a graph size in the
    declared range, and makes [Execute] panic; the unit of work then ends
    there: it assigns no status and the hub receives no terminal
    envelope. *)
Theorem X18_start_node_crash (a : AlgorithmExecutor) (e : AlgorithmExecution) (n : nat) :
  a ∈ [searching.DFS.New; searching.BFS.New] →
  intParam (ExecParameters e) "graph_size" 6 = Z.of_nat n → (3 ≤ n ≤ 20)%nat →
  ¬ (0 ≤ intParam (ExecParameters e) "start_node" 0 < Z.of_nat n) →
  ValidateParameters a (ExecParameters e) = None ∧
  panics (Execute a (Input e) (ExecParameters e)) ∧
  crashed (executeAlgorithmAsync [] a e) = true ∧
  assigned (executeAlgorithmAsync [] a e) = [] ∧
  filter (λ m, terminal m = true) (hub (executeAlgorithmAsync [] a e)) = [].
Proof.
  intros Ha Hn Hrange Hstart.
  destruct (traversal_start_panics (Input e) (ExecParameters e) n Hn Hstart) as [Hd Hb].
  assert (ValidateParameters a (ExecParameters e) = None ∧
          panics (Execute a (Input e) (ExecParameters e))) as [Hv [reason Hp]].
  { repeat (apply elem_of_cons in Ha as [->|Ha]); [..|by apply elem_of_nil in Ha];
      (split; [apply (checkIntRange_intParam _ _ _ _ 6); lia|done]). }
  split; [done|]. split; [by exists reason|].
  destruct (Execute a (Input e) (ExecParameters e)) as [emitted o] eqn:Hrun.
  unfold outcome in Hp. cbn [snd] in Hp. subst o.
  rewrite (executeAlgorithmAsync_panicked [] a e emitted reason Hrun). cbn [crashed assigned hub app].
  split_and!; [done..|]. apply filter_terminal_steps.
Qed.

Lemma X18_start_node_crash_witness :
  ValidateParameters searching.DFS.New (ExecParameters stray_execution) = None ∧
  panics (Execute searching.DFS.New (Input stray_execution)
            (ExecParameters stray_execution)) ∧
  crashed (executeAlgorithmAsync [] searching.DFS.New stray_execution) = true ∧
  assigned (executeAlgorithmAsync [] searching.DFS.New stray_execution) = [] ∧
  filter (λ m, terminal m = true)
    (hub (executeAlgorithmAsync [] searching.DFS.New stray_execution)) = [].
Proof.
  apply (X18_start_node_crash searching.DFS.New stray_execution 6).
  - apply list_elem_of_here.
  - reflexivity.
  - lia.
  - vm_compute. intros [_ H]. discriminate H.
Defined.

(** ** The handlers *)

Lemma dfs_registered : GetAlgorithm NewRegistry "dfs" = Some searching.DFS.New.
Proof.
  apply NewRegistry_lookup. split; [|reflexivity].
  do 7 apply list_elem_of_further. apply list_elem_of_here.
Qed.

Lemma bubble_sort_lookup :
  GetAlgorithm NewRegistry "bubble_sort" = Some sorting.BubbleSort.New.
Proof.
  apply NewRegistry_lookup. split; [|reflexivity]. apply list_elem_of_here.
Qed.

(** X19. With parameters that [ValidateParameters] accepts, [Execute]
    of a registered algorithm on no input returns, with one exception: a
    traversal whose start node is not a node of the graph panics. *)
Theorem X19_validated_Execute_returns (id : string) (a : AlgorithmExecutor)
    (parameters : gmap string Value) :
  GetAlgorithm NewRegistry id = Some a →
  ValidateParameters a parameters = None →
  (∃ result, returns (Execute a VNil parameters) result) ∨
  ((id = "dfs" ∨ id = "bfs") ∧
   ¬ (0 ≤ intParam parameters "start_node" 0 < intParam parameters "graph_size" 6) ∧
   panics (Execute a VNil parameters)).
Proof. apply validated_Execute. Qed.

Lemma X19_validated_Execute_returns_witness :
  (∃ result, returns (Execute searching.DFS.New VNil ∅) result) ∨
  (("dfs" = "dfs" ∨ "dfs" = "bfs") ∧
   ¬ (0 ≤ intParam ∅ "start_node" 0 < intParam ∅ "graph_size" 6) ∧
   panics (Execute searching.DFS.New VNil ∅)).
Proof.
  apply (X19_validated_Execute_returns "dfs" searching.DFS.New ∅).
  - exact dfs_registered.
  - reflexivity.
Defined.

(** X20. A request whose body has been decoded from JSON, for a
    registered algorithm and with parameters that validation accepts, is
    answered "started" and its unit of work runs to its end without a
    panic: the hub receives the step envelopes and then exactly one
    terminal envelope. *)
Theorem X20_decoded_request_served (now : Z) (r : Request) (a : AlgorithmExecutor)
    (request : RequestBody) :
  GetAlgorithm NewRegistry (vars_id r) = Some a →
  body r = Some request →
  decodedMap (ReqParameters request) → decoded (ReqInput request) →
  ValidateParameters a (ReqParameters request) = None →
  ∃ t emitted final,
    serve (NewHandlers NewRegistry) now r = (started ("exec_" +:+ itoa now), Some t) ∧
    crashed t = false ∧
    hub t = (stepEnvelope <$> emitted) ++ [final] ∧
    terminal final = true ∧
    filter (λ m, terminal m = true) (hub t) = [final].
Proof. apply decoded_request_served. Qed.

Lemma X20_decoded_request_served_witness :
  ∃ t emitted final,
    serve (NewHandlers NewRegistry) 1 array_request
      = (started ("exec_" +:+ itoa 1), Some t) ∧
    crashed t = false ∧
    hub t = (stepEnvelope <$> emitted) ++ [final] ∧
    terminal final = true ∧
    filter (λ m, terminal m = true) (hub t) = [final].
Proof.
  apply (X20_decoded_request_served 1 array_request sorting.BubbleSort.New
           {| ReqParameters := ∅; ReqInput := VList [VFloat 3; VFloat 1; VFloat 2] |}).
  - exact bubble_sort_lookup.
  - reflexivity.
  - intros name v H. cbn in H. by rewrite lookup_empty in H.
  - exact I.
  - reflexivity.
Defined.

(** X21. The input of a request never reaches an algorithm that works
    on an array: a decoded input is no [[]int], so for every input other
    than [null] the unit of work emits no step and the hub receives the
    [execution_error] envelope "invalid input type, expected []int"
    only. *)
Theorem X21_decoded_input_refused (now : Z) (r : Request) (a : AlgorithmExecutor)
    (request : RequestBody) :
  GetAlgorithm NewRegistry (vars_id r) = Some a →
  a ∈ arrayAlgorithms →
  body r = Some request →
  decoded (ReqInput request) → ReqInput request ≠ VNil →
  ValidateParameters a (ReqParameters request) = None →
  received (NewHandlers NewRegistry) now r
  = [errorEnvelope ("exec_" +:+ itoa now) "invalid input type, expected []int"].
Proof. apply decoded_input_refused. Qed.

Lemma X21_decoded_input_refused_witness :
  received (NewHandlers NewRegistry) 1 array_request
  = [errorEnvelope ("exec_" +:+ itoa 1) "invalid input type, expected []int"].
Proof.
  apply (X21_decoded_input_refused 1 array_request sorting.BubbleSort.New
           {| ReqParameters := ∅; ReqInput := VList [VFloat 3; VFloat 1; VFloat 2] |}).
  - exact bubble_sort_lookup.
  - apply list_elem_of_here.
  - reflexivity.
  - exact I.
  - discriminate.
  - reflexivity.
Defined.

Lemma register_fold_lookup (l : list AlgorithmExecutor) (r : Registry) (id : string) :
  GetAlgorithm (foldl (λ r a, RegisterAlgorithm a r) r l) id
  = match last (filter (λ a, ID (GetMetadata a) = id) l) with
    | Some a => Some a
    | None => GetAlgorithm r id
    end.
Proof.
  induction l as [|a l IH] using rev_ind; [done|].
  rewrite foldl_app, filter_app. cbn [foldl].
  rewrite GetAlgorithm_RegisterAlgorithm, IH, filter_cons, filter_nil.
  destruct (decide (ID (GetMetadata a) = id)); [by rewrite last_snoc|by rewrite app_nil_r].
Qed.

(** X22. A lookup in the registry returns the executor registered last
    under the id: after [RegisterAlgorithm] the id of the new executor
    leads to it and every other id to what it led to before, so that
    after a series of registrations each id leads to the last executor of
    the series that carries it, and to what the registry held before when
    none does. *)
Theorem X22_registry_lookup (r : Registry) (a : AlgorithmExecutor)
    (l : list AlgorithmExecutor) (id : string) :
  GetAlgorithm (RegisterAlgorithm a r) id
  = (if decide (ID (GetMetadata a) = id) then Some a else GetAlgorithm r id) ∧
  GetAlgorithm (foldl (λ r a, RegisterAlgorithm a r) r l) id
  = match last (filter (λ a, ID (GetMetadata a) = id) l) with
    | Some a => Some a
    | None => GetAlgorithm r id
    end.
Proof. split; [apply GetAlgorithm_RegisterAlgorithm|apply register_fold_lookup]. Qed.

(** X23. In a registry filled by registrations, [GetAllAlgorithms] lists
    the metadata of each registered id once: as many entries as the
    registry has ids, no id twice, and a metadata is listed exactly when
    a lookup of its id returns an executor with that metadata.
    [GetAlgorithmsByCategory] lists those of them that carry the
    category. The registry of the server lists ten algorithms. *)
Theorem X23_registry_listing (l : list AlgorithmExecutor) :
  len (GetAllAlgorithms (registerAll l)) = Z.of_nat (size (entries (registerAll l))) ∧
  NoDup (ID <$> GetAllAlgorithms (registerAll l)) ∧
  (∀ metadata, metadata ∈ GetAllAlgorithms (registerAll l) ↔
     ∃ a, GetAlgorithm (registerAll l) (ID metadata) = Some a ∧
          GetMetadata a = metadata) ∧
  (∀ category metadata,
     metadata ∈ GetAlgorithmsByCategory (registerAll l) category ↔
     metadata ∈ GetAllAlgorithms (registerAll l) ∧ Category metadata = category) ∧
  NewRegistry = registerAll registered ∧
  len (GetAllAlgorithms NewRegistry) = 10.
Proof.
  destruct (GetAllAlgorithms_spec (registerAll l) (registerAll_keyed l))
    as (H1 & H2 & H3 & H4).
  split_and!; [done..|reflexivity|by vm_compute].
Qed.

(** ** Configuration *)

(** X24. [Load] never returns an empty port or environment: a variable
    that is set to the empty string counts as one that is not set, and
    the defaults are not empty. [Debug] is on exactly when [DEBUG] is
    "true". *)
Theorem X24_Load_defaults (environ : gmap string string) :
  config.Port (config.Load environ) ≠ EmptyString ∧
  config.Environment (config.Load environ) ≠ EmptyString ∧
  (config.Debug (config.Load environ) = true ↔ environ !! "DEBUG" = Some "true") ∧
  (∀ key, config.Load (<[key := EmptyString]> environ) = config.Load (delete key environ)) ∧
  config.Load ∅
  = {| config.Port := "8080"; config.Environment := "development";
       config.Debug := false |}.
Proof.
  destruct (Load_spec environ) as (H1 & H2 & H3 & H4).
  split_and!; [done..|reflexivity].
Qed.

(** X25. [main] listens on the port that [Load] reports: it reads [PORT]
    again with the same default. *)
Theorem X25_listenAddress_port (environ : gmap string string) :
  main.listenAddress environ = ":" +:+ config.Port (config.Load environ).
Proof. apply listenAddress_Load. Qed.
